(** * Vocabulator: quiz selection and Leitner scheduling

    A shallow embedding of the quiz core of the vocabulary trainer:
    [database.py] (the SQLite wrapper with the Leitner scheduler, the
    statistics query, the distractor picker and the question selector),
    [quiz.py] (the [Question] record and [Quiz.generate_question]) and
    the POST branch of [quiz_question] in [app.py].

    Conventions of the embedding.
    - A Python [str] is a Rocq [string]; each character stands for the
      code point of the same number (the Latin-1 block).
    - A Python [dict] built from query rows is an association list in
      insertion order with unique keys ([dict_set] overwrites in place).
    - SQLite tables are lists of rows in storage order; a table whose
      primary key is the lookup key of every query is a [gmap].  The
      table [set_groups], read only through the index of its primary
      key, is kept in the order of that index.  A query without ORDER BY
      lists its rows in the order of the index or of the sorter that
      SQLite answers it from.
    - A float is the rational number it denotes.  The quotient that
      [get_problematic_groups] compares with its threshold is rounded to
      the nearest double, as the comparison depends on it.
    - Integers bound to SQL parameters are SQLite integers: row ids and
      counts, within 64 bits.
    - Timestamps are integers: the reading of the clock that produced
      them, in microseconds for Python's [datetime] and in seconds for
      SQLite's [CURRENT_TIMESTAMP].  Both clocks are arguments of the
      functions that read them.
    - [random] is driven by a tape of natural numbers, one per call of
      [randbelow]; [random.shuffle] and [random.choice] are the CPython
      algorithms over that tape.
    - A raised exception is the [Raise] outcome. *)

From Stdlib Require Import QArith Qpower Qabs Ascii Sorted.
From stdpp Require Import gmap strings list.

Local Open Scope Z_scope.
Local Open Scope list_scope.

(** ** Python values *)

Module Py.

(** The exceptions that the code modelled here raises itself: the
    [raise ValueError] of the selector and the [KeyError] of a failed
    dict lookup. *)
Inductive exn : Type :=
| ValueError
| KeyError.

Inductive outcome (A : Type) : Type :=
| Ret (a : A)
| Raise (e : exn).
Arguments Ret {A} a.
Arguments Raise {A} e.

(** *** dict: association list in insertion order *)

Definition dict : Type := list (string * string).

Fixpoint dict_get (d : dict) (k : string) : option string :=
  match d with
  | [] => None
  | (k', v) :: d' => if String.eqb k' k then Some v else dict_get d' k
  end.

(** [k in d] *)
Definition dict_mem (d : dict) (k : string) : bool :=
  match dict_get d k with Some _ => true | None => false end.

(** [d[k] = v]: an existing key keeps its position. *)
Fixpoint dict_set (d : dict) (k v : string) : dict :=
  match d with
  | [] => [(k, v)]
  | (k', v') :: d' =>
      if String.eqb k' k then (k', v) :: d' else (k', v') :: dict_set d' k v
  end.

(** [{k: v for (k, v) in rows}] *)
Definition dict_of_rows (rows : list (string * string)) : dict :=
  fold_left (fun d kv => dict_set d kv.1 kv.2) rows [].

(** [list(d.keys())] *)
Definition dict_keys (d : dict) : list string := map fst d.

(** [not d] *)
Definition dict_is_empty (d : dict) : bool :=
  match d with [] => true | _ => false end.

(** [w in l] for a list of strings *)
Definition list_mem (w : string) (l : list string) : bool :=
  existsb (String.eqb w) l.

(** [g in l] for a list of integers *)
Definition int_mem (g : Z) (l : list Z) : bool :=
  existsb (Z.eqb g) l.

(** *** random *)

Definition tape : Type := list nat.

(** [random._randbelow(n)]: the next number of the tape, reduced below [n]. *)
Definition randbelow (n : nat) (t : tape) : nat * tape :=
  match t with
  | [] => (0%nat, [])
  | r :: t' => ((r mod n)%nat, t')
  end.

(** [x[i], x[j] = x[j], x[i]] *)
Definition swap {A : Type} (i j : nat) (x : list A) : list A :=
  match x !! i, x !! j with
  | Some a, Some b => <[j:=a]> (<[i:=b]> x)
  | _, _ => x
  end.

(** The loop of [random.shuffle]:
    [for i in reversed(range(1, len(x))): j = randbelow(i + 1); swap]. *)
Fixpoint shuffle_loop {A : Type} (i : nat) (x : list A) (t : tape)
  : list A * tape :=
  match i with
  | O => (x, t)
  | S i' =>
      let '(j, t') := randbelow (S i) t in
      shuffle_loop i' (swap i j x) t'
  end.

Definition shuffle {A : Type} (x : list A) (t : tape) : list A * tape :=
  shuffle_loop (length x - 1) x t.

(** [random.choice([True, False])]: [seq[randbelow(len(seq))]]. *)
Definition choice_bool (t : tape) : bool * tape :=
  let '(j, t') := randbelow 2 t in
  (match j with O => true | _ => false end, t').

(** *** str *)

(** [str.isspace] on one character, for code points below 256. *)
Definition isspace (c : ascii) : bool :=
  let n := nat_of_ascii c in
  ((9 <=? n) && (n <=? 13) || (28 <=? n) && (n <=? 32)
   || (n =? 133) || (n =? 160))%nat.

Fixpoint lstrip (s : string) : string :=
  match s with
  | EmptyString => EmptyString
  | String c s' => if isspace c then lstrip s' else s
  end.

(** Drops trailing whitespace: a character is kept when it is not a
    space or when something is kept after it. *)
Fixpoint rstrip (s : string) : string :=
  match s with
  | EmptyString => EmptyString
  | String c s' =>
      match rstrip s' with
      | EmptyString => if isspace c then EmptyString else String c EmptyString
      | r => String c r
      end
  end.

(** [s.strip()] *)
Definition strip (s : string) : string := rstrip (lstrip s).

(** [str.lower] on one character, for code points below 256: the
    letters A-Z and the Latin-1 capitals 192-222 except 215. *)
Definition lower_char (c : ascii) : ascii :=
  let n := nat_of_ascii c in
  if ((65 <=? n) && (n <=? 90)
      || (192 <=? n) && (n <=? 222) && negb (n =? 215))%nat
  then ascii_of_nat (n + 32) else c.

(** [s.lower()] *)
Fixpoint lower (s : string) : string :=
  match s with
  | EmptyString => EmptyString
  | String c s' => String (lower_char c) (lower s')
  end.

End Py.

Import Py.

(** ** database.py *)

Module Database.

(** *** Tables *)

(** [vocab_items (group_id, language_id, word)] *)
Record vocab_row : Type := {
  v_group_id : Z;
  v_language_id : Z;
  v_word : string
}.

(** [quiz_sessions (set_id, session_time, total_questions,
    correct_answers, user_id)], keyed by [id]. *)
Record session_row : Type := {
  s_set_id : Z;
  s_session_time : Z;
  s_total_questions : Z;
  s_correct_answers : Z;
  s_user_id : option Z
}.

(** [quiz_answers (session_id, group_id, from_lang, to_lang, correct)];
    [correct] holds the 1 or 0 that [record_quiz_answer] stores. *)
Record answer_row : Type := {
  a_session_id : Z;
  a_group_id : Z;
  a_from_lang : string;
  a_to_lang : string;
  a_correct : bool
}.

(** [user_progress (box, due_date)], keyed by [(user_id, group_id)];
    both columns are supplied by every write. *)
Record progress_row : Type := {
  box : Z;
  due_date : Z
}.

Record t : Type := {
  languages : list (Z * string);
  vocab_items : list vocab_row;
  set_groups : list (Z * Z);
  quiz_sessions : gmap Z session_row;
  seq_quiz_sessions : Z;
  quiz_answers : list answer_row;
  user_progress : gmap (Z * Z) progress_row
}.

(** *** Quiz session logging *)

Definition record_quiz_session (db : t) (current_timestamp : Z)
    (set_id total correct : Z) (user_id : option Z) : t * Z :=
  let id := seq_quiz_sessions db + 1 in
  let row := {| s_set_id := set_id;
                s_session_time := current_timestamp;
                s_total_questions := total;
                s_correct_answers := correct;
                s_user_id := user_id |} in
  ({| languages := languages db;
      vocab_items := vocab_items db;
      set_groups := set_groups db;
      quiz_sessions := <[id := row]> (quiz_sessions db);
      seq_quiz_sessions := id;
      quiz_answers := quiz_answers db;
      user_progress := user_progress db |}, id).

Definition record_quiz_answer (db : t) (session_id group_id : Z)
    (from_lang to_lang : string) (correct : bool) : t :=
  let row := {| a_session_id := session_id;
                a_group_id := group_id;
                a_from_lang := from_lang;
                a_to_lang := to_lang;
                a_correct := if correct then true else false |} in
  {| languages := languages db;
     vocab_items := vocab_items db;
     set_groups := set_groups db;
     quiz_sessions := quiz_sessions db;
     seq_quiz_sessions := seq_quiz_sessions db;
     quiz_answers := quiz_answers db ++ [row];
     user_progress := user_progress db |}.

(** *** Statistics *)

(** [datetime('now', '-N day')] for the modifier built by
    [f'-{since_days} day'].  SQLite yields NULL when the modifier does
    not parse (a negative [since_days] gives ["--N day"]) and when the
    result leaves its calendar, whose first second is second 0 here. *)
Definition sqlite_datetime_minus_days (now since_days : Z) : option Z :=
  if (0 <=? since_days) && (0 <=? now - since_days * 86400)
  then Some (now - since_days * 86400) else None.

(** The WHERE clause on the joined session:
    [s.set_id = ? {date_filter} {user_filter}]. *)
Definition session_where (now set_id : Z) (since_days user_id : option Z)
    (s : session_row) : bool :=
  (s_set_id s =? set_id)
  && match since_days with
     | None => true
     | Some n =>
         match sqlite_datetime_minus_days now n with
         | Some cutoff => cutoff <=? s_session_time s
         | None => false
         end
     end
  && match user_id with
     | None => true
     | Some u =>
         match s_user_id s with
         | Some u' => u' =? u
         | None => false
         end
     end.

(** [quiz_answers a JOIN quiz_sessions s ON a.session_id = s.id WHERE ...] *)
Definition joined_answers (db : t) (now set_id : Z)
    (since_days user_id : option Z) : list answer_row :=
  List.filter
    (fun a => match quiz_sessions db !! a_session_id a with
              | Some s => session_where now set_id since_days user_id s
              | None => false
              end)
    (quiz_answers db).

(** [SUM(a.correct)] and [COUNT( * )] of one group of the GROUP BY. *)
Definition correct_count (rows : list answer_row) (g : Z) : Z :=
  fold_right Z.add 0
    (map (fun a => if a_correct a then 1 else 0)
         (List.filter (fun a => a_group_id a =? g) rows)).

Definition total_count (rows : list answer_row) (g : Z) : Z :=
  Z.of_nat (length (List.filter (fun a => a_group_id a =? g) rows)).

(** The integer nearest to [n / d], ties to the even one. *)
Definition round_half_even (n d : Z) : Z :=
  let q := n / d in
  let r := n mod d in
  if 2 * r <? d then q
  else if d <? 2 * r then q + 1
  else if Z.even q then q else q + 1.

(** The exponent of a positive rational: [2^e <= q < 2^(e+1)]. *)
Definition double_exponent (q : Q) : Z :=
  let k := Z.log2 (Qnum q) - Z.log2 (Z.pos (Qden q)) in
  if Qle_bool (2 ^ k) q then k else k - 1.

(** The double nearest to a positive rational (IEEE 754 binary64, round
    to nearest, ties to even): the rational is scaled to 53 bits before
    the binary point, rounded to an integer and scaled back.  The
    exponent is not bounded here: the quotient of two row counts is 0 or
    lies between [2^-63] and [2^63], far from the subnormal and the
    infinite doubles. *)
Definition round_double_pos (q : Q) : Q :=
  let e := double_exponent q in
  let x := (q * 2 ^ (52 - e))%Q in
  (inject_Z (round_half_even (Qnum x) (Z.pos (Qden x))) * 2 ^ (e - 52))%Q.

Definition round_double (q : Q) : Q :=
  match Qnum q with
  | Z0 => 0%Q
  | Z.pos _ => round_double_pos q
  | Z.neg _ => (- round_double_pos (- q))%Q
  end.

(** [CAST(correct_count AS FLOAT) / total_count]: the double quotient of
    two counts, each below [2^53] and so a double itself. *)
Definition ratio (c n : Z) : Q := round_double (inject_Z c / inject_Z n).

(** [HAVING (CAST(correct_count AS FLOAT) / total_count) < ?]; the
    threshold is the number that the float bound to [?] denotes: for
    the literal [0.1] it is [round_double (1 # 10)], a little more than
    one tenth. *)
Definition having_below (c n : Z) (threshold : Q) : bool :=
  match (ratio c n ?= threshold)%Q with
  | Lt => true
  | _ => false
  end.

(** The rows of a table in the order of an index on [key]: by ascending
    key, rows of equal key in storage order. *)
Fixpoint index_insert {A : Type} (key : A -> Z) (row : A) (rows : list A)
  : list A :=
  match rows with
  | [] => [row]
  | r :: rest =>
      if key row <=? key r then row :: r :: rest
      else r :: index_insert key row rest
  end.

Definition index_order {A : Type} (key : A -> Z) (rows : list A) : list A :=
  fold_right (index_insert key) [] rows.

(** [GROUP BY a.group_id] sorts the rows by group: the groups come by
    ascending id. *)
Definition get_problematic_groups (db : t) (now set_id : Z)
    (threshold : Q) (since_days user_id : option Z) : list Z :=
  let rows := joined_answers db now set_id since_days user_id in
  List.filter
    (fun g => having_below (correct_count rows g) (total_count rows g)
                threshold)
    (index_order (fun g => g) (remove_dups (map a_group_id rows))).

(** The default [threshold=0.7]: the double that the literal denotes. *)
Definition default_threshold : Q :=
  Eval vm_compute in Qred (round_double (7 # 10)).

(** *** Spaced repetition *)

Definition US_PER_DAY : Z := 86400000000.

(** [timedelta(days=2 ** box)] in microseconds.  For a negative [box]
    Python's [2 ** box] is the float [1 / 2 ** -box], and [timedelta]
    rounds the product to the nearest microsecond, ties to even. *)
Definition timedelta_days_pow2 (box : Z) : Z :=
  if 0 <=? box then 2 ^ box * US_PER_DAY
  else round_half_even US_PER_DAY (2 ^ (- box)).

Definition set_progress (db : t) (user_id group_id : Z)
    (row : progress_row) : t :=
  {| languages := languages db;
     vocab_items := vocab_items db;
     set_groups := set_groups db;
     quiz_sessions := quiz_sessions db;
     seq_quiz_sessions := seq_quiz_sessions db;
     quiz_answers := quiz_answers db;
     user_progress := <[(user_id, group_id) := row]> (user_progress db) |}.

(** [now] is the reading of [datetime.datetime.now()]. *)
Definition update_user_progress (db : t) (now : Z)
    (user_id group_id : Z) (correct : bool) : t :=
  match user_progress db !! (user_id, group_id) with
  | Some row =>
      let box := box row in
      let box := if correct then Z.min (box + 1) 5 else 0 in
      let due_date := now + timedelta_days_pow2 box in
      set_progress db user_id group_id {| box := box; due_date := due_date |}
  | None =>
      let box := if correct then 1 else 0 in
      let due_date := now + timedelta_days_pow2 box in
      set_progress db user_id group_id {| box := box; due_date := due_date |}
  end.

(** [set_groups sg LEFT JOIN user_progress up ON sg.group_id = up.group_id
    AND up.user_id = ? WHERE sg.set_id = ? AND (up.due_date IS NULL OR
    up.due_date <= CURRENT_TIMESTAMP)].  [current_timestamp] is in whole
    seconds; the stored [due_date] has microseconds. *)
Definition get_due_groups (db : t) (current_timestamp : Z)
    (set_id user_id : Z) : list Z :=
  map snd
    (List.filter
       (fun sg =>
          (sg.1 =? set_id)
          && match user_progress db !! (user_id, sg.2) with
             | None => true
             | Some up => due_date up <=? current_timestamp * 1000000
             end)
       (set_groups db)).

(** *** Queries *)

(** The items of a group as the index of [UNIQUE (group_id,
    language_id)] lists them: by ascending language id. *)
Definition group_items (db : t) (group_id : Z) : list vocab_row :=
  index_order v_language_id
    (List.filter (fun v => v_group_id v =? group_id) (vocab_items db)).

(** [vocab_items v JOIN languages l ON v.language_id = l.id
    WHERE v.group_id = ?], as [(language, word)] rows: SQLite walks the
    items of the group through that index and looks up the language of
    each by its id. *)
Definition group_rows (db : t) (group_id : Z) : list (string * string) :=
  flat_map
    (fun v =>
       map (fun l => (l.2, v_word v))
           (List.filter (fun l => l.1 =? v_language_id v) (languages db)))
    (group_items db group_id).

Definition fetch_group_words (db : t) (group_id : Z) : dict :=
  dict_of_rows (group_rows db group_id).

Definition fetch_set_group_ids (db : t) (set_id : Z) : list Z :=
  map snd (List.filter (fun sg => sg.1 =? set_id) (set_groups db)).

(** *** Distractors *)

(** The body of [for gid in group_ids:] with its [break]. *)
Fixpoint distractors_loop (db : t) (target_language : string)
    (num_choices : Z) (group_ids : list Z) (distractors : list string)
  : list string :=
  match group_ids with
  | [] => distractors
  | gid :: rest =>
      let words := fetch_group_words db gid in
      let distractors :=
        match dict_get words target_language with
        | Some w =>
            if negb (list_mem w distractors) then distractors ++ [w]
            else distractors
        | None => distractors
        end in
      if num_choices <=? Z.of_nat (length distractors) then distractors
      else distractors_loop db target_language num_choices rest distractors
  end.

Definition get_distractors (db : t) (set_id exclude_group_id : Z)
    (target_language : string) (num_choices : Z) (rnd : tape)
  : list string * tape :=
  let group_ids := fetch_set_group_ids db set_id in
  let group_ids :=
    List.filter (fun gid => negb (gid =? exclude_group_id)) group_ids in
  let '(group_ids, rnd) := shuffle group_ids rnd in
  (distractors_loop db target_language num_choices group_ids [], rnd).

(** *** Question selection *)

(** [(group_id, source_language, source_word, target_language,
    target_word)] *)
Definition translation : Type := Z * string * string * string * string.

(** Truth value of the [languages] argument: [None] and the empty
    list are false. *)
Definition truthy (languages : option (list string)) : bool :=
  match languages with
  | Some (_ :: _) => true
  | _ => false
  end.

(** The double loop [for i ..: for j ..: if i != j: options.append(...)]. *)
Definition ordered_pairs (langs : list string) : list (string * string) :=
  flat_map
    (fun i =>
       flat_map
         (fun j =>
            if (i =? j)%nat then []
            else match langs !! i, langs !! j with
                 | Some a, Some b => [(a, b)]
                 | _, _ => []
                 end)
         (seq 0 (length langs)))
    (seq 0 (length langs)).

(** What the "Determine candidate language pairs" block does for one
    group: [continue], raise, or leave [options] for the shuffle. *)
Inductive candidates : Type :=
| Continue
| Throw (e : exn)
| Options (options : list (string * string)).

Definition candidate_pairs (languages : option (list string))
    (words : dict) : candidates :=
  match languages with
  | Some (l :: ls) =>
      match l :: ls with
      | [lang1; lang2] =>
          if negb (dict_mem words lang1) || negb (dict_mem words lang2)
          then Continue
          else Options [(lang1, lang2)]
      | _ => Throw ValueError
      end
  | _ =>
      let langs := dict_keys words in
      if (length langs <? 2)%nat then Continue
      else Options (ordered_pairs langs)
  end.

(** [for (src, tgt) in options:]; [None] when the loop falls through. *)
Fixpoint pick_pair (languages : option (list string))
    (random_direction : bool) (group_id : Z) (words : dict)
    (options : list (string * string)) (rnd : tape)
  : option (outcome translation) * tape :=
  match options with
  | [] => (None, rnd)
  | (src, tgt) :: rest =>
      if dict_mem words src && dict_mem words tgt then
        let '(src, tgt, rnd) :=
          if random_direction && truthy languages then
            let '(flip, rnd) := choice_bool rnd in
            if flip then (tgt, src, rnd) else (src, tgt, rnd)
          else (src, tgt, rnd) in
        match dict_get words src, dict_get words tgt with
        | Some src_word, Some tgt_word =>
            (Some (Ret (group_id, src, src_word, tgt, tgt_word)), rnd)
        | _, _ => (Some (Raise KeyError), rnd)
        end
      else pick_pair languages random_direction group_id words rest rnd
  end.

(** [for group_id in group_ids:] followed by the final [return None]. *)
Fixpoint scan_groups (db : t) (languages : option (list string))
    (random_direction : bool) (group_ids : list Z) (rnd : tape)
  : outcome (option translation) * tape :=
  match group_ids with
  | [] => (Ret None, rnd)
  | group_id :: rest =>
      let words := fetch_group_words db group_id in
      if dict_is_empty words
      then scan_groups db languages random_direction rest rnd
      else
        match candidate_pairs languages words with
        | Continue => scan_groups db languages random_direction rest rnd
        | Throw e => (Raise e, rnd)
        | Options options =>
            let '(options, rnd) := shuffle options rnd in
            match pick_pair languages random_direction group_id words
                    options rnd with
            | (Some (Ret r), rnd) => (Ret (Some r), rnd)
            | (Some (Raise e), rnd) => (Raise e, rnd)
            | (None, rnd) =>
                scan_groups db languages random_direction rest rnd
            end
        end
  end.

(** The candidate pool: the set's groups, kept when in
    [allowed_group_ids] if that is given. *)
Definition candidate_pool (db : t) (set_id : Z)
    (allowed_group_ids : option (list Z)) : list Z :=
  let group_ids := fetch_set_group_ids db set_id in
  match allowed_group_ids with
  | Some allowed => List.filter (fun gid => int_mem gid allowed) group_ids
  | None => group_ids
  end.

Definition fetch_random_group_and_direction (db : t) (set_id : Z)
    (languages : option (list string)) (random_direction : bool)
    (allowed_group_ids : option (list Z)) (rnd : tape)
  : outcome (option translation) * tape :=
  let group_ids := candidate_pool db set_id allowed_group_ids in
  match group_ids with
  | [] => (Ret None, rnd)
  | _ =>
      let '(group_ids, rnd) := shuffle group_ids rnd in
      scan_groups db languages random_direction group_ids rnd
  end.

End Database.

(** ** quiz.py *)

Module Quiz.

Record Question : Type := {
  set_id : Z;
  group_id : Z;
  source_language : string;
  source_word : string;
  target_language : string;
  target_word : string
}.

Definition check_answer (q : Question) (answer : string) : bool :=
  String.eqb (lower (strip answer)) (lower (strip (target_word q))).

Definition generate_question (db : Database.t) (set_id : Z)
    (languages : option (list string)) (random_direction : bool)
    (allowed_group_ids : option (list Z)) (rnd : tape)
  : outcome (option Question) * tape :=
  match Database.fetch_random_group_and_direction
          db set_id languages random_direction allowed_group_ids rnd with
  | (Raise e, rnd) => (Raise e, rnd)
  | (Ret None, rnd) => (Ret None, rnd)
  | (Ret (Some (group_id, src_lang, src_word, tgt_lang, tgt_word)), rnd) =>
      (Ret (Some {| set_id := set_id;
                    group_id := group_id;
                    source_language := src_lang;
                    source_word := src_word;
                    target_language := tgt_lang;
                    target_word := tgt_word |}), rnd)
  end.

End Quiz.

(** ** app.py: answering a question *)

Module App.

(** One entry of [quiz_state["answers"]]. *)
Record answer_log : Type := {
  al_group_id : Z;
  al_from_lang : string;
  al_to_lang : string;
  al_correct : bool
}.

(** [session["quiz"]] *)
Record quiz_state : Type := {
  qs_set_id : Z;
  selected_langs : option (list string);
  random_dir : bool;
  mode : string;
  spaced : bool;
  problem_only : bool;
  allowed_groups : option (list Z);
  score : Z;
  total : Z;
  answers : list answer_log
}.

(** [session["current_question"]] *)
Record current_question : Type := {
  cq_group_id : Z;
  src_lang : string;
  src_word : string;
  tgt_lang : string;
  tgt_word : string;
  choices : option (list string)
}.

Record session : Type := {
  quiz : option quiz_state;
  current_q : option current_question;
  user_id : option Z
}.

(** The clock readings of one request: [datetime.datetime.now()] in
    [update_user_progress], and [CURRENT_TIMESTAMP] in the due query
    and in the insert of the session summary. *)
Record clock : Type := {
  datetime_now : Z;
  ts_due : Z;
  ts_record : Z
}.

(** [request.form.get(key, default)] *)
Definition form_get (form : gmap string string) (key default : string)
  : string :=
  match form !! key with Some v => v | None => default end.

(** Truth value of [session.get("user_id")]. *)
Definition logged_in (uid : option Z) : option Z :=
  match uid with
  | Some u => if u =? 0 then None else Some u
  | None => None
  end.

(** "Evaluate the submitted answer based on mode": the pair
    [(user_input, correct)]. *)
Definition grade (mode : string) (form : gmap string string)
    (current_q : option current_question) : option string * bool :=
  if String.eqb mode "typed" then
    let user_input := strip (form_get form "answer" "") in
    (Some user_input,
     match current_q with
     | Some q => String.eqb (lower user_input) (lower (tgt_word q))
     | None => false
     end)
  else if String.eqb mode "choice" then
    let user_input := strip (form_get form "choice" "") in
    (Some user_input,
     match current_q with
     | Some q => String.eqb user_input (tgt_word q)
     | None => false
     end)
  else if String.eqb mode "flashcard" then
    let user_input := form_get form "knew" "no" in
    (Some user_input,
     match current_q with
     | Some q => String.eqb user_input "yes"
     | None => false
     end)
  else (None, false).

(** [[gid for gid in due if gid in prob]] when [due] is a list, [prob]
    otherwise; without [problem_only], [due] itself. *)
Definition combine_filters (problem_only : bool) (due : option (list Z))
    (prob : list Z) : option (list Z) :=
  if problem_only then
    match due with
    | Some due => Some (List.filter (fun gid => int_mem gid prob) due)
    | None => Some prob
    end
  else due.

(** "If empty list, treat as None (means no restriction)". *)
Definition relax (allowed : option (list Z)) : option (list Z) :=
  match allowed with
  | Some [] => None
  | _ => allowed
  end.

(** "Update allowed groups if spaced repetition is active": the value
    assigned to [quiz_state["allowed_groups"]]. *)
Definition recompute_allowed (db : Database.t) (clk : clock) (set_id : Z)
    (uid : option Z) (problem_only : bool) : option (list Z) :=
  let due_groups :=
    match logged_in uid with
    | Some u => Some (Database.get_due_groups db (ts_due clk) set_id u)
    | None => None
    end in
  let prob :=
    Database.get_problematic_groups db (ts_due clk) set_id
      Database.default_threshold None None in
  relax (combine_filters problem_only due_groups prob).

(** [options = distractors + [q.target_word]; random.shuffle(options)] *)
Definition choice_options (db : Database.t) (set_id : Z)
    (q : Quiz.Question) (rnd : tape) : list string * tape :=
  let '(distractors, rnd) :=
    Database.get_distractors db set_id (Quiz.group_id q)
      (Quiz.target_language q) 3 rnd in
  shuffle (distractors ++ [Quiz.target_word q]) rnd.

Inductive response : Type :=
| RedirectQuizStart
| ResultPage (score total : Z)
| QuestionPage (question : current_question) (feedback : bool)
    (previous_answer : option string) (mode : string)
| ServerError (e : exn).

Definition set_progress_of_answer (st : quiz_state) (correct : bool)
    (log : list answer_log) (allowed : option (list Z)) : quiz_state :=
  {| qs_set_id := qs_set_id st;
     selected_langs := selected_langs st;
     random_dir := random_dir st;
     mode := mode st;
     spaced := spaced st;
     problem_only := problem_only st;
     allowed_groups := allowed;
     score := if correct then score st + 1 else score st;
     total := total st + 1;
     answers := log |}.

Definition persist_answers (db : Database.t) (session_id : Z)
    (log : list answer_log) : Database.t :=
  fold_left
    (fun db ans =>
       Database.record_quiz_answer db session_id (al_group_id ans)
         (al_from_lang ans) (al_to_lang ans) (al_correct ans))
    log db.

(** The POST branch of [quiz_question(set_id)]. *)
Definition quiz_question_post (db : Database.t) (clk : clock)
    (sess : session) (set_id : Z) (form : gmap string string) (rnd : tape)
  : Database.t * session * response * tape :=
  match quiz sess with
  | None => (db, sess, RedirectQuizStart, rnd)
  | Some quiz_state =>
      if negb (qs_set_id quiz_state =? set_id)
      then (db, sess, RedirectQuizStart, rnd)
      else
        let '(user_input, correct) :=
          grade (mode quiz_state) form (current_q sess) in
        (* Append to answers log, update spaced repetition progress *)
        let '(log, db) :=
          match current_q sess with
          | Some q =>
              (answers quiz_state
                 ++ [{| al_group_id := cq_group_id q;
                        al_from_lang := src_lang q;
                        al_to_lang := tgt_lang q;
                        al_correct := correct |}],
               match logged_in (user_id sess) with
               | Some uid =>
                   Database.update_user_progress db (datetime_now clk) uid
                     (cq_group_id q) correct
               | None => db
               end)
          | None => (answers quiz_state, db)
          end in
        (* Update allowed groups if spaced repetition is active *)
        let allowed :=
          if spaced quiz_state
          then recompute_allowed db clk set_id (user_id sess)
                 (problem_only quiz_state)
          else allowed_groups quiz_state in
        let quiz_state :=
          set_progress_of_answer quiz_state correct log allowed in
        (* Generate next question *)
        match Quiz.generate_question db set_id (selected_langs quiz_state)
                (random_dir quiz_state) (allowed_groups quiz_state) rnd with
        | (Raise e, rnd) =>
            (db,
             {| quiz := Some quiz_state;
                current_q := current_q sess;
                user_id := user_id sess |},
             ServerError e, rnd)
        | (Ret None, rnd) =>
            let '(db, session_id) :=
              Database.record_quiz_session db (ts_record clk) set_id
                (total quiz_state) (score quiz_state) (user_id sess) in
            let db := persist_answers db session_id (answers quiz_state) in
            (db,
             {| quiz := None; current_q := None; user_id := user_id sess |},
             ResultPage (score quiz_state) (total quiz_state), rnd)
        | (Ret (Some q), rnd) =>
            let '(choices, rnd) :=
              if String.eqb (mode quiz_state) "choice"
              then let '(options, rnd) := choice_options db set_id q rnd in
                   (Some options, rnd)
              else (None, rnd) in
            let question :=
              {| cq_group_id := Quiz.group_id q;
                 src_lang := Quiz.source_language q;
                 src_word := Quiz.source_word q;
                 tgt_lang := Quiz.target_language q;
                 tgt_word := Quiz.target_word q;
                 choices := choices |} in
            (db,
             {| quiz := Some quiz_state;
                current_q := Some question;
                user_id := user_id sess |},
             QuestionPage question correct user_input (mode quiz_state),
             rnd)
        end
  end.

End App.


(** ** database.py: lessons, translations and session statistics *)

Module Lessons.

Import Database.

(** The order of the primary key [(set_id, group_id)]. *)
Definition pk_le (a b : Z * Z) : bool :=
  (a.1 <? b.1) || ((a.1 =? b.1) && (a.2 <=? b.2)).

(** The place of a new row in the index of the primary key. *)
Fixpoint pk_insert (row : Z * Z) (rows : list (Z * Z)) : list (Z * Z) :=
  match rows with
  | [] => [row]
  | r :: rest =>
      if pk_le row r then row :: r :: rest else r :: pk_insert row rest
  end.

(** [INSERT OR IGNORE INTO set_groups (set_id, group_id)]: the row is
    dropped when the primary key [(set_id, group_id)] is present, and
    takes its place in the order of that key otherwise. *)
Definition add_group_to_set (db : t) (set_id group_id : Z) : t :=
  if existsb (fun sg => (sg.1 =? set_id) && (sg.2 =? group_id)) (set_groups db)
  then db
  else
    {| languages := languages db;
       vocab_items := vocab_items db;
       set_groups := pk_insert (set_id, group_id) (set_groups db);
       quiz_sessions := quiz_sessions db;
       seq_quiz_sessions := seq_quiz_sessions db;
       quiz_answers := quiz_answers db;
       user_progress := user_progress db |}.

(** The four-way join of [fetch_set_translations]:
    [vocab_items s JOIN vocab_items t ON s.group_id = t.group_id
     JOIN languages sl ON s.language_id = sl.id
     JOIN languages tl ON t.language_id = tl.id
     WHERE s.group_id IN (...) AND sl.name = ? AND tl.name = ?]. *)
Definition translation_rows (db : t) (group_ids : list Z)
    (lang_from lang_to : string) : list (string * string) :=
  flat_map
    (fun s =>
       flat_map
         (fun t =>
            if v_group_id s =? v_group_id t then
              flat_map
                (fun sl =>
                   if sl.1 =? v_language_id s then
                     flat_map
                       (fun tl =>
                          if (tl.1 =? v_language_id t)
                             && int_mem (v_group_id s) group_ids
                             && String.eqb sl.2 lang_from
                             && String.eqb tl.2 lang_to
                          then [(v_word s, v_word t)]
                          else [])
                       (languages db)
                   else [])
                (languages db)
            else [])
         (vocab_items db))
    (vocab_items db).

(** [max_variables] is SQLite's limit on the [?] placeholders of one
    statement, a constant of the library build; the statement binds one
    per group and two for the languages, and [None] stands for the
    [sqlite3.OperationalError] raised beyond the limit. *)
Definition fetch_set_translations (max_variables : nat) (db : t) (set_id : Z)
    (lang_from lang_to : string) : option (list (string * string)) :=
  let group_ids := fetch_set_group_ids db set_id in
  match group_ids with
  | [] => Some []
  | _ =>
      if (max_variables <? length group_ids + 2)%nat then None
      else Some (translation_rows db group_ids lang_from lang_to)
  end.

(** The result of [get_stats]: the dict with keys [total_sessions],
    [avg_correct] and [avg_ratio]; the averages are exact rationals. *)
Record stats : Type := {
  total_sessions : Z;
  avg_correct : Q;
  avg_ratio : Q
}.

(** [quiz_sessions WHERE set_id = ? {date_filter} {user_filter}] *)
Definition matching_sessions (db : t) (now set_id : Z)
    (since_days user_id : option Z) : list session_row :=
  List.filter (session_where now set_id since_days user_id)
    (map snd (map_to_list (quiz_sessions db))).

(** SQL [AVG] over the values that are not NULL; NULL without any. *)
Definition sql_avg (values : list Q) : option Q :=
  match values with
  | [] => None
  | _ => Some (fold_right Qplus 0%Q values / inject_Z (Z.of_nat (length values)))%Q
  end.

(** [CAST(correct_answers AS FLOAT) / total_questions]: NULL when the
    divisor is 0. *)
Definition session_ratio (s : session_row) : option Q :=
  if s_total_questions s =? 0 then None
  else Some (inject_Z (s_correct_answers s) / inject_Z (s_total_questions s))%Q.

(** [float(x or 0.0)] *)
Definition or_zero (x : option Q) : Q :=
  match x with Some q => q | None => 0%Q end.

Definition get_stats (db : t) (now set_id : Z)
    (since_days user_id : option Z) : stats :=
  let rows := matching_sessions db now set_id since_days user_id in
  {| total_sessions := Z.of_nat (length rows);
     avg_correct :=
       or_zero (sql_avg (map (fun s => inject_Z (s_correct_answers s)) rows));
     avg_ratio := or_zero (sql_avg (omap session_ratio rows)) |}.

End Lessons.

(** ** database.py: languages and vocabulary items *)

Module Catalog.

Import Database.

(** The database together with what [Database.t] leaves out of the
    [languages] table: the [code] column, by language id where it is not
    NULL, and the AUTOINCREMENT counter of the table. *)
Record t : Type := {
  base : Database.t;
  language_code : gmap Z string;
  seq_languages : Z
}.

Definition with_languages (db : Database.t) (rows : list (Z * string))
  : Database.t :=
  {| languages := rows;
     vocab_items := vocab_items db;
     set_groups := set_groups db;
     quiz_sessions := quiz_sessions db;
     seq_quiz_sessions := seq_quiz_sessions db;
     quiz_answers := quiz_answers db;
     user_progress := user_progress db |}.

Definition with_vocab_items (db : Database.t) (rows : list vocab_row)
  : Database.t :=
  {| languages := languages db;
     vocab_items := rows;
     set_groups := set_groups db;
     quiz_sessions := quiz_sessions db;
     seq_quiz_sessions := seq_quiz_sessions db;
     quiz_answers := quiz_answers db;
     user_progress := user_progress db |}.

(** The largest rowid in use, 0 for an empty table. *)
Definition max_id (ids : list Z) : Z := fold_right Z.max 0 ids.

(** The rowid AUTOINCREMENT gives the next row: one more than the
    largest rowid that ever existed. *)
Definition next_language_id (st : t) : Z :=
  Z.max (seq_languages st) (max_id (map fst (languages (base st)))) + 1.

(** [SELECT id FROM languages WHERE name = ?], then the INSERT when no
    row came back. *)
Definition get_language_id (st : t) (name : string) (code : option string)
  : t * Z :=
  match List.find (fun l => String.eqb l.2 name) (languages (base st)) with
  | Some row => (st, row.1)
  | None =>
      let id := next_language_id st in
      ({| base := with_languages (base st)
                    (languages (base st) ++ [(id, name)]);
          language_code :=
            match code with
            | Some c => <[id := c]> (language_code st)
            | None => language_code st
            end;
          seq_languages := id |}, id)
  end.

(** [INSERT OR IGNORE INTO vocab_items (group_id, language_id, word)]
    after [get_language_id(language)]: the row is dropped when
    [(group_id, language_id)] is present. *)
Definition add_vocab_item (st : t) (group_id : Z) (language word : string)
  : t :=
  let '(st, lang_id) := get_language_id st language None in
  if existsb
       (fun v => (v_group_id v =? group_id) && (v_language_id v =? lang_id))
       (vocab_items (base st))
  then st
  else
    {| base := with_vocab_items (base st)
                 (vocab_items (base st)
                    ++ [{| v_group_id := group_id;
                           v_language_id := lang_id;
                           v_word := word |}]);
       language_code := language_code st;
       seq_languages := seq_languages st |}.

Definition default_langs : list (string * string) :=
  [("Swedish", "sv"); ("English", "en"); ("Spanish", "es")].

(** [for name, code in default_langs: self.get_language_id(name, code)] *)
Definition _ensure_default_languages (st : t) : t :=
  fold_left (fun st nc => (get_language_id st nc.1 (Some nc.2)).1)
    default_langs st.

End Catalog.

(** ** quiz.py: the command-line session *)

Module Cli.

(** The terminal: the lines still to be read by [input()], without
    their newline, and the lines written by [print]. *)
Record console : Type := {
  stdin : list string;
  stdout : list string
}.

Definition print (line : string) (c : console) : console :=
  {| stdin := stdin c; stdout := stdout c ++ [line] |}.

(** [try: answer = input().strip() / except EOFError: answer = ""] *)
Definition read_answer (c : console) : string * console :=
  match stdin c with
  | [] => (EmptyString, c)
  | line :: rest => (strip line, {| stdin := rest; stdout := stdout c |})
  end.

(** The body of [for _ in range(num_questions):], [n] rounds to go. *)
Fixpoint quiz_rounds (db : Database.t) (set_id : Z)
    (languages : option (list string)) (random_direction : bool) (n : nat)
    (results : list (Quiz.Question * bool)) (c : console) (rnd : tape)
  : outcome (list (Quiz.Question * bool)) * console * tape :=
  match n with
  | O => (Ret results, c, rnd)
  | S n' =>
      match Quiz.generate_question db set_id languages random_direction
              None rnd with
      | (Raise e, rnd) => (Raise e, c, rnd)
      | (Ret None, rnd) => (Ret results, c, rnd)
      | (Ret (Some q), rnd) =>
          let c :=
            print ("Translate '" ++ Quiz.source_word q ++ "' from "
                   ++ Quiz.source_language q ++ " to "
                   ++ Quiz.target_language q ++ ":")%string c in
          let '(answer, c) := read_answer c in
          let correct := Quiz.check_answer q answer in
          let results := results ++ [(q, correct)] in
          let c :=
            print (if correct then "Correct!"
                   else ("Wrong. Correct answer: " ++ Quiz.target_word q))%string
              c in
          quiz_rounds db set_id languages random_direction n' results c rnd
      end
  end.

(** [Quiz.quiz_session]; [range] of a negative number is empty. *)
Definition quiz_session (db : Database.t) (set_id num_questions : Z)
    (languages : option (list string)) (random_direction : bool)
    (c : console) (rnd : tape)
  : outcome (list (Quiz.Question * bool)) * console * tape :=
  quiz_rounds db set_id languages random_direction (Z.to_nat num_questions)
    [] c rnd.

End Cli.

(** ** app.py: starting a quiz *)

Module Start.

(** A row of the [sets] table. *)
Record set_row : Type := {
  id : Z;
  name : string;
  description : string;
  import_date : Z
}.

(** The database with its [sets] table. *)
Record library : Type := {
  db : Database.t;
  sets : list set_row
}.

(** Insertion into a list ordered by [import_date], latest first. *)
Fixpoint insert_by_date (row : set_row) (rows : list set_row)
  : list set_row :=
  match rows with
  | [] => [row]
  | r :: rest =>
      if import_date r <=? import_date row then row :: r :: rest
      else r :: insert_by_date row rest
  end.

(** [SELECT id, name, description, import_date FROM sets ORDER BY
    import_date DESC]; SQL leaves the order of rows of equal date open,
    here they keep their table order. *)
Definition fetch_sets (lib : library) : list set_row :=
  fold_right insert_by_date [] (sets lib).

(** [request.form]: every key with the values submitted for it. *)
Definition multidict : Type := gmap string (list string).

(** [request.form.getlist(key)] *)
Definition getlist (form : multidict) (key : string) : list string :=
  match form !! key with Some values => values | None => [] end.

(** [request.form.get(key)]: the first value, [None] without one. *)
Definition get (form : multidict) (key : string) : option string :=
  match getlist form key with v :: _ => Some v | [] => None end.

(** [request.form.get(key) == "on"] *)
Definition is_on (form : multidict) (key : string) : bool :=
  match get form key with Some v => String.eqb v "on" | None => false end.

Inductive response : Type :=
| RedirectIndex
| RedirectQuestion
| ServerError (e : exn).

(** "Compute allowed group ids for spaced repetition and/or problematic
    words". *)
Definition initial_allowed (d : Database.t) (clk : App.clock) (set_id : Z)
    (uid : option Z) (spaced problem_only : bool) : option (list Z) :=
  if spaced then
    let due :=
      match App.logged_in uid with
      | Some u => Some (Database.get_due_groups d (App.ts_due clk) set_id u)
      | None => None
      end in
    if problem_only then
      let prob :=
        Database.get_problematic_groups d (App.ts_due clk) set_id
          Database.default_threshold None None in
      match due with
      | Some due => Some (List.filter (fun gid => int_mem gid prob) due)
      | None => Some prob
      end
    else due
  else if problem_only then
    Some (Database.get_problematic_groups d (App.ts_due clk) set_id
            Database.default_threshold None None)
  else None.

(** The POST branch of [quiz_start(set_id)]. *)
Definition quiz_start_post (lib : library) (clk : App.clock)
    (sess : App.session) (set_id : Z) (form : multidict) (rnd : tape)
  : App.session * response * tape :=
  match List.filter (fun s => id s =? set_id) (fetch_sets lib) with
  | [] => (sess, RedirectIndex, rnd)
  | _ =>
      let selected_langs :=
        match getlist form "languages" with
        | [] => None
        | langs => Some (take 2 langs)
        end in
      let random_dir := is_on form "random_direction" in
      let mode :=
        match get form "mode" with Some m => m | None => "typed" end in
      let problem_only := is_on form "problem_only" in
      let spaced := is_on form "spaced_repetition" in
      let allowed :=
        initial_allowed (db lib) clk set_id (App.user_id sess) spaced
          problem_only in
      match Quiz.generate_question (db lib) set_id selected_langs random_dir
              allowed rnd with
      | (Raise e, rnd) => (sess, ServerError e, rnd)
      | (Ret None, rnd) => (sess, RedirectIndex, rnd)
      | (Ret (Some q), rnd) =>
          let quiz_state :=
            {| App.qs_set_id := set_id;
               App.selected_langs := selected_langs;
               App.random_dir := random_dir;
               App.mode := mode;
               App.spaced := spaced;
               App.problem_only := problem_only;
               App.allowed_groups := allowed;
               App.score := 0;
               App.total := 0;
               App.answers := [] |} in
          let '(choices, rnd) :=
            if String.eqb mode "choice"
            then let '(options, rnd) :=
                   App.choice_options (db lib) set_id q rnd in
                 (Some options, rnd)
            else (None, rnd) in
          ({| App.quiz := Some quiz_state;
              App.current_q :=
                Some {| App.cq_group_id := Quiz.group_id q;
                        App.src_lang := Quiz.source_language q;
                        App.src_word := Quiz.source_word q;
                        App.tgt_lang := Quiz.target_language q;
                        App.tgt_word := Quiz.target_word q;
                        App.choices := choices |};
              App.user_id := App.user_id sess |},
           RedirectQuestion, rnd)
      end
  end.

End Start.
(** * Statements: the notions the claims are phrased in *)

Module Spec.

Import Database.

(** The box written by one answer, as the Leitner rule states it. *)
Definition leitner_box (old : option progress_row) (correct : bool) : Z :=
  match old with
  | None => if correct then 1 else 0
  | Some r => if correct then Z.min (box r + 1) 5 else 0
  end.

(** Consecutive correct answers, one per clock reading. *)
Definition answer_correctly (db : t) (u g : Z) (nows : list Z) : t :=
  fold_left (fun db now => update_user_progress db now u g true) nows db.

(** A group is due for a user when no progress record exists or the
    recorded due date (microseconds) is at or before [now] (seconds). *)
Definition due (db : t) (now user_id group_id : Z) : Prop :=
  user_progress db !! (user_id, group_id) = None
  \/ exists r, user_progress db !! (user_id, group_id) = Some r
               /\ due_date r <= now * 1000000.

(** An answer counts for [(set_id, since?, user?)] when its session
    belongs to the set, is not older than [since_days] days (a window
    SQLite can compute) and, with a user filter, was taken by that
    user. *)
Definition in_window (now : Z) (since_days : option Z) (s : session_row)
  : Prop :=
  match since_days with
  | None => True
  | Some n =>
      0 <= n /\ 0 <= now - n * 86400 /\ now - n * 86400 <= s_session_time s
  end.

Definition by_user (user_id : option Z) (s : session_row) : Prop :=
  match user_id with
  | None => True
  | Some u => s_user_id s = Some u
  end.

Definition counts_for (db : t) (now set_id : Z)
    (since_days user_id : option Z) (a : answer_row) : Prop :=
  exists s, quiz_sessions db !! a_session_id a = Some s
            /\ s_set_id s = set_id
            /\ in_window now since_days s
            /\ by_user user_id s.

#[global] Instance counts_for_dec db now set_id since_days user_id a :
  Decision (counts_for db now set_id since_days user_id a).
Proof.
  unfold counts_for.
  destruct (quiz_sessions db !! a_session_id a) as [s|].
  - assert (Decision (s_set_id s = set_id /\ in_window now since_days s
                      /\ by_user user_id s)) as [Hy|Hn].
    { unfold in_window, by_user.
      destruct since_days, user_id; apply _. }
    + left. exists s. tauto.
    + right. intros (s' & [= <-] & H). tauto.
  - right. intros (s & [=] & _).
Defined.

(** The answers recorded for a group under the filters, and how many
    of them were correct. *)
Definition answers_of (db : t) (now set_id : Z)
    (since_days user_id : option Z) (g : Z) : list answer_row :=
  List.filter
    (fun a => bool_decide (a_group_id a = g
                           /\ counts_for db now set_id since_days user_id a))
    (quiz_answers db).

Definition total_answers db now set_id since_days user_id g : nat :=
  length (answers_of db now set_id since_days user_id g).

Definition correct_answers db now set_id since_days user_id g : nat :=
  length (List.filter a_correct
            (answers_of db now set_id since_days user_id g)).

(** A valid language pair of a group: two distinct languages that
    both have a word in the group; when two languages are requested,
    the requested two.  A request of any other length names no pair. *)
Definition has_valid_pair (languages : option (list string))
    (words : dict) : bool :=
  match languages with
  | Some [a; b] => dict_mem words a && dict_mem words b
  | Some (_ :: _) => false
  | _ =>
      existsb
        (fun a => existsb (fun b => negb (String.eqb a b)) (dict_keys words))
        (dict_keys words)
  end.

(** The [languages] argument is omitted, empty, or has two entries. *)
Definition well_formed (languages : option (list string)) : Prop :=
  match languages with
  | Some ((_ :: _) as l) => length l = 2%nat
  | _ => True
  end.

(** The distinct target-language words of the groups of the set other
    than the excluded one. *)
Definition available_words (db : t) (set_id exclude_group_id : Z)
    (target_language : string) : list string :=
  remove_dups
    (omap (fun g => dict_get (fetch_group_words db g) target_language)
       (List.filter (fun g => negb (g =? exclude_group_id))
          (fetch_set_group_ids db set_id))).

(** The database once the answer of a request is recorded: the
    progress of the logged-in user on the current question's group is
    updated with the grade. *)
Definition after_answer (db : t) (clk : App.clock) (sess : App.session)
    (form : gmap string string) (st : App.quiz_state) : t :=
  match App.current_q sess, App.logged_in (App.user_id sess) with
  | Some q, Some uid =>
      update_user_progress db (App.datetime_now clk) uid (App.cq_group_id q)
        (App.grade (App.mode st) form (App.current_q sess)).2
  | _, _ => db
  end.

(** The groups a spaced-repetition session may ask next: due for the
    user and, under [problem_only], problematic at the default
    threshold over all recorded answers of the set. *)
Definition eligible (db : t) (now set_id user_id : Z) (problem_only : bool)
    (g : Z) : Prop :=
  In g (fetch_set_group_ids db set_id)
  /\ due db now user_id g
  /\ (problem_only = true ->
      In g (get_problematic_groups db now set_id default_threshold
              None None)).

End Spec.

Import Spec.

(** * Sample databases *)

Module Sample.

Import Database.

Definition empty : t :=
  {| languages := [(1, "Swedish"); (2, "English"); (3, "Spanish")];
     vocab_items := [];
     set_groups := [];
     quiz_sessions := ∅;
     seq_quiz_sessions := 0;
     quiz_answers := [];
     user_progress := ∅ |}.

(** The lesson of the scenarios: G1 = hund/dog, G2 = katt/cat. *)
Definition pets : t :=
  {| languages := [(1, "Swedish"); (2, "English"); (3, "Spanish")];
     vocab_items :=
       [ {| v_group_id := 1; v_language_id := 1; v_word := "hund" |};
         {| v_group_id := 1; v_language_id := 2; v_word := "dog" |};
         {| v_group_id := 2; v_language_id := 1; v_word := "katt" |};
         {| v_group_id := 2; v_language_id := 2; v_word := "cat" |} ];
     set_groups := [(1, 1); (1, 2)];
     quiz_sessions := ∅;
     seq_quiz_sessions := 0;
     quiz_answers := [];
     user_progress := ∅ |}.

(** One recorded session of the sample lesson by user 7: G1 answered
    correctly twice out of three, G2 three times out of three. *)
Definition answered (group_id : Z) (correct : bool) : answer_row :=
  {| a_session_id := 1; a_group_id := group_id;
     a_from_lang := "Swedish"; a_to_lang := "English";
     a_correct := correct |}.

Definition pets_history : t :=
  {| languages := languages pets;
     vocab_items := vocab_items pets;
     set_groups := set_groups pets;
     quiz_sessions :=
       {[ 1 := {| s_set_id := 1; s_session_time := 500;
                  s_total_questions := 6; s_correct_answers := 5;
                  s_user_id := Some 7 |} ]};
     seq_quiz_sessions := 1;
     quiz_answers :=
       [ answered 1 true; answered 2 true; answered 1 false;
         answered 2 true; answered 1 true; answered 2 true ];
     user_progress := ∅ |}.

(** One session in which G1 was answered ten times, the first time
    correctly. *)
Definition one_in_ten : t :=
  {| languages := languages pets;
     vocab_items := vocab_items pets;
     set_groups := set_groups pets;
     quiz_sessions :=
       {[ 1 := {| s_set_id := 1; s_session_time := 500;
                  s_total_questions := 10; s_correct_answers := 1;
                  s_user_id := Some 7 |} ]};
     seq_quiz_sessions := 1;
     quiz_answers := answered 1 true :: replicate 9 (answered 1 false);
     user_progress := ∅ |}.

(** The float [0.1]: the double nearest to one tenth. *)
Definition tenth : Q := Eval vm_compute in Qred (round_double (1 # 10)).

(** A group whose English word is the empty string. *)
Definition blank : t :=
  {| languages := languages pets;
     vocab_items :=
       [ {| v_group_id := 1; v_language_id := 1; v_word := "hund" |};
         {| v_group_id := 1; v_language_id := 2; v_word := "" |} ];
     set_groups := [(1, 1)];
     quiz_sessions := ∅;
     seq_quiz_sessions := 0;
     quiz_answers := [];
     user_progress := ∅ |}.

(** Two groups of one lesson sharing their English word. *)
Definition twins : t :=
  {| languages := languages pets;
     vocab_items :=
       [ {| v_group_id := 1; v_language_id := 1; v_word := "hund" |};
         {| v_group_id := 1; v_language_id := 2; v_word := "dog" |};
         {| v_group_id := 2; v_language_id := 1; v_word := "jycke" |};
         {| v_group_id := 2; v_language_id := 2; v_word := "dog" |} ];
     set_groups := [(1, 1); (1, 2)];
     quiz_sessions := ∅;
     seq_quiz_sessions := 0;
     quiz_answers := [];
     user_progress := ∅ |}.

Definition hund_dog : Quiz.Question :=
  {| Quiz.set_id := 1; Quiz.group_id := 1;
     Quiz.source_language := "Swedish"; Quiz.source_word := "hund";
     Quiz.target_language := "English"; Quiz.target_word := "dog" |}.

(** A typed question whose answer is "dog". *)
Definition ask_dog : App.current_question :=
  {| App.cq_group_id := 1;
     App.src_lang := "Swedish"; App.src_word := "hund";
     App.tgt_lang := "English"; App.tgt_word := "dog";
     App.choices := None |}.

(** A question whose stored answer ends with a space. *)
Definition ask_dog_space : App.current_question :=
  {| App.cq_group_id := 1;
     App.src_lang := "Swedish"; App.src_word := "hund";
     App.tgt_lang := "English"; App.tgt_word := "dog ";
     App.choices := Some ["cat"; "dog "] |}.

(** A spaced-repetition session of user 7 on the sample lesson, asked
  for the English of "hund". *)
Definition spaced_quiz : App.quiz_state :=
{| App.qs_set_id := 1;
   App.selected_langs := Some ["Swedish"; "English"];
   App.random_dir := false;
   App.mode := "typed";
   App.spaced := true;
   App.problem_only := false;
   App.allowed_groups := Some [1; 2];
   App.score := 0;
   App.total := 0;
   App.answers := [] |}.

Definition session7 : App.session :=
{| App.quiz := Some spaced_quiz;
   App.current_q := Some ask_dog;
   App.user_id := Some 7 |}.

Definition noon : App.clock :=
{| App.datetime_now := 1000000000;
   App.ts_due := 1000;
   App.ts_record := 1000 |}.

End Sample.


(** * Invariants and further notions *)

Module Inv.

Import Database.

(** Every stored box is a Leitner level, 0 to 5. *)
Definition boxes_in_range (db : t) : Prop :=
  forall k r, user_progress db !! k = Some r -> 0 <= box r <= 5.

(** The session ids in use do not exceed the AUTOINCREMENT counter. *)
Definition sessions_numbered (db : t) : Prop :=
  (forall id s, quiz_sessions db !! id = Some s -> id <= seq_quiz_sessions db)
  /\ (forall a, In a (quiz_answers db) ->
                a_session_id a <= seq_quiz_sessions db).

(** The counters of a running quiz agree with its answer log. *)
Definition tallied (st : App.quiz_state) : Prop :=
  App.total st = Z.of_nat (length (App.answers st))
  /\ App.score st
     = Z.of_nat (length (List.filter App.al_correct (App.answers st))).

(** The row [record_quiz_answer] writes for a log entry. *)
Definition logged_row (session_id : Z) (ans : App.answer_log) : answer_row :=
  {| a_session_id := session_id;
     a_group_id := App.al_group_id ans;
     a_from_lang := App.al_from_lang ans;
     a_to_lang := App.al_to_lang ans;
     a_correct := App.al_correct ans |}.

(** The log entry of an answer to the current question. *)
Definition answer_entry (q : App.current_question) (correct : bool)
  : App.answer_log :=
  {| App.al_group_id := App.cq_group_id q;
     App.al_from_lang := App.src_lang q;
     App.al_to_lang := App.tgt_lang q;
     App.al_correct := correct |}.

(** The answer log once a request is graded. *)
Definition log_after (sess : App.session) (st : App.quiz_state)
    (correct : bool) : list App.answer_log :=
  match App.current_q sess with
  | Some q => App.answers st ++ [answer_entry q correct]
  | None => App.answers st
  end.

(** The restriction used for the next draw. *)
Definition allowed_after (db1 : t) (clk : App.clock) (set_id : Z)
    (sess : App.session) (st : App.quiz_state) : option (list Z) :=
  if App.spaced st
  then App.recompute_allowed db1 clk set_id (App.user_id sess)
         (App.problem_only st)
  else App.allowed_groups st.

(** The order of the primary key of [set_groups]. *)
Definition pk_lt (a b : Z * Z) : Prop :=
  a.1 < b.1 \/ (a.1 = b.1 /\ a.2 < b.2).

(** [set_groups] lists its rows in the order of its primary key. *)
Definition set_groups_indexed (db : t) : Prop :=
  StronglySorted pk_lt (set_groups db).

(** The uniqueness constraints of [languages] and [vocab_items] and
    the reference from an item to its language. *)
Definition catalog_wf (db : t) : Prop :=
  List.NoDup (map fst (languages db))
  /\ List.NoDup (map snd (languages db))
  /\ List.NoDup (map (fun v => (v_group_id v, v_language_id v))
                   (vocab_items db))
  /\ (forall v, In v (vocab_items db) ->
                In (v_language_id v) (map fst (languages db))).

(** The rows the join gives for one vocabulary item. *)
Definition item_rows (ls : list (Z * string)) (g : Z) (v : vocab_row)
  : list (string * string) :=
  if v_group_id v =? g
  then map (fun l => (l.2, v_word v))
           (List.filter (fun l => l.1 =? v_language_id v) ls)
  else [].

(** The language selection [quiz_start] reads from the form: absent
    without a value, the first two values otherwise. *)
Definition selection (form : Start.multidict) : option (list string) :=
  match Start.getlist form "languages" with
  | [] => None
  | langs => Some (take 2 langs)
  end.

End Inv.

Import Inv.

(** * Further sample data *)

Module Scenario.

(** A quiz on the sample lesson restricted to a group that is not in
    it: the next draw finds nothing. *)
Definition last_quiz : App.quiz_state :=
  {| App.qs_set_id := 1;
     App.selected_langs := None;
     App.random_dir := false;
     App.mode := "typed";
     App.spaced := false;
     App.problem_only := true;
     App.allowed_groups := Some [3];
     App.score := 0;
     App.total := 0;
     App.answers := [] |}.

Definition last_session : App.session :=
  {| App.quiz := Some last_quiz;
     App.current_q := Some Sample.ask_dog;
     App.user_id := Some 7 |}.

(** The sample lesson as a catalog whose counter stands at 3. *)
Definition pets_catalog : Catalog.t :=
  {| Catalog.base := Sample.pets;
     Catalog.language_code := {[ 1 := "sv"; 2 := "en"; 3 := "es" ]};
     Catalog.seq_languages := 3 |}.

(** A lesson whose only group got its English word before its Swedish
    one. *)
Definition english_first : Database.t :=
  {| Database.languages := Database.languages Sample.pets;
     Database.vocab_items :=
       [ {| Database.v_group_id := 1; Database.v_language_id := 2;
            Database.v_word := "dog" |};
         {| Database.v_group_id := 1; Database.v_language_id := 1;
            Database.v_word := "hund" |} ];
     Database.set_groups := [(1, 1)];
     Database.quiz_sessions := ∅;
     Database.seq_quiz_sessions := 0;
     Database.quiz_answers := [];
     Database.user_progress := ∅ |}.

(** The library holding the sample lesson as set 1. *)
Definition pets_library : Start.library :=
  {| Start.db := Sample.pets;
     Start.sets := [ {| Start.id := 1; Start.name := "Pets";
                        Start.description := ""; Start.import_date := 100 |} ] |}.

(** No session yet, user 7 logged in. *)
Definition fresh_session : App.session :=
  {| App.quiz := None; App.current_q := None; App.user_id := Some 7 |}.

End Scenario.
(** * Facts about the Python model *)

Section DictFacts.

Implicit Types (d : dict) (k v : string).

Lemma dict_get_In d k v : dict_get d k = Some v -> In (k, v) d.
Proof.
  induction d as [|[k' v'] d IH]; simpl; [discriminate|].
  destruct (String.eqb_spec k' k) as [->|Hne].
  - intros [= ->]. now left.
  - intros H. right. now apply IH.
Qed.

Lemma dict_mem_keys d k : dict_mem d k = true <-> In k (dict_keys d).
Proof.
  unfold dict_mem.
  induction d as [|[k' v'] d IH]; simpl; [split; [discriminate|tauto]|].
  destruct (String.eqb_spec k' k) as [->|Hne].
  - split; auto.
  - rewrite IH. split; [tauto|]. intros [?|?]; [contradiction|assumption].
Qed.

Lemma dict_mem_get d k : dict_mem d k = true <-> exists v, dict_get d k = Some v.
Proof.
  unfold dict_mem. destruct (dict_get d k) as [v|].
  - split; eauto.
  - split; [discriminate|]. intros [v [=]].
Qed.

Lemma dict_set_In d k v k' v' :
  In (k', v') (dict_set d k v) -> (k', v') = (k, v) \/ In (k', v') d.
Proof.
  induction d as [|[k0 v0] d IH]; simpl.
  - intros [H|[]]. left. congruence.
  - destruct (String.eqb_spec k0 k) as [->|Hne]; simpl.
    + intros [H|H]; [left; congruence|right; now right].
    + intros [H|H]; [right; now left|].
      destruct (IH H) as [?|?]; [now left|right; now right].
Qed.

Lemma dict_set_keys d k v :
  dict_keys (dict_set d k v) =
    if dict_mem d k then dict_keys d else dict_keys d ++ [k].
Proof.
  unfold dict_mem.
  induction d as [|[k0 v0] d IH]; simpl; [reflexivity|].
  destruct (String.eqb_spec k0 k) as [->|Hne]; simpl; [reflexivity|].
  rewrite IH. now destruct (dict_get d k).
Qed.

Lemma dict_set_keys_NoDup d k v :
  List.NoDup (dict_keys d) -> List.NoDup (dict_keys (dict_set d k v)).
Proof.
  intros Hnd. rewrite dict_set_keys.
  destruct (dict_mem d k) eqn:Hm; [assumption|].
  apply NoDup_ListNoDup, NoDup_app. repeat split.
  - now apply NoDup_ListNoDup.
  - intros x Hx Hx'. apply list_elem_of_In in Hx.
    apply list_elem_of_singleton in Hx'. subst x.
    apply dict_mem_keys in Hx. congruence.
  - apply NoDup_singleton.
Qed.

Lemma dict_of_rows_acc rows d :
  List.NoDup (dict_keys d) ->
  let d' := fold_left (fun d kv => dict_set d kv.1 kv.2) rows d in
  List.NoDup (dict_keys d')
  /\ (forall k v, In (k, v) d' -> In (k, v) d \/ In (k, v) rows)
  /\ (forall k, In k (dict_keys d) \/ In k (map fst rows) -> In k (dict_keys d')).
Proof.
  revert d. induction rows as [|[k0 v0] rows IH]; intros d Hnd; simpl.
  - repeat split; auto. intros k [?|[]]; assumption.
  - destruct (IH (dict_set d k0 v0) (dict_set_keys_NoDup d k0 v0 Hnd))
      as (Hnd' & Hin & Hkeys).
    repeat split; [assumption| |].
    + intros k v H. destruct (Hin k v H) as [H'|H']; [|right; now right].
      destruct (dict_set_In _ _ _ _ _ H') as [E|?]; [|now left].
      right. left. symmetry. exact E.
    + intros k H. apply Hkeys. rewrite dict_set_keys.
      destruct (dict_mem d k0) eqn:Hm.
      * destruct H as [?|[<-|?]]; auto. left. now apply dict_mem_keys.
      * rewrite in_app_iff. simpl. tauto.
Qed.

Lemma dict_of_rows_NoDup rows : List.NoDup (dict_keys (dict_of_rows rows)).
Proof. apply (dict_of_rows_acc rows []). constructor. Qed.

Lemma dict_of_rows_In rows k v :
  dict_get (dict_of_rows rows) k = Some v -> In (k, v) rows.
Proof.
  intros H. apply dict_get_In in H.
  destruct (dict_of_rows_acc rows [] (List.NoDup_nil _)) as (_ & Hin & _).
  destruct (Hin k v H) as [[]|?]. assumption.
Qed.

Lemma dict_of_rows_keys rows k :
  In k (map fst rows) -> dict_mem (dict_of_rows rows) k = true.
Proof.
  intros H. apply dict_mem_keys.
  destruct (dict_of_rows_acc rows [] (List.NoDup_nil _)) as (_ & _ & Hk).
  apply Hk. now right.
Qed.

End DictFacts.

Section ShuffleFacts.

Context {A : Type}.
Implicit Types (x : list A) (t : tape).

Lemma insert_replaces x i (a b : A) :
  x !! i = Some a -> <[i:=b]> x ≡ₚ b :: delete i x.
Proof.
  revert i. induction x as [|c x IH]; intros [|i]; simpl; try discriminate.
  - reflexivity.
  - intros H. rewrite (IH i H). apply perm_swap.
Qed.

Lemma swap_Permutation i j x : swap i j x ≡ₚ x.
Proof.
  unfold swap.
  destruct (x !! i) as [a|] eqn:Hi; [|reflexivity].
  destruct (x !! j) as [b|] eqn:Hj; [|reflexivity].
  destruct (decide (i = j)) as [->|Hne].
  - assert (a = b) by congruence. subst b.
    rewrite (list_insert_id x j a Hi). now rewrite (list_insert_id x j a Hi).
  - assert (Hj' : <[i:=b]> x !! j = Some b)
      by (rewrite list_lookup_insert_ne; auto).
    rewrite (insert_replaces _ j b a Hj').
    pose proof (delete_Permutation _ _ _ Hj') as H1.
    pose proof (insert_replaces x i a b Hi) as H2.
    rewrite H2 in H1 at 1. apply Permutation_cons_inv in H1.
    rewrite <- H1. symmetry. now apply delete_Permutation.
Qed.

Lemma shuffle_loop_Permutation i x t : (shuffle_loop i x t).1 ≡ₚ x.
Proof.
  revert x t. induction i as [|i IH]; intros x t; simpl; [reflexivity|].
  destruct (randbelow (S (S i)) t) as [j t'].
  rewrite IH. apply swap_Permutation.
Qed.

Lemma shuffle_Permutation x t : (shuffle x t).1 ≡ₚ x.
Proof. apply shuffle_loop_Permutation. Qed.

Lemma shuffle_In x t a : In a (shuffle x t).1 <-> In a x.
Proof.
  rewrite <- !list_elem_of_In. now rewrite shuffle_Permutation.
Qed.

Lemma shuffle_nil t : shuffle (@nil A) t = ([], t).
Proof. reflexivity. Qed.

Lemma shuffle_singleton (a : A) t : shuffle [a] t = ([a], t).
Proof. reflexivity. Qed.

End ShuffleFacts.

(** * The Leitner scheduler *)

Section Leitner.

Import Database.

Lemma round_half_even_nearest n d :
  0 < d -> 2 * Z.abs (round_half_even n d * d - n) <= d.
Proof.
  intros Hd. unfold round_half_even.
  pose proof (Z.div_mod n d ltac:(lia)) as Hdm.
  pose proof (Z.mod_pos_bound n d Hd) as Hr.
  destruct (Z.ltb_spec (2 * (n mod d)) d).
  - nia.
  - destruct (Z.ltb_spec d (2 * (n mod d))); [nia|].
    destruct (Z.even (n / d)); nia.
Qed.

(** For a box that is not negative the interval is [2 ^ box] whole
    days; for a negative one it is [1 / 2 ^ -box] of a day to the
    nearest microsecond. *)
Lemma timedelta_days_pow2_spec b :
  (0 <= b -> timedelta_days_pow2 b = 2 ^ b * US_PER_DAY)
  /\ (b < 0 ->
      2 * Z.abs (timedelta_days_pow2 b * 2 ^ (- b) - US_PER_DAY)
      <= 2 ^ (- b)).
Proof.
  unfold timedelta_days_pow2. split; intros Hb.
  - destruct (Z.leb_spec 0 b); [reflexivity|lia].
  - destruct (Z.leb_spec 0 b); [lia|].
    apply round_half_even_nearest. apply Z.pow_pos_nonneg; lia.
Qed.

Lemma update_user_progress_lookup db now u g correct :
  user_progress (update_user_progress db now u g correct) !! (u, g) =
    let b := leitner_box (user_progress db !! (u, g)) correct in
    Some {| box := b; due_date := now + timedelta_days_pow2 b |}.
Proof.
  unfold update_user_progress, leitner_box.
  destruct (user_progress db !! (u, g)) as [r|]; simpl;
    now rewrite lookup_insert_eq.
Qed.

Lemma update_user_progress_other db now u g correct u' g' :
  (u', g') <> (u, g) ->
  user_progress (update_user_progress db now u g correct) !! (u', g') =
    user_progress db !! (u', g').
Proof.
  intros Hne. unfold update_user_progress.
  destruct (user_progress db !! (u, g)) as [r|]; simpl;
    now rewrite lookup_insert_ne.
Qed.

Lemma answer_correctly_snoc db u g nows now :
  answer_correctly db u g (nows ++ [now]) =
    update_user_progress (answer_correctly db u g nows) now u g true.
Proof. unfold answer_correctly. now rewrite fold_left_app. Qed.

Lemma streak_box db u g nows :
  user_progress db !! (u, g) = None ->
  leitner_box (user_progress (answer_correctly db u g nows) !! (u, g)) true
  = Z.min (Z.of_nat (length nows) + 1) 5.
Proof.
  intros Hcold.
  induction nows as [|now nows IH] using rev_ind.
  - simpl. rewrite Hcold. reflexivity.
  - rewrite answer_correctly_snoc, update_user_progress_lookup. simpl.
    rewrite IH, length_app. simpl. lia.
Qed.

End Leitner.

(** C1.  [update_user_progress] implements the Leitner rule.  Without a
    record the box becomes 1 on a correct answer and 0 on an incorrect
    one; with a record it becomes [min (box + 1) 5] on a correct answer and
    0 on an incorrect one; the due date is the clock reading plus
    [2 ^ box] days.  After [N >= 1] consecutive correct answers from no
    record the box is [min N 5], due [2 ^ box] days after the last
    answer, and an incorrect answer always leaves box 0, due in one day. *)
Theorem update_user_progress_leitner :
  forall (db : Database.t) (u g : Z),
    (* one answer *)
    (forall now correct,
        exists b,
          Database.user_progress
            (Database.update_user_progress db now u g correct) !! (u, g)
          = Some {| Database.box := b;
                    Database.due_date := now + Database.timedelta_days_pow2 b |}
          /\ (Database.user_progress db !! (u, g) = None ->
              b = if correct then 1 else 0)
          /\ (forall r, Database.user_progress db !! (u, g) = Some r ->
              b = if correct then Z.min (Database.box r + 1) 5 else 0)
          /\ (0 <= b ->
              Database.timedelta_days_pow2 b = 2 ^ b * Database.US_PER_DAY)
          /\ (b < 0 ->
              2 * Z.abs (Database.timedelta_days_pow2 b * 2 ^ (- b)
                         - Database.US_PER_DAY) <= 2 ^ (- b)))
    (* a streak of N = length nows + 1 correct answers from no record *)
    /\ (forall nows now,
           Database.user_progress db !! (u, g) = None ->
           let N := Z.of_nat (length nows) + 1 in
           Database.user_progress
             (answer_correctly db u g (nows ++ [now])) !! (u, g)
           = Some {| Database.box := Z.min N 5;
                     Database.due_date :=
                       now + 2 ^ Z.min N 5 * Database.US_PER_DAY |})
    (* one miss *)
    /\ (forall now,
           Database.user_progress
             (Database.update_user_progress db now u g false) !! (u, g)
           = Some {| Database.box := 0;
                     Database.due_date := now + Database.US_PER_DAY |}).
Proof.
  intros db u g. split; [|split].
  - intros now correct.
    exists (leitner_box (Database.user_progress db !! (u, g)) correct).
    split; [apply update_user_progress_lookup|].
    split; [intros ->; reflexivity|].
    split; [intros r ->; reflexivity|].
    apply timedelta_days_pow2_spec.
  - intros nows now Hcold N.
    rewrite answer_correctly_snoc, update_user_progress_lookup. simpl.
    rewrite (streak_box db u g nows Hcold). subst N.
    destruct (timedelta_days_pow2_spec
                (Z.min (Z.of_nat (length nows) + 1) 5)) as [-> _];
      [reflexivity|lia].
  - intros now. rewrite update_user_progress_lookup.
    unfold leitner_box.
    destruct (Database.user_progress db !! (u, g)); reflexivity.
Qed.

(** Three correct answers from no record give box 3, due 8 days after
    the third. *)
Lemma update_user_progress_leitner_witness :
  Database.user_progress Sample.empty !! (1, 1) = None
  /\ Database.user_progress
       (answer_correctly Sample.empty 1 1 ([10; 20] ++ [30])) !! (1, 1)
     = Some {| Database.box := 3;
               Database.due_date := 30 + 8 * Database.US_PER_DAY |}.
Proof.
  split; [reflexivity|].
  apply (proj1 (proj2 (update_user_progress_leitner Sample.empty 1 1))
           [10; 20] 30).
  reflexivity.
Defined.

(** * Due groups *)

Section DueGroups.

Import Database.

Lemma filter_andb_comm {A : Type} (f g : A -> bool) (l : list A) :
  List.filter (fun a => f a && g a) l = List.filter g (List.filter f l).
Proof.
  induction l as [|a l IH]; simpl; [reflexivity|].
  destruct (f a); simpl; [destruct (g a)|]; now rewrite IH.
Qed.

Lemma filter_sublist {A : Type} (f : A -> bool) (l : list A) :
  sublist (List.filter f l) l.
Proof.
  induction l as [|a l IH]; simpl; [constructor|].
  destruct (f a); now constructor.
Qed.

Lemma filter_all {A : Type} (f : A -> bool) (l : list A) :
  (forall a, In a l -> f a = true) -> List.filter f l = l.
Proof.
  induction l as [|a l IH]; simpl; intros H; [reflexivity|].
  rewrite (H a (or_introl eq_refl)). f_equal. apply IH. auto.
Qed.

(** The WHERE clause on the progress columns decides [due]. *)
Lemma due_decided db now user g :
  match user_progress db !! (user, g) with
  | None => true
  | Some up => due_date up <=? now * 1000000
  end = true <-> due db now user g.
Proof.
  unfold due. destruct (user_progress db !! (user, g)) as [r|].
  - rewrite Z.leb_le. split.
    + intros H. right. eauto.
    + intros [[=]|(r' & [= <-] & H)]. exact H.
  - split; auto.
Qed.

Lemma get_due_groups_filter db now set user :
  get_due_groups db now set user =
    List.filter
      (fun g => match user_progress db !! (user, g) with
                | None => true
                | Some up => due_date up <=? now * 1000000
                end)
      (fetch_set_group_ids db set).
Proof.
  unfold get_due_groups, fetch_set_group_ids.
  rewrite (filter_andb_comm (fun sg => sg.1 =? set)).
  induction (List.filter (fun sg => sg.1 =? set) (set_groups db))
    as [|sg l IH]; simpl; [reflexivity|].
  destruct (match user_progress db !! (user, sg.2) with
            | Some up => due_date up <=? now * 1000000
            | None => true
            end); simpl; now rewrite IH.
Qed.

Lemma get_due_groups_In db now set user g :
  In g (get_due_groups db now set user)
  <-> In g (fetch_set_group_ids db set) /\ due db now user g.
Proof.
  rewrite get_due_groups_filter, filter_In, due_decided. reflexivity.
Qed.

End DueGroups.

(** C3.  [get_due_groups] returns exactly the groups of the set that
    have no progress record for the user or whose due date is at or
    before now, each as often and in the order the set lists it; for a
    user without any progress record it returns all groups of the set. *)
Theorem get_due_groups_exact :
  forall (db : Database.t) (now set_id user_id : Z),
    (forall g, In g (Database.get_due_groups db now set_id user_id)
               <-> In g (Database.fetch_set_group_ids db set_id)
                   /\ due db now user_id g)
    /\ sublist (Database.get_due_groups db now set_id user_id)
               (Database.fetch_set_group_ids db set_id)
    /\ ((forall g, Database.user_progress db !! (user_id, g) = None) ->
        Database.get_due_groups db now set_id user_id
        = Database.fetch_set_group_ids db set_id).
Proof.
  intros db now set user. rewrite get_due_groups_filter.
  split; [|split].
  - intros g. rewrite <- get_due_groups_filter. apply get_due_groups_In.
  - apply filter_sublist.
  - intros Hcold. apply filter_all. intros g _. now rewrite Hcold.
Qed.

(** With no progress at all, both groups of the sample lesson are due. *)
Lemma get_due_groups_exact_witness :
  Database.get_due_groups Sample.pets 1000 1 7 = [1; 2].
Proof.
  apply (proj2 (proj2 (get_due_groups_exact Sample.pets 1000 1 7))).
  intros g. reflexivity.
Defined.

(** * Index order *)

Section IndexOrder.

Import Database.

Context {A : Type} (key : A -> Z).

Lemma index_insert_Permutation (x : A) (l : list A) :
  index_insert key x l ≡ₚ x :: l.
Proof.
  induction l as [|y l IH]; simpl; [reflexivity|].
  destruct (key x <=? key y); [reflexivity|].
  rewrite IH. apply perm_swap.
Qed.

Lemma index_order_Permutation (l : list A) : index_order key l ≡ₚ l.
Proof.
  induction l as [|x l IH]; simpl; [reflexivity|].
  rewrite index_insert_Permutation. now rewrite IH.
Qed.

Lemma List_filter_Permutation (f : A -> bool) (l k : list A) :
  l ≡ₚ k -> List.filter f l ≡ₚ List.filter f k.
Proof.
  induction 1 as [|x l k _ IH|x y l|l k m _ IH1 _ IH2]; simpl.
  - reflexivity.
  - destruct (f x); [now constructor|exact IH].
  - destruct (f x), (f y); try reflexivity. apply perm_swap.
  - now rewrite IH1.
Qed.

Lemma index_order_In (x : A) (l : list A) :
  In x (index_order key l) <-> In x l.
Proof.
  rewrite <- !list_elem_of_In. now rewrite index_order_Permutation.
Qed.

Lemma index_order_NoDup (l : list A) :
  List.NoDup l -> List.NoDup (index_order key l).
Proof.
  rewrite <- !NoDup_ListNoDup. now rewrite index_order_Permutation.
Qed.

Lemma index_order_length (l : list A) :
  length (index_order key l) = length l.
Proof. now rewrite index_order_Permutation. Qed.

Lemma index_insert_sorted (x : A) (l : list A) :
  StronglySorted (fun a b => key a <= key b) l ->
  StronglySorted (fun a b => key a <= key b) (index_insert key x l).
Proof.
  induction 1 as [|y l Hl IH Hy]; simpl.
  - repeat constructor.
  - destruct (Z.leb_spec (key x) (key y)).
    + constructor; [now constructor|].
      constructor; [assumption|].
      eapply Forall_impl; [exact Hy|]. simpl. intros. lia.
    + constructor; [exact IH|].
      rewrite index_insert_Permutation. constructor; [lia|exact Hy].
Qed.

Lemma index_order_sorted (l : list A) :
  StronglySorted (fun a b => key a <= key b) (index_order key l).
Proof.
  induction l as [|x l IH]; simpl; [constructor|].
  now apply index_insert_sorted.
Qed.

End IndexOrder.

(** * Double precision *)

Section Double.

Import Database.

Lemma round_half_even_lower n d z :
  0 < d -> z * d <= n -> z <= round_half_even n d.
Proof.
  intros Hd Hz. unfold round_half_even.
  assert (z <= n / d) by (apply Z.div_le_lower_bound; lia).
  destruct (_ <? _); [lia|]. destruct (_ <? _); [lia|].
  destruct (Z.even _); lia.
Qed.

Lemma round_half_even_upper n d z :
  0 < d -> n <= z * d -> round_half_even n d <= z.
Proof.
  intros Hd Hz. unfold round_half_even.
  pose proof (Z.div_mod n d ltac:(lia)) as Hdm.
  pose proof (Z.mod_pos_bound n d Hd) as Hr.
  destruct (Z.ltb_spec (2 * (n mod d)) d); [nia|].
  destruct (Z.ltb_spec d (2 * (n mod d))); [nia|].
  destruct (Z.even (n / d)); nia.
Qed.

Lemma round_half_even_Q (x : Q) :
  (Qabs (inject_Z (round_half_even (Qnum x) (Z.pos (Qden x))) - x) <= 1 # 2)%Q.
Proof.
  destruct x as [n d].
  pose proof (round_half_even_nearest n (Z.pos d) eq_refl) as H.
  unfold Qabs, Qminus, Qplus, Qopp, Qle. simpl.
  rewrite ?Pos2Z.inj_mul. lia.
Qed.

Lemma two_power_pos z : (0 < 2 ^ z)%Q.
Proof. now apply Qpower_0_lt. Qed.

Lemma two_power_inverse z : (2 ^ (52 - z) * 2 ^ (z - 52) == 1)%Q.
Proof.
  rewrite <- Qpower_plus by discriminate.
  replace (52 - z + (z - 52)) with 0 by lia. reflexivity.
Qed.

Lemma two_power_Z z : 0 <= z -> (inject_Z (2 ^ z) == 2 ^ z)%Q.
Proof. intros. now rewrite Zpower_Qpower. Qed.

Lemma Qle_num (x : Q) (z : Z) :
  (x <= inject_Z z)%Q <-> Qnum x <= z * Z.pos (Qden x).
Proof. unfold Qle. simpl. lia. Qed.

Lemma Qge_num (x : Q) (z : Z) :
  (inject_Z z <= x)%Q <-> z * Z.pos (Qden x) <= Qnum x.
Proof. unfold Qle. simpl. lia. Qed.

Lemma Qmake_bounds (q lo hi : Q) :
  (lo * inject_Z (Z.pos (Qden q)) <= inject_Z (Qnum q) -> lo <= q)%Q
  /\ (inject_Z (Qnum q) < hi * inject_Z (Z.pos (Qden q)) -> q < hi)%Q.
Proof.
  assert (Hd : (0 < inject_Z (Z.pos (Qden q)))%Q) by reflexivity.
  assert (E : (q == inject_Z (Qnum q) / inject_Z (Z.pos (Qden q)))%Q)
    by (destruct q; apply Qmake_Qdiv).
  split; intros H; rewrite E.
  - now apply Qle_shift_div_l.
  - now apply Qlt_shift_div_r.
Qed.

(** [double_exponent] is the binary exponent. *)
Lemma double_exponent_spec (q : Q) :
  (0 < q)%Q ->
  (2 ^ double_exponent q <= q < 2 ^ (double_exponent q + 1))%Q.
Proof.
  intros Hq.
  assert (Hn : 0 < Qnum q) by (unfold Qlt in Hq; simpl in Hq; lia).
  pose proof (Z.log2_spec (Qnum q) Hn) as [Hn1 Hn2].
  pose proof (Z.log2_spec (Z.pos (Qden q)) eq_refl) as [Hd1 Hd2].
  pose proof (Z.log2_nonneg (Qnum q)) as Hln.
  pose proof (Z.log2_nonneg (Z.pos (Qden q))) as Hld.
  set (ln := Z.log2 (Qnum q)) in *. set (ld := Z.log2 (Z.pos (Qden q))) in *.
  assert (Hlow : (2 ^ (ln - ld - 1) <= q)%Q).
  { apply (proj1 (Qmake_bounds q _ 0)).
    apply (Qle_trans _ (2 ^ (ln - ld - 1) * 2 ^ (ld + 1))%Q).
    - apply Qmult_le_l; [apply two_power_pos|].
      rewrite <- two_power_Z by lia. rewrite <- Zle_Qle. lia.
    - rewrite <- Qpower_plus by discriminate.
      replace (ln - ld - 1 + (ld + 1)) with ln by lia.
      rewrite <- two_power_Z by lia. now rewrite <- Zle_Qle. }
  assert (Hhigh : (q < 2 ^ (ln - ld + 1))%Q).
  { apply (proj2 (Qmake_bounds q 0 _)).
    apply (Qlt_le_trans _ (2 ^ (ln - ld + 1) * 2 ^ ld)%Q).
    - rewrite <- Qpower_plus by discriminate.
      replace (ln - ld + 1 + ld) with (ln + 1) by lia.
      rewrite <- two_power_Z by lia. now rewrite <- Zlt_Qlt.
    - apply Qmult_le_l; [apply two_power_pos|].
      rewrite <- two_power_Z by lia. now rewrite <- Zle_Qle. }
  unfold double_exponent. fold ln ld.
  destruct (Qle_bool (2 ^ (ln - ld)) q) eqn:E.
  - apply Qle_bool_iff in E. split; assumption.
  - assert (Hlt : (q < 2 ^ (ln - ld))%Q).
    { apply Qnot_le_lt. intros H. apply Qle_bool_iff in H. congruence. }
    replace (ln - ld - 1 + 1) with (ln - ld) by lia. split; assumption.
Qed.

(** The rounded value has a mantissa of 53 bits. *)
Lemma round_double_pos_mantissa (q : Q) :
  (0 < q)%Q ->
  exists m,
    2 ^ 52 <= m <= 2 ^ 53
    /\ (round_double_pos q == inject_Z m * 2 ^ (double_exponent q - 52))%Q.
Proof.
  intros Hq. destruct (double_exponent_spec q Hq) as [Hlo Hhi].
  unfold round_double_pos. set (e := double_exponent q) in *.
  set (x := (q * 2 ^ (52 - e))%Q).
  exists (round_half_even (Qnum x) (Z.pos (Qden x))).
  split; [|reflexivity]. split.
  - apply round_half_even_lower; [reflexivity|]. apply Qge_num.
    unfold x. rewrite two_power_Z by lia.
    replace 52 with (e + (52 - e)) at 1 by lia.
    rewrite Qpower_plus by discriminate.
    apply Qmult_le_compat_r; [exact Hlo|]. apply Qlt_le_weak, two_power_pos.
  - apply round_half_even_upper; [reflexivity|]. apply Qle_num.
    unfold x. rewrite two_power_Z by lia.
    replace 53 with (e + 1 + (52 - e)) at 1 by lia.
    rewrite Qpower_plus by discriminate.
    apply Qmult_le_compat_r; [apply Qlt_le_weak, Hhi|].
    apply Qlt_le_weak, two_power_pos.
Qed.

(** It lies within half a unit in the last place of the rational. *)
Lemma round_double_pos_error (q : Q) :
  (Qabs (round_double_pos q - q) <= 2 ^ (double_exponent q - 53))%Q.
Proof.
  unfold round_double_pos.
  set (e := double_exponent q).
  set (x := (q * 2 ^ (52 - e))%Q).
  set (m := round_half_even (Qnum x) (Z.pos (Qden x))).
  assert (Hm : (Qabs (inject_Z m - x) <= 1 # 2)%Q)
    by apply round_half_even_Q.
  assert (E : (inject_Z m * 2 ^ (e - 52) - q
               == (inject_Z m - x) * 2 ^ (e - 52))%Q).
  { transitivity (inject_Z m * 2 ^ (e - 52)
                  - q * (2 ^ (52 - e) * 2 ^ (e - 52)))%Q.
    - rewrite two_power_inverse. ring.
    - unfold x. ring. }
  rewrite E, Qabs_Qmult.
  rewrite (Qabs_pos (2 ^ (e - 52))) by apply Qlt_le_weak, two_power_pos.
  apply Qle_trans with ((1 # 2) * 2 ^ (e - 52))%Q.
  - apply Qmult_le_compat_r; [exact Hm|]. apply Qlt_le_weak, two_power_pos.
  - replace (e - 52) with (e - 53 + 1) by lia.
    rewrite Qpower_plus by discriminate.
    assert (E2 : ((1 # 2) * (2 ^ (e - 53) * 2 ^ 1) == 2 ^ (e - 53))%Q)
      by (change (2 ^ 1)%Q with 2%Q; field).
    rewrite E2. apply Qle_refl.
Qed.

(** Rounding does not cross a number of the grid of the exponent. *)
Lemma round_double_pos_upper (q y : Q) (M : Z) :
  (q <= y)%Q ->
  (y * 2 ^ (52 - double_exponent q) == inject_Z M)%Q ->
  (round_double_pos q <= y)%Q.
Proof.
  intros Hq HM. unfold round_double_pos.
  set (e := double_exponent q) in *.
  set (x := (q * 2 ^ (52 - e))%Q).
  assert (Hx : (x <= inject_Z M)%Q).
  { rewrite <- HM. unfold x. apply Qmult_le_compat_r; [exact Hq|].
    apply Qlt_le_weak, two_power_pos. }
  apply Qle_num in Hx.
  apply round_half_even_upper in Hx; [|reflexivity].
  rewrite Zle_Qle in Hx.
  apply Qle_trans with (inject_Z M * 2 ^ (e - 52))%Q.
  - apply Qmult_le_compat_r; [exact Hx|]. apply Qlt_le_weak, two_power_pos.
  - rewrite <- HM, <- Qmult_assoc, two_power_inverse, Qmult_1_r.
    apply Qle_refl.
Qed.

Lemma round_double_pos_lower (q y : Q) (M : Z) :
  (y <= q)%Q ->
  (y * 2 ^ (52 - double_exponent q) == inject_Z M)%Q ->
  (y <= round_double_pos q)%Q.
Proof.
  intros Hq HM. unfold round_double_pos.
  set (e := double_exponent q) in *.
  set (x := (q * 2 ^ (52 - e))%Q).
  assert (Hx : (inject_Z M <= x)%Q).
  { rewrite <- HM. unfold x. apply Qmult_le_compat_r; [exact Hq|].
    apply Qlt_le_weak, two_power_pos. }
  apply Qge_num in Hx.
  apply round_half_even_lower in Hx; [|reflexivity].
  rewrite Zle_Qle in Hx.
  apply Qle_trans with (inject_Z M * 2 ^ (e - 52))%Q.
  - rewrite <- HM, <- Qmult_assoc, two_power_inverse, Qmult_1_r.
    apply Qle_refl.
  - apply Qmult_le_compat_r; [exact Hx|]. apply Qlt_le_weak, two_power_pos.
Qed.

Lemma double_exponent_le_0 (q : Q) :
  (q <= 1)%Q -> double_exponent q <= 0.
Proof.
  intros Hle. unfold double_exponent.
  assert (Z.log2 (Qnum q) <= Z.log2 (Z.pos (Qden q))).
  { apply Z.log2_le_mono. unfold Qle in Hle. simpl in Hle. lia. }
  destruct (Qle_bool _ _); lia.
Qed.

Lemma round_double_nonneg (q : Q) : (0 <= q)%Q -> (0 <= round_double q)%Q.
Proof.
  intros Hq. unfold round_double.
  destruct (Qnum q) eqn:E.
  - apply Qle_refl.
  - apply (round_double_pos_lower q 0 0); [exact Hq|]. now rewrite Qmult_0_l.
  - exfalso. unfold Qle in Hq. simpl in Hq. lia.
Qed.

Lemma round_double_le_1 (q : Q) : (q <= 1)%Q -> (round_double q <= 1)%Q.
Proof.
  intros Hq. unfold round_double.
  destruct (Qnum q) eqn:E.
  - discriminate.
  - pose proof (double_exponent_le_0 q Hq) as He.
    apply (round_double_pos_upper q 1 (2 ^ (52 - double_exponent q)));
      [exact Hq|].
    rewrite Qmult_1_l, Zpower_Qpower by lia. reflexivity.
  - apply Qle_trans with 0%Q; [|discriminate].
    apply (Qopp_le_compat 0).
    apply (round_double_pos_lower (- q) 0 0); [|now rewrite Qmult_0_l].
    unfold Qle, Qopp. simpl. lia.
Qed.

(** A number between 0 and 1 and its double differ by [2^-53] at most. *)
Lemma round_double_near (q : Q) :
  (0 <= q <= 1)%Q -> (Qabs (round_double q - q) <= 2 ^ (-53))%Q.
Proof.
  intros [H0 H1]. unfold round_double.
  destruct (Qnum q) eqn:E.
  - assert (q == 0)%Q as -> by (unfold Qeq; simpl; lia). discriminate.
  - apply Qle_trans with (2 ^ (double_exponent q - 53))%Q;
      [apply round_double_pos_error|].
    apply Qpower_le_compat_l; [|discriminate].
    pose proof (double_exponent_le_0 q H1). lia.
  - exfalso. unfold Qle in H0. simpl in H0. lia.
Qed.

(** The double quotient of two counts. *)
Lemma ratio_bounds (c n : nat) :
  (c <= n)%nat ->
  (0 <= ratio (Z.of_nat c) (Z.of_nat n) <= 1)%Q
  /\ (Qabs (ratio (Z.of_nat c) (Z.of_nat n)
            - inject_Z (Z.of_nat c) / inject_Z (Z.of_nat n)) <= 2 ^ (-53))%Q.
Proof.
  intros Hcn.
  assert (Hq : (0 <= inject_Z (Z.of_nat c) / inject_Z (Z.of_nat n) <= 1)%Q).
  { destruct n as [|n].
    - assert (c = 0%nat) as -> by lia. split; [apply Qle_refl|discriminate].
    - assert (0 < inject_Z (Z.of_nat (S n)))%Q as Hpos
        by (change 0%Q with (inject_Z 0); rewrite <- Zlt_Qlt; lia).
      split.
      + apply Qle_shift_div_l; [exact Hpos|]. rewrite Qmult_0_l.
        change 0%Q with (inject_Z 0). rewrite <- Zle_Qle. lia.
      + apply Qle_shift_div_r; [exact Hpos|]. rewrite Qmult_1_l.
        rewrite <- Zle_Qle. lia. }
  unfold ratio. split; [split|].
  - apply round_double_nonneg, Hq.
  - apply round_double_le_1, Hq.
  - apply round_double_near, Hq.
Qed.

End Double.

(** * Problematic groups *)

Section Problematic.

Import Database.

Variables (db : t) (now set_id : Z) (since_days user_id : option Z).

Let matches (a : answer_row) : bool :=
  match quiz_sessions db !! a_session_id a with
  | Some s => session_where now set_id since_days user_id s
  | None => false
  end.

Lemma session_where_spec s :
  session_where now set_id since_days user_id s = true
  <-> s_set_id s = set_id /\ in_window now since_days s /\ by_user user_id s.
Proof.
  unfold session_where, in_window, by_user, sqlite_datetime_minus_days.
  rewrite !andb_true_iff, Z.eqb_eq.
  assert (Hw : match since_days with
               | Some n =>
                   match
                     (if (0 <=? n) && (0 <=? now - n * 86400)
                      then Some (now - n * 86400) else None)
                   with
                   | Some cutoff => cutoff <=? s_session_time s
                   | None => false
                   end
               | None => true
               end = true
               <-> match since_days with
                   | Some n => 0 <= n /\ 0 <= now - n * 86400
                               /\ now - n * 86400 <= s_session_time s
                   | None => True
                   end).
  { destruct since_days as [n|]; [|tauto].
    destruct (Z.leb_spec 0 n); simpl; [|split; [discriminate|lia]].
    destruct (Z.leb_spec 0 (now - n * 86400)); simpl;
      [|split; [discriminate|lia]].
    rewrite Z.leb_le. tauto. }
  assert (Hu : match user_id with
               | Some u => match s_user_id s with
                           | Some u' => u' =? u
                           | None => false
                           end
               | None => true
               end = true
               <-> match user_id with
                   | Some u => s_user_id s = Some u
                   | None => True
                   end).
  { destruct user_id as [u|]; [|tauto].
    destruct (s_user_id s) as [u'|]; [|split; discriminate].
    rewrite Z.eqb_eq. split; congruence. }
  tauto.
Qed.

Lemma matches_spec a :
  matches a = true <-> counts_for db now set_id since_days user_id a.
Proof.
  unfold matches, counts_for.
  destruct (quiz_sessions db !! a_session_id a) as [s|].
  - rewrite session_where_spec. split.
    + intros H. exists s. tauto.
    + intros (s' & [= <-] & H). tauto.
  - split; [discriminate|]. intros (s & [=] & _).
Qed.

Lemma group_rows_answers_of g :
  List.filter (fun a => a_group_id a =? g)
    (joined_answers db now set_id since_days user_id)
  = answers_of db now set_id since_days user_id g.
Proof.
  unfold joined_answers, answers_of. fold matches.
  rewrite <- filter_andb_comm. apply filter_ext. intros a.
  apply eq_true_iff_eq.
  rewrite andb_true_iff, bool_decide_eq_true, matches_spec, Z.eqb_eq.
  tauto.
Qed.

Lemma sum_indicator {A : Type} (f : A -> bool) (l : list A) :
  fold_right Z.add 0 (map (fun a => if f a then 1 else 0) l)
  = Z.of_nat (length (List.filter f l)).
Proof.
  induction l as [|a l IH]; simpl; [reflexivity|].
  rewrite IH. destruct (f a); simpl length; lia.
Qed.

Lemma total_count_spec g :
  total_count (joined_answers db now set_id since_days user_id) g
  = Z.of_nat (total_answers db now set_id since_days user_id g).
Proof.
  unfold total_count, total_answers. now rewrite group_rows_answers_of.
Qed.

Lemma correct_count_spec g :
  correct_count (joined_answers db now set_id since_days user_id) g
  = Z.of_nat (correct_answers db now set_id since_days user_id g).
Proof.
  unfold correct_count, correct_answers.
  now rewrite group_rows_answers_of, sum_indicator.
Qed.

(** A group is one of the GROUP BY keys iff it has an answer. *)
Lemma grouped_iff_answered g :
  In g (map a_group_id (joined_answers db now set_id since_days user_id))
  <-> (0 < total_answers db now set_id since_days user_id g)%nat.
Proof.
  unfold total_answers. rewrite <- group_rows_answers_of.
  rewrite in_map_iff. split.
  - intros (a & <- & Ha).
    assert (In a (List.filter (fun a' => a_group_id a' =? a_group_id a)
                    (joined_answers db now set_id since_days user_id)))
      as Hin by (apply filter_In; split; [assumption|apply Z.eqb_refl]).
    destruct (List.filter _ _); [destruct Hin|simpl; lia].
  - intros Hlen.
    destruct (List.filter (fun a => a_group_id a =? g)
                (joined_answers db now set_id since_days user_id))
      as [|a l] eqn:E; [simpl in Hlen; lia|].
    assert (In a (a :: l)) as Hin by now left.
    rewrite <- E in Hin. apply filter_In in Hin as [Hin Hg].
    exists a. split; [now apply Z.eqb_eq|assumption].
Qed.

Lemma having_below_spec c n threshold :
  having_below c n threshold = true <-> (ratio c n < threshold)%Q.
Proof.
  unfold having_below. rewrite Qlt_alt.
  destruct (ratio c n ?= threshold)%Q; split; congruence.
Qed.

End Problematic.

(** C4 (amended).  [get_problematic_groups] returns, each once, exactly
    the groups that have at least one answer counting for the set and
    the optional recency and user filters and whose ratio of correct to
    total such answers, taken as the double quotient of the two counts,
    is strictly below the threshold; a group without such an answer is
    never returned. *)
Theorem get_problematic_groups_exact :
  forall (db : Database.t) (now set_id : Z) (threshold : Q)
         (since_days user_id : option Z),
    let result :=
      Database.get_problematic_groups db now set_id threshold
        since_days user_id in
    let total := total_answers db now set_id since_days user_id in
    let correct := correct_answers db now set_id since_days user_id in
    (forall g,
        In g result
        <-> (0 < total g)%nat
            /\ (Database.ratio (Z.of_nat (correct g)) (Z.of_nat (total g))
                < threshold)%Q)
    /\ List.NoDup result
    /\ (forall g, total g = 0%nat -> ~ In g result).
Proof.
  intros db now set th since user result total correct.
  assert (Hin : forall g,
             In g result
             <-> (0 < total g)%nat
                 /\ (Database.ratio (Z.of_nat (correct g))
                       (Z.of_nat (total g)) < th)%Q).
  { intros g. unfold result, Database.get_problematic_groups.
    rewrite filter_In, having_below_spec, correct_count_spec, total_count_spec.
    rewrite index_order_In.
    rewrite <- list_elem_of_In, elem_of_remove_dups, list_elem_of_In.
    now rewrite grouped_iff_answered. }
  split; [exact Hin|split].
  - unfold result, Database.get_problematic_groups.
    apply List.NoDup_filter, index_order_NoDup, NoDup_ListNoDup,
      NoDup_remove_dups.
  - intros g H0 Hg. apply Hin in Hg as [Hpos _]. lia.
Qed.

(** Threshold 0.7 on the sample history: G1 (2 of 3) is problematic,
    G2 (3 of 3) is not, and a group without answers is not returned. *)
Lemma get_problematic_groups_exact_witness :
  Database.get_problematic_groups Sample.pets_history 1000 1
    Database.default_threshold None None = [1]
  /\ ~ In 3 (Database.get_problematic_groups Sample.pets_history 1000 1
               Database.default_threshold None None).
Proof.
  split; [reflexivity|].
  apply (proj2 (proj2 (get_problematic_groups_exact Sample.pets_history 1000 1
                         Database.default_threshold None None))).
  reflexivity.
Defined.

(** C4 as stated fails for the ratio taken exactly.  With one correct
    answer out of ten, the ratio 1/10 is strictly below the threshold
    0.1, the double of that literal, which lies a little above one
    tenth; the group is not returned, because the double quotient of 1
    by 10 is that very double. *)
Lemma get_problematic_groups_rounds_quotient :
  total_answers Sample.one_in_ten 1000 1 None None 1 = 10%nat
  /\ correct_answers Sample.one_in_ten 1000 1 None None 1 = 1%nat
  /\ (1 # 10 < Sample.tenth)%Q
  /\ Database.get_problematic_groups Sample.one_in_ten 1000 1 Sample.tenth
       None None = [].
Proof. repeat split. Qed.

(** * The question selector *)

Section Selector.

Import Database.

Lemma ordered_pairs_In langs a b :
  In (a, b) (ordered_pairs langs) ->
  exists i j, i <> j /\ langs !! i = Some a /\ langs !! j = Some b.
Proof.
  unfold ordered_pairs. rewrite in_flat_map. intros (i & _ & Hi).
  apply in_flat_map in Hi as (j & _ & Hj).
  destruct (Nat.eqb_spec i j) as [|Hne]; [destruct Hj|].
  destruct (langs !! i) as [a'|] eqn:Ei; [|destruct Hj].
  destruct (langs !! j) as [b'|] eqn:Ej; [|destruct Hj].
  destruct Hj as [[= <- <-]|[]]. eauto.
Qed.

Lemma ordered_pairs_distinct langs a b :
  List.NoDup langs -> In (a, b) (ordered_pairs langs) ->
  a <> b /\ In a langs /\ In b langs.
Proof.
  intros Hnd Hin. apply NoDup_ListNoDup in Hnd.
  destruct (ordered_pairs_In _ _ _ Hin) as (i & j & Hne & Hi & Hj).
  split; [|split].
  - intros <-. apply Hne. eapply NoDup_lookup; eauto.
  - apply list_elem_of_In. eapply list_elem_of_lookup_2; eauto.
  - apply list_elem_of_In. eapply list_elem_of_lookup_2; eauto.
Qed.

Section OneGroup.

Variables (languages : option (list string)) (random_direction : bool)
          (group_id : Z) (words : dict).

Lemma pick_pair_sound options rnd g sl sw tl tw rnd' :
  pick_pair languages random_direction group_id words options rnd
  = (Some (Ret (g, sl, sw, tl, tw)), rnd') ->
  g = group_id
  /\ dict_get words sl = Some sw /\ dict_get words tl = Some tw
  /\ (In (sl, tl) options
      \/ (random_direction = true /\ truthy languages = true
          /\ In (tl, sl) options)).
Proof.
  induction options as [|[src tgt] rest IH]; simpl; [discriminate|].
  destruct (dict_mem words src && dict_mem words tgt) eqn:Hm.
  - destruct (random_direction && truthy languages) eqn:Hflip.
    + apply andb_true_iff in Hflip as [Hr Ht].
      destruct (choice_bool rnd) as [[|] rnd1].
      * destruct (dict_get words tgt) as [w1|] eqn:E1; [|discriminate].
        destruct (dict_get words src) as [w2|] eqn:E2; [|discriminate].
        intros [= <- <- <- <- <- <-]. intuition.
      * destruct (dict_get words src) as [w1|] eqn:E1; [|discriminate].
        destruct (dict_get words tgt) as [w2|] eqn:E2; [|discriminate].
        intros [= <- <- <- <- <- <-]. intuition.
    + destruct (dict_get words src) as [w1|] eqn:E1; [|discriminate].
      destruct (dict_get words tgt) as [w2|] eqn:E2; [|discriminate].
      intros [= <- <- <- <- <- <-]. intuition.
  - intros H. destruct (IH H) as (? & ? & ? & [?|(? & ? & ?)]);
      intuition.
Qed.

(** [words[src]] and [words[tgt]] are guarded by the membership
    test: the loop never raises. *)
Lemma pick_pair_no_raise options rnd e rnd' :
  pick_pair languages random_direction group_id words options rnd
  <> (Some (Raise e), rnd').
Proof.
  induction options as [|[src tgt] rest IH]; simpl; [discriminate|].
  destruct (dict_mem words src && dict_mem words tgt) eqn:Hm; [|exact IH].
  apply andb_true_iff in Hm as [Hs Ht].
  apply dict_mem_get in Hs as [ws Hs]. apply dict_mem_get in Ht as [wt Ht].
  destruct (random_direction && truthy languages).
  - destruct (choice_bool rnd) as [[|] rnd1]; rewrite Hs, Ht; discriminate.
  - rewrite Hs, Ht. discriminate.
Qed.

Lemma pick_pair_none options rnd rnd' :
  pick_pair languages random_direction group_id words options rnd
  = (None, rnd') ->
  forall src tgt, In (src, tgt) options ->
                  dict_mem words src && dict_mem words tgt = false.
Proof.
  induction options as [|[src tgt] rest IH]; simpl; [intros _ ? ? []|].
  destruct (dict_mem words src && dict_mem words tgt) eqn:Hm.
  - destruct (random_direction && truthy languages).
    + destruct (choice_bool rnd) as [[|] rnd1];
        destruct (dict_get words tgt), (dict_get words src); discriminate.
    + destruct (dict_get words tgt), (dict_get words src); discriminate.
  - intros H s t' [[= <- <-]|Hin]; [assumption|]. now apply (IH H).
Qed.

End OneGroup.

(** The exception of the "candidate language pairs" block. *)
Lemma candidate_pairs_throw languages words e :
  candidate_pairs languages words = Throw e
  <-> e = ValueError /\ ~ well_formed languages.
Proof.
  unfold candidate_pairs, well_formed.
  destruct languages as [[|l1 [|l2 [|l3 ls]]]|]; simpl.
  - destruct (_ <? _)%nat; split; [discriminate|tauto|discriminate|tauto].
  - split; [intros [= <-]; split; [reflexivity|lia]|intros [-> _]; reflexivity].
  - destruct (negb _ || negb _); split;
      try discriminate; intros [_ H]; exfalso; apply H; reflexivity.
  - split; [intros [= <-]; split; [reflexivity|lia]|intros [-> _]; reflexivity].
  - destruct (_ <? _)%nat; split; [discriminate|tauto|discriminate|tauto].
Qed.

(** The pair test without a language request: at least two
    populated languages. *)
Lemma has_valid_pair_unrequested languages words :
  truthy languages = false -> List.NoDup (dict_keys words) ->
  has_valid_pair languages words = negb (length (dict_keys words) <? 2)%nat.
Proof.
  intros Hf Hnd.
  assert (has_valid_pair languages words
          = existsb (fun a => existsb (fun b => negb (String.eqb a b))
                                (dict_keys words)) (dict_keys words)) as ->
    by (destruct languages as [[|? ?]|]; [reflexivity|discriminate|reflexivity]).
  destruct (dict_keys words) as [|a [|b ks]] eqn:E; [reflexivity| |].
  - simpl. now rewrite String.eqb_refl.
  - assert (a <> b) as Hab.
    { inversion Hnd as [|? ? Hnotin _]; subst. intros ->.
      apply Hnotin. now left. }
    apply String.eqb_neq in Hab.
    simpl. rewrite String.eqb_refl, Hab. reflexivity.
Qed.

Section Scan.

Variables (db : t) (languages : option (list string))
          (random_direction : bool).

Lemma scan_groups_sound group_ids rnd g sl sw tl tw rnd' :
  scan_groups db languages random_direction group_ids rnd
  = (Ret (Some (g, sl, sw, tl, tw)), rnd') ->
  In g group_ids
  /\ dict_get (fetch_group_words db g) sl = Some sw
  /\ dict_get (fetch_group_words db g) tl = Some tw
  /\ exists options,
      candidate_pairs languages (fetch_group_words db g) = Options options
      /\ (In (sl, tl) options
          \/ (random_direction = true /\ truthy languages = true
              /\ In (tl, sl) options)).
Proof.
  revert rnd. induction group_ids as [|gid rest IH]; intros rnd; simpl;
    [discriminate|].
  assert (Hrest : forall rnd0,
             scan_groups db languages random_direction rest rnd0
             = (Ret (Some (g, sl, sw, tl, tw)), rnd') ->
             (gid = g \/ In g rest)
             /\ dict_get (fetch_group_words db g) sl = Some sw
             /\ dict_get (fetch_group_words db g) tl = Some tw
             /\ exists options,
                 candidate_pairs languages (fetch_group_words db g)
                 = Options options
                 /\ (In (sl, tl) options
                     \/ (random_direction = true /\ truthy languages = true
                         /\ In (tl, sl) options))).
  { intros rnd0 H. destruct (IH rnd0 H) as (? & ? & ? & ?). auto. }
  destruct (dict_is_empty (fetch_group_words db gid)); [apply Hrest|].
  destruct (candidate_pairs languages (fetch_group_words db gid))
    as [| e |options] eqn:Ec; [apply Hrest|discriminate|].
  destruct (shuffle options rnd) as [shuffled rnd1] eqn:Es.
  destruct (pick_pair languages random_direction gid
              (fetch_group_words db gid) shuffled rnd1)
    as [[[r|e]|] rnd2] eqn:Ep; [| discriminate | apply Hrest].
  intros [= -> ->].
  apply pick_pair_sound in Ep as (-> & Hs & Ht & Hopt).
  split; [now left|]. split; [assumption|]. split; [assumption|].
  exists options. split; [assumption|].
  assert (forall p, In p shuffled <-> In p options) as Hsh
    by (intros p; rewrite <- (shuffle_In options rnd), Es; reflexivity).
  rewrite <- !Hsh. exact Hopt.
Qed.

Lemma scan_groups_raise group_ids rnd e rnd' :
  scan_groups db languages random_direction group_ids rnd = (Raise e, rnd') ->
  e = ValueError /\ ~ well_formed languages
  /\ exists g, In g group_ids /\ fetch_group_words db g <> [].
Proof.
  revert rnd. induction group_ids as [|gid rest IH]; intros rnd; simpl;
    [discriminate|].
  assert (Hrest : forall rnd0,
             scan_groups db languages random_direction rest rnd0
             = (Raise e, rnd') ->
             e = ValueError /\ ~ well_formed languages
             /\ exists g, (gid = g \/ In g rest)
                          /\ fetch_group_words db g <> []).
  { intros rnd0 H. destruct (IH rnd0 H) as (? & ? & g & ? & ?). eauto 6. }
  destruct (fetch_group_words db gid) as [|kv d] eqn:Ew; [apply Hrest|].
  simpl dict_is_empty. cbv iota.
  destruct (candidate_pairs languages (kv :: d)) as [| e' |options] eqn:Ec;
    [apply Hrest| |].
  - intros [= -> ->]. apply candidate_pairs_throw in Ec as [-> Hwf].
    split; [reflexivity|]. split; [assumption|].
    exists gid. split; [now left|]. rewrite Ew. discriminate.
  - destruct (shuffle options rnd) as [shuffled rnd1].
    destruct (pick_pair languages random_direction gid (kv :: d)
                shuffled rnd1) as [[[r|e']|] rnd2] eqn:Ep;
      [discriminate| |apply Hrest].
    exfalso. exact (pick_pair_no_raise _ _ _ _ _ _ _ _ Ep).
Qed.

(** A request that is not well formed is rejected at the first
    candidate that has words, and goes unnoticed without one. *)
Lemma scan_groups_malformed group_ids rnd :
  ~ well_formed languages ->
  scan_groups db languages random_direction group_ids rnd
  = (if existsb (fun g => negb (dict_is_empty (fetch_group_words db g)))
          group_ids
     then Raise ValueError else Ret None, rnd).
Proof.
  intros Hwf. induction group_ids as [|gid rest IH]; simpl; [reflexivity|].
  destruct (dict_is_empty (fetch_group_words db gid)); simpl; [exact IH|].
  destruct (candidate_pairs languages (fetch_group_words db gid))
    as [| e |options] eqn:Ec.
  - exfalso. unfold candidate_pairs, well_formed in *.
    destruct languages as [[|l1 [|l2 [|l3 ls]]]|]; simpl in *;
      try discriminate; try (apply Hwf; exact I);
      apply Hwf; reflexivity.
  - apply candidate_pairs_throw in Ec as [-> _]. reflexivity.
  - exfalso. unfold candidate_pairs, well_formed in *.
    destruct languages as [[|l1 [|l2 [|l3 ls]]]|]; simpl in *;
      try discriminate; try (apply Hwf; exact I);
      apply Hwf; reflexivity.
Qed.

(** Without a valid pair in any candidate the scan falls through. *)
Lemma scan_groups_none group_ids rnd :
  well_formed languages ->
  (forall g, In g group_ids ->
             has_valid_pair languages (fetch_group_words db g) = false) ->
  scan_groups db languages random_direction group_ids rnd = (Ret None, rnd).
Proof.
  intros Hwf. induction group_ids as [|gid rest IH]; simpl; intros Hnone;
    [reflexivity|].
  assert (IH' := IH (fun g Hg => Hnone g (or_intror Hg))).
  destruct (dict_is_empty (fetch_group_words db gid)); [exact IH'|].
  assert (candidate_pairs languages (fetch_group_words db gid) = Continue)
    as ->; [|exact IH'].
  pose proof (Hnone gid (or_introl eq_refl)) as Hv.
  destruct (truthy languages) eqn:Ht.
  - unfold candidate_pairs, well_formed, has_valid_pair in *.
    destruct languages as [[|l1 [|l2 [|l3 ls]]]|]; simpl in *;
      try discriminate.
    apply andb_false_iff in Hv.
    destruct (dict_mem _ l1), (dict_mem _ l2); simpl; try reflexivity;
      destruct Hv; discriminate.
  - rewrite (has_valid_pair_unrequested _ _ Ht) in Hv
      by apply dict_of_rows_NoDup.
    apply negb_false_iff in Hv.
    unfold candidate_pairs.
    destruct languages as [[|? ?]|]; try discriminate; now rewrite Hv.
Qed.

(** What the candidate block leaves for the shuffle is not empty and
    holds only pairs of languages present in the group. *)
Lemma candidate_pairs_options words options :
  candidate_pairs languages words = Options options ->
  options <> []
  /\ forall src tgt, In (src, tgt) options ->
                     dict_mem words src && dict_mem words tgt = true.
Proof.
  unfold candidate_pairs.
  assert (Hfree : (if (length (dict_keys words) <? 2)%nat then Continue
                   else Options (ordered_pairs (dict_keys words)))
                  = Options options ->
                  options <> []
                  /\ forall src tgt, In (src, tgt) options ->
                       dict_mem words src && dict_mem words tgt = true).
  { destruct (Nat.ltb_spec (length (dict_keys words)) 2) as [|Hlen];
      [discriminate|]. intros [= <-]. split.
    - destruct (dict_keys words) as [|a [|b ks]]; simpl in Hlen; try lia.
      discriminate.
    - intros src tgt Hin.
      destruct (ordered_pairs_In _ _ _ Hin) as (i & j & _ & Hi & Hj).
      apply andb_true_iff. split; apply dict_mem_keys, list_elem_of_In;
        eapply list_elem_of_lookup_2; eauto. }
  destruct languages as [[|a [|b [|c ls]]]|]; try discriminate; try exact Hfree.
  destruct (dict_mem words a) eqn:Ha, (dict_mem words b) eqn:Hb;
    try discriminate.
  intros [= <-]. split; [discriminate|].
  intros src tgt [[= <- <-]|[]]. now rewrite Ha, Hb.
Qed.

Lemma candidate_pairs_continue words :
  List.NoDup (dict_keys words) ->
  candidate_pairs languages words = Continue ->
  has_valid_pair languages words = false.
Proof.
  intros Hnd. destruct (truthy languages) eqn:Ht.
  - unfold candidate_pairs, has_valid_pair.
    destruct languages as [[|a [|b [|c ls]]]|]; try discriminate;
      try reflexivity.
    destruct (dict_mem words a), (dict_mem words b); simpl;
      try discriminate; reflexivity.
  - rewrite (has_valid_pair_unrequested _ _ Ht Hnd). unfold candidate_pairs.
    destruct languages as [[|? ?]|]; try discriminate;
      destruct (length (dict_keys words) <? 2)%nat; try discriminate;
      reflexivity.
Qed.

Lemma has_valid_pair_empty : has_valid_pair languages [] = false.
Proof.
  unfold has_valid_pair.
  destruct languages as [[|a [|b [|c ls]]]|]; reflexivity.
Qed.

(** A candidate with a valid pair makes the scan return a question. *)
Lemma scan_groups_some group_ids rnd :
  well_formed languages ->
  (exists g, In g group_ids
             /\ has_valid_pair languages (fetch_group_words db g) = true) ->
  exists r rnd',
    scan_groups db languages random_direction group_ids rnd
    = (Ret (Some r), rnd').
Proof.
  intros Hwf. revert rnd.
  induction group_ids as [|gid rest IH]; intros rnd (g & Hg & Hv);
    [destruct Hg|]. simpl.
  assert (Hrest : has_valid_pair languages (fetch_group_words db gid) = false ->
                  forall rnd0, exists r rnd',
                    scan_groups db languages random_direction rest rnd0
                    = (Ret (Some r), rnd')).
  { intros Hno rnd0. apply IH. exists g. split; [|exact Hv].
    destruct Hg as [<-|?]; [congruence|assumption]. }
  pose proof (dict_of_rows_NoDup (group_rows db gid)) as Hnd.
  fold (fetch_group_words db gid) in Hnd.
  destruct (fetch_group_words db gid) as [|kv d] eqn:Ew;
    [apply Hrest, has_valid_pair_empty|].
  simpl dict_is_empty. cbv iota.
  destruct (candidate_pairs languages (kv :: d)) as [| e |options] eqn:Ec.
  - apply Hrest. now apply candidate_pairs_continue.
  - apply candidate_pairs_throw in Ec as [_ Hbad]. contradiction.
  - apply candidate_pairs_options in Ec as [Hne Hall].
    destruct (shuffle options rnd) as [shuffled rnd1] eqn:Es.
    assert (Hsh : forall p, In p shuffled <-> In p options)
      by (intros p; rewrite <- (shuffle_In options rnd), Es; reflexivity).
    destruct (pick_pair languages random_direction gid (kv :: d) shuffled rnd1)
      as [[[r|e]|] rnd2] eqn:Ep.
    + eauto.
    + exfalso. exact (pick_pair_no_raise _ _ _ _ _ _ _ _ Ep).
    + exfalso. destruct shuffled as [|[src tgt] sh].
      * destruct options as [|p ps]; [now apply Hne|].
        apply (proj2 (Hsh p)). now left.
      * pose proof (pick_pair_none _ _ _ _ _ _ _ Ep src tgt
                      (or_introl eq_refl)) as Hno.
        rewrite (Hall src tgt) in Hno; [discriminate|].
        apply Hsh. now left.
Qed.

End Scan.

End Selector.

Section Select.

Import Database.

Lemma int_mem_In g l : int_mem g l = true <-> In g l.
Proof.
  unfold int_mem. rewrite existsb_exists. split.
  - intros (x & Hx & E). apply Z.eqb_eq in E. now subst.
  - intros H. exists g. split; [assumption|apply Z.eqb_refl].
Qed.

Lemma candidate_pool_In db set_id allowed g :
  In g (candidate_pool db set_id allowed)
  <-> In g (fetch_set_group_ids db set_id)
      /\ (forall a, allowed = Some a -> In g a).
Proof.
  unfold candidate_pool. destruct allowed as [a|].
  - rewrite filter_In, int_mem_In. split.
    + intros [? ?]. split; [assumption|]. now intros ? [= <-].
    + intros [? H]. auto.
  - split; [|tauto]. intros ?. split; [assumption|discriminate].
Qed.

Lemma not_well_formed languages :
  ~ well_formed languages
  <-> exists l, languages = Some l /\ l <> [] /\ length l <> 2%nat.
Proof.
  unfold well_formed. destruct languages as [[|l1 ls]|].
  - split; [tauto|]. intros (l & [= <-] & H & _) _. now apply H.
  - split.
    + intros H. exists (l1 :: ls). auto.
    + intros (l & [= <-] & _ & H). exact H.
  - split; [tauto|]. intros (l & [=] & _).
Qed.

Variables (db : t) (set_id : Z) (languages : option (list string))
          (random_direction : bool) (allowed : option (list Z)).

(** The selector is the scan of some ordering of a pool that is not
    empty, and [None] on an empty pool. *)
Lemma fetch_random_scan rnd :
  (candidate_pool db set_id allowed = []
   /\ fetch_random_group_and_direction db set_id languages random_direction
        allowed rnd = (Ret None, rnd))
  \/ exists shuffled rnd1,
      (forall g, In g shuffled <-> In g (candidate_pool db set_id allowed))
      /\ fetch_random_group_and_direction db set_id languages
           random_direction allowed rnd
         = scan_groups db languages random_direction shuffled rnd1.
Proof.
  unfold fetch_random_group_and_direction.
  destruct (candidate_pool db set_id allowed) as [|g0 pool] eqn:E;
    [left; auto|right].
  destruct (shuffle (g0 :: pool) rnd) as [shuffled rnd1] eqn:Es.
  exists shuffled, rnd1. split; [|reflexivity].
  intros g. rewrite <- (shuffle_In (g0 :: pool) rnd), Es. reflexivity.
Qed.

Lemma generate_question_fetch rnd :
  (Quiz.generate_question db set_id languages random_direction allowed rnd).1
  = match (fetch_random_group_and_direction db set_id languages
             random_direction allowed rnd).1 with
    | Raise e => Raise e
    | Ret None => Ret None
    | Ret (Some (group_id, src_lang, src_word, tgt_lang, tgt_word)) =>
        Ret (Some {| Quiz.set_id := set_id;
                     Quiz.group_id := group_id;
                     Quiz.source_language := src_lang;
                     Quiz.source_word := src_word;
                     Quiz.target_language := tgt_lang;
                     Quiz.target_word := tgt_word |})
    end.
Proof.
  unfold Quiz.generate_question.
  destruct (fetch_random_group_and_direction db set_id languages
              random_direction allowed rnd)
    as [[[[[[[g sl] sw] tl] tw]|]|e] rnd1]; reflexivity.
Qed.

Lemma fetch_random_sound rnd g sl sw tl tw :
  (fetch_random_group_and_direction db set_id languages random_direction
     allowed rnd).1 = Ret (Some (g, sl, sw, tl, tw)) ->
  In g (candidate_pool db set_id allowed)
  /\ dict_get (fetch_group_words db g) sl = Some sw
  /\ dict_get (fetch_group_words db g) tl = Some tw
  /\ exists options,
      candidate_pairs languages (fetch_group_words db g) = Options options
      /\ (In (sl, tl) options
          \/ (random_direction = true /\ truthy languages = true
              /\ In (tl, sl) options)).
Proof.
  destruct (fetch_random_scan rnd) as [[_ ->]|(sh & rnd1 & Hsh & ->)];
    [discriminate|].
  destruct (scan_groups db languages random_direction sh rnd1)
    as [out rnd2] eqn:Es. simpl. intros ->.
  apply scan_groups_sound in Es as (Hin & ? & ? & ?).
  apply Hsh in Hin. auto.
Qed.

Lemma fetch_random_raise rnd e :
  (fetch_random_group_and_direction db set_id languages random_direction
     allowed rnd).1 = Raise e ->
  e = ValueError /\ ~ well_formed languages
  /\ exists g, In g (candidate_pool db set_id allowed)
               /\ fetch_group_words db g <> [].
Proof.
  destruct (fetch_random_scan rnd) as [[_ ->]|(sh & rnd1 & Hsh & ->)];
    [discriminate|].
  destruct (scan_groups db languages random_direction sh rnd1)
    as [out rnd2] eqn:Es. simpl. intros ->.
  apply scan_groups_raise in Es as (? & ? & g & Hin & ?).
  apply Hsh in Hin. eauto.
Qed.

Lemma fetch_random_malformed rnd g :
  ~ well_formed languages ->
  In g (candidate_pool db set_id allowed) ->
  fetch_group_words db g <> [] ->
  (fetch_random_group_and_direction db set_id languages random_direction
     allowed rnd).1 = Raise ValueError.
Proof.
  intros Hwf Hin Hw.
  destruct (fetch_random_scan rnd) as [[E _]|(sh & rnd1 & Hsh & ->)];
    [rewrite E in Hin; destruct Hin|].
  rewrite scan_groups_malformed by assumption. simpl.
  assert (existsb (fun g => negb (dict_is_empty (fetch_group_words db g))) sh
          = true) as ->; [|reflexivity].
  apply existsb_exists. exists g. split; [now apply Hsh|].
  destruct (fetch_group_words db g); [contradiction|reflexivity].
Qed.

Lemma fetch_random_none rnd :
  well_formed languages ->
  (forall g, In g (candidate_pool db set_id allowed) ->
             has_valid_pair languages (fetch_group_words db g) = false) ->
  (fetch_random_group_and_direction db set_id languages random_direction
     allowed rnd).1 = Ret None.
Proof.
  intros Hwf Hnone.
  destruct (fetch_random_scan rnd) as [[_ ->]|(sh & rnd1 & Hsh & ->)];
    [reflexivity|].
  rewrite scan_groups_none; [reflexivity|assumption|].
  intros g Hg. apply Hnone. now apply Hsh.
Qed.

Lemma fetch_random_some rnd :
  well_formed languages ->
  (exists g, In g (candidate_pool db set_id allowed)
             /\ has_valid_pair languages (fetch_group_words db g) = true) ->
  exists r,
    (fetch_random_group_and_direction db set_id languages random_direction
       allowed rnd).1 = Ret (Some r).
Proof.
  intros Hwf (g & Hg & Hv).
  destruct (fetch_random_scan rnd) as [[E _]|(sh & rnd1 & Hsh & ->)];
    [rewrite E in Hg; destruct Hg|].
  destruct (scan_groups_some db languages random_direction sh rnd1 Hwf)
    as (r & rnd2 & ->); [|now exists r].
  exists g. split; [now apply Hsh|exact Hv].
Qed.

End Select.

(** C2 (amended).  A question returned by the selector comes from a
    group of the requested set, inside [allowed_group_ids] when given;
    its two languages have an entry in that group and its words are the
    stored words of those languages; the group has a valid pair for the
    request.  Without a language request the two languages differ and
    the group has at least two languages.  With a request the pair is
    the requested one, flipped only under [random_direction], so the
    languages differ when the two requested names differ.  The words
    are non-empty when no word stored for the group is empty. *)
Theorem generate_question_sound :
  forall (db : Database.t) (set_id : Z) (languages : option (list string))
         (random_direction : bool) (allowed : option (list Z)) (rnd : tape)
         (q : Quiz.Question),
    (Quiz.generate_question db set_id languages random_direction allowed rnd).1
    = Ret (Some q) ->
    let words := Database.fetch_group_words db (Quiz.group_id q) in
    let rows := Database.group_rows db (Quiz.group_id q) in
    Quiz.set_id q = set_id
    /\ In (Quiz.group_id q) (Database.fetch_set_group_ids db set_id)
    /\ (forall a, allowed = Some a -> In (Quiz.group_id q) a)
    /\ dict_get words (Quiz.source_language q) = Some (Quiz.source_word q)
    /\ dict_get words (Quiz.target_language q) = Some (Quiz.target_word q)
    /\ In (Quiz.source_language q, Quiz.source_word q) rows
    /\ In (Quiz.target_language q, Quiz.target_word q) rows
    /\ has_valid_pair languages words = true
    /\ (Database.truthy languages = false ->
        Quiz.source_language q <> Quiz.target_language q
        /\ (2 <= length (dict_keys words))%nat)
    /\ (Database.truthy languages = true ->
        exists a b,
          languages = Some [a; b]
          /\ ((Quiz.source_language q = a /\ Quiz.target_language q = b)
              \/ (random_direction = true
                  /\ Quiz.source_language q = b /\ Quiz.target_language q = a))
          /\ (a <> b -> Quiz.source_language q <> Quiz.target_language q))
    /\ ((forall l w, In (l, w) rows -> w <> "") ->
        Quiz.source_word q <> "" /\ Quiz.target_word q <> "").
Proof.
  intros db set languages rdir allowed rnd q.
  rewrite generate_question_fetch.
  destruct (Database.fetch_random_group_and_direction db set languages rdir
              allowed rnd).1 as [[[[[[g sl] sw] tl] tw]|]|e] eqn:Ef;
    try discriminate.
  intros [= <-]. simpl.
  apply fetch_random_sound in Ef as (Hpool & Hs & Ht & options & Hc & Hopt).
  apply candidate_pool_In in Hpool as [Hset Hallowed].
  pose proof (dict_of_rows_In _ _ _ Hs) as Hrs.
  pose proof (dict_of_rows_In _ _ _ Ht) as Hrt.
  pose proof (dict_of_rows_NoDup (Database.group_rows db g)) as Hnd.
  fold (Database.fetch_group_words db g) in Hnd.
  repeat (split; [solve [auto]|]).
  assert (Hreq : Database.truthy languages = true ->
                 exists a b,
                   languages = Some [a; b]
                   /\ dict_mem (Database.fetch_group_words db g) a = true
                   /\ dict_mem (Database.fetch_group_words db g) b = true
                   /\ options = [(a, b)]).
  { intros Htr. unfold Database.candidate_pairs in Hc.
    destruct languages as [[|a [|b [|c ls]]]|]; try discriminate.
    destruct (dict_mem _ a) eqn:Ha, (dict_mem _ b) eqn:Hb; try discriminate.
    injection Hc as <-. eauto 6. }
  assert (Hfree : Database.truthy languages = false ->
                  (2 <= length (dict_keys (Database.fetch_group_words db g)))%nat
                  /\ options
                     = Database.ordered_pairs
                         (dict_keys (Database.fetch_group_words db g))).
  { intros Hf. unfold Database.candidate_pairs in Hc.
    destruct languages as [[|? ?]|]; try discriminate;
      destruct (Nat.ltb_spec
                  (length (dict_keys (Database.fetch_group_words db g))) 2);
      try discriminate; injection Hc as <-; auto. }
  split; [|split; [|split]].
  - destruct (Database.truthy languages) eqn:Htr.
    + destruct (Hreq eq_refl) as (a & b & -> & Ha & Hb & _).
      simpl. now rewrite Ha, Hb.
    + destruct (Hfree eq_refl) as [Hlen _].
      rewrite (has_valid_pair_unrequested _ _ Htr Hnd).
      apply negb_true_iff. apply Nat.ltb_ge. exact Hlen.
  - intros Hf. destruct (Hfree Hf) as [Hlen ->]. split; [|exact Hlen].
    destruct Hopt as [Hin|(_ & Htr & _)]; [|congruence].
    apply (ordered_pairs_distinct _ _ _ Hnd Hin).
  - intros Htr. destruct (Hreq Htr) as (a & b & -> & _ & _ & ->).
    exists a, b. split; [reflexivity|].
    assert ((sl = a /\ tl = b) \/ (rdir = true /\ sl = b /\ tl = a)) as Hdir.
    { destruct Hopt as [[[= -> ->]|[]]|(Hr & _ & [[= -> ->]|[]])]; auto. }
    split; [exact Hdir|].
    intros Hab. destruct Hdir as [[-> ->]|(_ & -> & ->)]; congruence.
  - intros Hwords. split; [apply (Hwords sl)|apply (Hwords tl)]; assumption.
Qed.

(** On the sample lesson a Swedish-to-English question for G1. *)
Lemma generate_question_sound_witness :
  let q := {| Quiz.set_id := 1; Quiz.group_id := 1;
              Quiz.source_language := "Swedish"; Quiz.source_word := "hund";
              Quiz.target_language := "English"; Quiz.target_word := "dog" |} in
  (Quiz.generate_question Sample.pets 1 (Some ["Swedish"; "English"]) false
     None [1%nat]).1 = Ret (Some q)
  /\ In 1 (Database.fetch_set_group_ids Sample.pets 1)
  /\ Quiz.source_language q <> Quiz.target_language q.
Proof.
  intros q.
  assert ((Quiz.generate_question Sample.pets 1 (Some ["Swedish"; "English"])
             false None [1%nat]).1 = Ret (Some q)) as Hq by reflexivity.
  pose proof (generate_question_sound Sample.pets 1
                (Some ["Swedish"; "English"]) false None [1%nat] q Hq)
    as (_ & Hset & _ & _ & _ & _ & _ & _ & _ & Hreq & _).
  split; [exact Hq|]. split; [exact Hset|].
  destruct (Hreq eq_refl) as (a & b & [= <- <-] & _ & Hne).
  apply Hne. discriminate.
Defined.

(** C2 as stated fails twice: a request naming one language twice
    returns a question whose source and target language are the same,
    and a group with two populated languages, one of them holding the
    empty word, yields a question with an empty word. *)
Lemma generate_question_same_language_or_empty_word :
  (exists q,
      (Quiz.generate_question Sample.pets 1 (Some ["English"; "English"])
         false None [1%nat]).1 = Ret (Some q)
      /\ Quiz.source_language q = Quiz.target_language q)
  /\ (exists q,
         (Quiz.generate_question Sample.blank 1 None false None [1%nat]).1
         = Ret (Some q)
         /\ length (dict_keys (Database.fetch_group_words Sample.blank
                                 (Quiz.group_id q))) = 2%nat
         /\ Quiz.target_word q = "").
Proof.
  split.
  - exists {| Quiz.set_id := 1; Quiz.group_id := 1;
              Quiz.source_language := "English"; Quiz.source_word := "dog";
              Quiz.target_language := "English"; Quiz.target_word := "dog" |}.
    split; reflexivity.
  - exists {| Quiz.set_id := 1; Quiz.group_id := 1;
              Quiz.source_language := "Swedish"; Quiz.source_word := "hund";
              Quiz.target_language := "English"; Quiz.target_word := "" |}.
    repeat split; reflexivity.
Qed.

(** C6 (amended).  The selector returns [None], and
    [generate_question] no question, whenever the candidate pool is
    empty: the set has no groups, or none of them is in
    [allowed_group_ids].  It does so too when no candidate group has a
    valid pair, provided [languages] is omitted, empty or has exactly
    two entries. *)
Theorem select_none_without_candidates :
  forall (db : Database.t) (set_id : Z) (languages : option (list string))
         (random_direction : bool) (allowed : option (list Z)) (rnd : tape),
    let no_question :=
      (Database.fetch_random_group_and_direction db set_id languages
         random_direction allowed rnd).1 = Ret None
      /\ (Quiz.generate_question db set_id languages random_direction
            allowed rnd).1 = Ret None in
    (Database.fetch_set_group_ids db set_id = [] -> no_question)
    /\ ((exists a, allowed = Some a
                   /\ forall g, In g (Database.fetch_set_group_ids db set_id) ->
                                ~ In g a) -> no_question)
    /\ (well_formed languages ->
        (forall g, In g (Database.candidate_pool db set_id allowed) ->
                   has_valid_pair languages (Database.fetch_group_words db g)
                   = false) ->
        no_question).
Proof.
  intros db set languages rdir allowed rnd no_question.
  assert (Hq : (Database.fetch_random_group_and_direction db set languages
                  rdir allowed rnd).1 = Ret None -> no_question).
  { intros H. split; [exact H|]. rewrite generate_question_fetch. now rewrite H. }
  assert (Hempty : Database.candidate_pool db set allowed = [] -> no_question).
  { intros E. apply Hq. unfold Database.fetch_random_group_and_direction.
    now rewrite E. }
  split; [|split].
  - intros E. apply Hempty. unfold Database.candidate_pool. rewrite E.
    now destruct allowed.
  - intros (a & -> & Hdisjoint). apply Hempty.
    destruct (Database.candidate_pool db set (Some a)) as [|g pool] eqn:E;
      [reflexivity|].
    assert (In g (Database.candidate_pool db set (Some a))) as Hin
      by (rewrite E; now left).
    apply candidate_pool_In in Hin as [Hset Ha].
    destruct (Hdisjoint g Hset (Ha a eq_refl)).
  - intros Hwf Hnone. apply Hq. now apply fetch_random_none.
Qed.

(** A Spanish-to-English request on the sample lesson, which has no
    Spanish words, and a restriction to a group outside the lesson. *)
Lemma select_none_without_candidates_witness :
  (Quiz.generate_question Sample.pets 1 (Some ["Spanish"; "English"]) true
     None [1%nat; 0%nat]).1 = Ret None
  /\ (Quiz.generate_question Sample.pets 1 None false (Some [5]) [1%nat]).1
     = Ret None
  /\ (Quiz.generate_question Sample.empty 1 None false None [1%nat]).1
     = Ret None.
Proof.
  split; [|split].
  - pose proof (select_none_without_candidates Sample.pets 1
                  (Some ["Spanish"; "English"]) true None [1%nat; 0%nat]) as H.
    cbv zeta in H. destruct H as (_ & _ & H). apply H.
    + reflexivity.
    + intros g [<-|[<-|[]]]; reflexivity.
  - pose proof (select_none_without_candidates Sample.pets 1 None false
                  (Some [5]) [1%nat]) as H.
    cbv zeta in H. destruct H as (_ & H & _). apply H.
    exists [5]. split; [reflexivity|].
    intros g [<-|[<-|[]]] [H5|[]]; discriminate H5.
  - pose proof (select_none_without_candidates Sample.empty 1 None false None
                  [1%nat]) as H.
    cbv zeta in H. destruct H as (H & _ & _). apply H.
    reflexivity.
Defined.

(** C6 as stated fails for a request of one language: no candidate
    group of the sample lesson yields a pair, yet the selector raises
    [ValueError] instead of returning [None]. *)
Lemma select_raises_without_valid_pair :
  (forall g, In g (Database.candidate_pool Sample.pets 1 None) ->
             has_valid_pair (Some ["English"])
               (Database.fetch_group_words Sample.pets g) = false)
  /\ (Database.fetch_random_group_and_direction Sample.pets 1
        (Some ["English"]) false None [1%nat]).1 = Raise ValueError
  /\ (Quiz.generate_question Sample.pets 1 (Some ["English"]) false None
        [1%nat]).1 = Raise ValueError.
Proof.
  split; [|split]; [|reflexivity|reflexivity].
  intros g [<-|[<-|[]]]; reflexivity.
Qed.

(** An empty [languages] list is not a request. *)
Lemma pick_pair_empty_request random_direction group_id words options rnd :
  Database.pick_pair (Some []) random_direction group_id words options rnd
  = Database.pick_pair None random_direction group_id words options rnd.
Proof.
  revert rnd. induction options as [|[src tgt] rest IH]; intros rnd; simpl;
    [reflexivity|].
  rewrite IH. reflexivity.
Qed.

Lemma scan_groups_empty_request db random_direction group_ids rnd :
  Database.scan_groups db (Some []) random_direction group_ids rnd
  = Database.scan_groups db None random_direction group_ids rnd.
Proof.
  revert rnd. induction group_ids as [|g rest IH]; intros rnd; simpl;
    [reflexivity|].
  rewrite IH. destruct (dict_is_empty _); [reflexivity|].
  destruct (_ <? _)%nat; [reflexivity|].
  destruct (shuffle _ rnd) as [options rnd1].
  rewrite pick_pair_empty_request.
  destruct (Database.pick_pair None _ _ _ _ _) as [[[r|e]|] rnd2];
    [reflexivity|reflexivity|apply IH].
Qed.

(** C7 (amended).  A request of one language, or of more than two, is
    rejected with [ValueError] whenever the candidate pool holds a group
    that has a word, whatever the random choices and whatever else the
    set holds, and [generate_question] passes the error on; an empty
    [languages] list is handled as an omitted one. *)
Theorem select_rejects_malformed_languages :
  forall (db : Database.t) (set_id : Z) (languages : option (list string))
         (random_direction : bool) (allowed : option (list Z)) (rnd : tape),
    let malformed :=
      exists l, languages = Some l /\ l <> [] /\ length l <> 2%nat in
    let has_words :=
      exists g, In g (Database.candidate_pool db set_id allowed)
                /\ Database.fetch_group_words db g <> [] in
    (malformed -> has_words ->
     (Database.fetch_random_group_and_direction db set_id languages
        random_direction allowed rnd).1 = Raise ValueError
     /\ (Quiz.generate_question db set_id languages random_direction
           allowed rnd).1 = Raise ValueError)
    /\ Database.fetch_random_group_and_direction db set_id (Some [])
         random_direction allowed rnd
       = Database.fetch_random_group_and_direction db set_id None
           random_direction allowed rnd.
Proof.
  intros db set languages rdir allowed rnd malformed has_words.
  split.
  - intros Hm (g & Hin & Hw). apply not_well_formed in Hm.
    assert (E : (Database.fetch_random_group_and_direction db set languages
                   rdir allowed rnd).1 = Raise ValueError)
      by now apply (fetch_random_malformed db set languages rdir allowed rnd g).
    split; [exact E|]. rewrite generate_question_fetch. now rewrite E.
  - unfold Database.fetch_random_group_and_direction.
    destruct (Database.candidate_pool db set allowed); [reflexivity|].
    destruct (shuffle _ rnd) as [sh rnd1]. apply scan_groups_empty_request.
Qed.

(** A one-language request on the sample lesson is rejected. *)
Lemma select_rejects_malformed_languages_witness :
  (Database.fetch_random_group_and_direction Sample.pets 1 (Some ["English"])
     true (Some [2; 9]) [3%nat; 1%nat]).1 = Raise ValueError.
Proof.
  pose proof (select_rejects_malformed_languages Sample.pets 1
                (Some ["English"]) true (Some [2; 9]) [3%nat; 1%nat]) as H.
  cbv zeta in H. destruct H as (H & _). apply H.
  - exists ["English"]. repeat split; [discriminate|simpl; lia].
  - exists 2. split; [now left|discriminate].
Defined.

(** C7 as stated fails: a one-language request on a set without groups
    returns [None], and so does one restricted to groups outside the
    set; an empty list is accepted and answered with a question. *)
Lemma select_accepts_malformed_languages :
  (Database.fetch_random_group_and_direction Sample.empty 1 (Some ["English"])
     false None [1%nat]).1 = Ret None
  /\ (Database.fetch_random_group_and_direction Sample.pets 1
        (Some ["English"]) false (Some [5]) [1%nat]).1 = Ret None
  /\ (Database.fetch_random_group_and_direction Sample.pets 1 (Some [])
        false None [1%nat; 1%nat]).1
     = Ret (Some (1, "Swedish", "hund", "English", "dog")).
Proof. repeat split; reflexivity. Qed.

(** * Distractors *)

Section Distractors.

Import Database.

Lemma list_mem_In w l : list_mem w l = true <-> In w l.
Proof.
  unfold list_mem. rewrite existsb_exists. split.
  - intros (x & Hx & E). apply String.eqb_eq in E. now subst.
  - intros H. exists w. split; [assumption|apply String.eqb_refl].
Qed.

Variables (db : t) (target_language : string) (num_choices : Z).

(** One pass of the loop body over the collected list. *)
Let step (gid : Z) (acc : list string) : list string :=
  match dict_get (fetch_group_words db gid) target_language with
  | Some w => if negb (list_mem w acc) then acc ++ [w] else acc
  | None => acc
  end.

Lemma step_spec gid acc :
  List.NoDup acc ->
  List.NoDup (step gid acc)
  /\ (forall w, In w acc -> In w (step gid acc))
  /\ (forall w, In w (step gid acc) ->
                In w acc
                \/ dict_get (fetch_group_words db gid) target_language = Some w)
  /\ (forall w, dict_get (fetch_group_words db gid) target_language = Some w ->
                In w (step gid acc))
  /\ (length (step gid acc) <= length acc + 1)%nat.
Proof.
  intros Hnd. unfold step.
  destruct (dict_get (fetch_group_words db gid) target_language) as [w|];
    [|repeat split; auto; [discriminate|lia]].
  destruct (list_mem w acc) eqn:Hm; simpl.
  - apply list_mem_In in Hm.
    repeat split; auto; [now intros ? [= <-]|lia].
  - assert (~ In w acc) as Hnotin
      by (rewrite <- list_mem_In; congruence).
    repeat split.
    + apply NoDup_ListNoDup, NoDup_app. repeat split.
      * now apply NoDup_ListNoDup.
      * intros x Hx Hx'. apply list_elem_of_singleton in Hx'. subst x.
        apply list_elem_of_In in Hx. contradiction.
      * apply NoDup_singleton.
    + intros w' ?. apply in_or_app. now left.
    + intros w' Hin. apply in_app_or in Hin as [?|[<-|[]]]; auto.
    + intros w' [= <-]. apply in_or_app. right. now left.
    + rewrite length_app. simpl. lia.
Qed.

Lemma distractors_loop_spec group_ids acc :
  List.NoDup acc ->
  let ds := distractors_loop db target_language num_choices group_ids acc in
  List.NoDup ds
  /\ (forall w, In w acc -> In w ds)
  /\ (forall w, In w ds ->
                In w acc
                \/ exists g, In g group_ids
                             /\ dict_get (fetch_group_words db g)
                                  target_language = Some w)
  /\ Z.of_nat (length ds) <= Z.max num_choices (Z.of_nat (length acc) + 1)
  /\ (Z.of_nat (length ds) < num_choices ->
      forall g w, In g group_ids ->
                  dict_get (fetch_group_words db g) target_language = Some w ->
                  In w ds).
Proof.
  revert acc. induction group_ids as [|gid rest IH]; intros acc Hnd; simpl.
  - repeat split; auto; [lia|]. intros _ g w [].
  - fold (step gid acc).
    destruct (step_spec gid acc Hnd) as (Hnd' & Hkeep & Hfrom & Hadd & Hlen).
    destruct (Z.leb_spec num_choices (Z.of_nat (length (step gid acc)))).
    + repeat split; auto; [|lia|lia].
      intros w Hw. destruct (Hfrom w Hw); [now left|right].
      exists gid. split; [now left|assumption].
    + destruct (IH (step gid acc) Hnd') as (Hnd'' & Hkeep' & Hfrom' & Hlen' & Hall).
      repeat split; auto.
      * intros w Hw. destruct (Hfrom' w Hw) as [Hw'|(g & Hg & Hgw)].
        -- destruct (Hfrom w Hw'); [now left|right].
           exists gid. split; [now left|assumption].
        -- right. exists g. split; [now right|assumption].
      * lia.
      * intros Hshort g w [<-|Hg] Hgw; [|now apply (Hall Hshort g w)].
        apply Hkeep'. now apply Hadd.
Qed.

End Distractors.

(** [get_distractors] never raises (it is total) and returns pairwise
    distinct words, each the target-language word of a group of the set
    other than the excluded one; the list has at most
    [max num_choices 1] entries, hence at most [num_choices] when that is
    at least 1, and it holds every available word when fewer than
    [num_choices] distinct words are available. *)
Theorem get_distractors_spec :
  forall (db : Database.t) (set_id exclude_group_id : Z)
         (target_language : string) (num_choices : Z) (rnd : tape),
    let ds :=
      (Database.get_distractors db set_id exclude_group_id target_language
         num_choices rnd).1 in
    List.NoDup ds
    /\ (forall w, In w ds ->
                  exists g, In g (Database.fetch_set_group_ids db set_id)
                            /\ g <> exclude_group_id
                            /\ dict_get (Database.fetch_group_words db g)
                                 target_language = Some w)
    /\ Z.of_nat (length ds) <= Z.max num_choices 1
    /\ (Z.of_nat (length (available_words db set_id exclude_group_id
                            target_language)) < num_choices ->
        ds ≡ₚ available_words db set_id exclude_group_id target_language).
Proof.
  intros db set exclude target num rnd ds.
  unfold Database.get_distractors in ds.
  set (others := List.filter (fun gid => negb (gid =? exclude))
                   (Database.fetch_set_group_ids db set)) in *.
  destruct (shuffle others rnd) as [shuffled rnd1] eqn:Es. simpl in ds.
  assert (Hsh : forall g, In g shuffled <-> In g others)
    by (intros g; rewrite <- (shuffle_In others rnd), Es; reflexivity).
  destruct (distractors_loop_spec db target num shuffled [] (List.NoDup_nil _))
    as (Hnd & _ & Hfrom & Hlen & Hall). fold ds in Hnd, Hfrom, Hlen, Hall.
  assert (Hsub : forall w, In w ds ->
                   exists g, In g others
                             /\ dict_get (Database.fetch_group_words db g) target
                                = Some w).
  { intros w Hw. destruct (Hfrom w Hw) as [[]|(g & Hg & Hgw)].
    exists g. split; [now apply Hsh|assumption]. }
  assert (Havail : forall w,
             w ∈ available_words db set exclude target
             <-> exists g, In g others
                           /\ dict_get (Database.fetch_group_words db g) target
                              = Some w).
  { intros w. unfold available_words. fold others.
    rewrite elem_of_remove_dups, list_elem_of_omap.
    setoid_rewrite list_elem_of_In. reflexivity. }
  split; [exact Hnd|]. split; [|split].
  - intros w Hw. destruct (Hsub w Hw) as (g & Hg & Hgw).
    apply filter_In in Hg as [Hg Hne]. exists g.
    split; [assumption|]. split; [|assumption].
    apply negb_true_iff, Z.eqb_neq in Hne. exact Hne.
  - simpl in Hlen. lia.
  - intros Hfew.
    assert (ds ⊆+ available_words db set exclude target) as Hle.
    { apply NoDup_submseteq; [now apply NoDup_ListNoDup|].
      intros w Hw. apply Havail, Hsub. now apply list_elem_of_In. }
    apply submseteq_length in Hle.
    apply NoDup_Permutation;
      [now apply NoDup_ListNoDup|apply NoDup_remove_dups|].
    intros w. split.
    + intros Hw. apply Havail, Hsub. now apply list_elem_of_In.
    + intros Hw. apply Havail in Hw as (g & Hg & Hgw).
      apply list_elem_of_In. apply (Hall ltac:(lia) g w); [|assumption].
      now apply Hsh.
Qed.

(** C8.  With [num_choices = 0] the list still receives the first word
    found: one distractor is returned where at most zero were asked. *)
Theorem get_distractors_zero_choices :
  (Database.get_distractors Sample.pets 1 1 "English" 0 [1%nat]).1 = ["cat"]
  /\ ~ (Z.of_nat (length (Database.get_distractors Sample.pets 1 1 "English" 0
                            [1%nat]).1) <= 0).
Proof. split; [reflexivity|]. simpl. lia. Qed.

(** C10.  [get_distractors] excludes the correct group by id only.
    Whenever another group of the set carries the same target-language
    word and fewer than three distinct words are available, that word is
    among the distractors and the multiple-choice options hold the
    correct word at least twice; the lesson [Sample.twins] with the
    question [Sample.hund_dog], which the selector can draw, is such a
    case for every run of the random generator. *)
Theorem choice_options_repeat_answer :
  (forall (db : Database.t) (set_id : Z) (q : Quiz.Question) (rnd : tape)
          (g : Z),
      In g (Database.fetch_set_group_ids db set_id) ->
      g <> Quiz.group_id q ->
      dict_get (Database.fetch_group_words db g) (Quiz.target_language q)
      = Some (Quiz.target_word q) ->
      (length (available_words db set_id (Quiz.group_id q)
                 (Quiz.target_language q)) < 3)%nat ->
      In (Quiz.target_word q)
        (Database.get_distractors db set_id (Quiz.group_id q)
           (Quiz.target_language q) 3 rnd).1
      /\ (2 <= count_occ String.string_dec
                 (App.choice_options db set_id q rnd).1
                 (Quiz.target_word q))%nat)
  /\ (Quiz.generate_question Sample.twins 1 None false None
        [1%nat; 1%nat]).1 = Ret (Some Sample.hund_dog)
  /\ (forall rnd,
         (Database.get_distractors Sample.twins 1 1 "English" 3 rnd).1 = ["dog"]
         /\ (App.choice_options Sample.twins 1 Sample.hund_dog rnd).1
            = ["dog"; "dog"]).
Proof.
  split; [|split].
  - intros db set q rnd g Hg Hne Hw Hfew.
    pose proof (get_distractors_spec db set (Quiz.group_id q)
                  (Quiz.target_language q) 3 rnd) as (_ & _ & _ & Hall).
    assert (Hin : In (Quiz.target_word q)
                    (Database.get_distractors db set (Quiz.group_id q)
                       (Quiz.target_language q) 3 rnd).1).
    { apply list_elem_of_In. rewrite (Hall ltac:(lia)).
      unfold available_words.
      apply elem_of_remove_dups, list_elem_of_omap. exists g.
      split; [|exact Hw]. apply list_elem_of_In, filter_In.
      split; [exact Hg|]. now apply negb_true_iff, Z.eqb_neq. }
    split; [exact Hin|].
    unfold App.choice_options.
    destruct (Database.get_distractors db set (Quiz.group_id q)
                (Quiz.target_language q) 3 rnd) as [ds rnd1]. simpl in Hin.
    pose proof (shuffle_Permutation (ds ++ [Quiz.target_word q]) rnd1) as Hp.
    rewrite (proj1 (Permutation_count_occ String.string_dec _ _) Hp).
    rewrite count_occ_app. simpl.
    destruct (String.string_dec (Quiz.target_word q) (Quiz.target_word q));
      [|contradiction].
    apply (count_occ_In String.string_dec) in Hin. lia.
  - reflexivity.
  - intros rnd. split; [reflexivity|].
    unfold App.choice_options.
    change (Database.get_distractors Sample.twins 1
              (Quiz.group_id Sample.hund_dog)
              (Quiz.target_language Sample.hund_dog) 3 rnd)
      with (["dog"], rnd).
    unfold shuffle. simpl. destruct (randbelow 2 rnd) as [[|[|j]] rnd1];
      reflexivity.
Qed.

(** The general case at the sample lesson and question. *)
Lemma choice_options_repeat_answer_witness :
  (2 <= count_occ String.string_dec
          (App.choice_options Sample.twins 1 Sample.hund_dog [4%nat]).1
          "dog")%nat.
Proof.
  apply (proj1 choice_options_repeat_answer Sample.twins 1 Sample.hund_dog
           [4%nat] 2).
  - right. now left.
  - discriminate.
  - reflexivity.
  - simpl. lia.
Defined.

(** * Grading *)

(** C9 (amended).  The submitted answer is first stripped of leading
    and trailing whitespace.  In typed mode it is graded correct iff the
    stripped answer equals the target word after both are lowercased
    ([Question.check_answer] strips the target word as well); in
    multiple-choice mode iff the stripped selection equals the target
    word exactly.  For a submission without surrounding whitespace this
    is the comparison of the submission itself. *)
Theorem grade_typed_and_choice :
  forall (form : gmap string string) (q : App.current_question)
         (cli : Quiz.Question),
    let answer := App.form_get form "answer" "" in
    let choice := App.form_get form "choice" "" in
    (Quiz.check_answer cli answer = true
     <-> lower (strip answer) = lower (strip (Quiz.target_word cli)))
    /\ ((App.grade "typed" form (Some q)).2 = true
     <-> lower (strip answer) = lower (App.tgt_word q))
    /\ ((App.grade "choice" form (Some q)).2 = true
        <-> strip choice = App.tgt_word q)
    /\ (strip answer = answer ->
        ((App.grade "typed" form (Some q)).2 = true
         <-> lower answer = lower (App.tgt_word q)))
    /\ (strip choice = choice ->
        ((App.grade "choice" form (Some q)).2 = true
         <-> choice = App.tgt_word q)).
Proof.
  intros form q cli answer choice.
  split; [apply String.eqb_eq|].
  assert (Ht : (App.grade "typed" form (Some q)).2 = true
               <-> lower (strip answer) = lower (App.tgt_word q))
    by (unfold App.grade; simpl; apply String.eqb_eq).
  assert (Hc : (App.grade "choice" form (Some q)).2 = true
               <-> strip choice = App.tgt_word q)
    by (unfold App.grade; simpl; apply String.eqb_eq).
  split; [exact Ht|]. split; [exact Hc|]. split.
  - intros E. rewrite Ht. now rewrite E.
  - intros E. rewrite Hc. now rewrite E.
Qed.

(** "DOG" typed for the target "dog" is correct. *)
Lemma grade_typed_and_choice_witness :
  (App.grade "typed" {[ "answer" := "DOG" ]} (Some Sample.ask_dog)).2 = true.
Proof.
  pose proof (grade_typed_and_choice {[ "answer" := "DOG" ]} Sample.ask_dog
                Sample.hund_dog) as H.
  cbv zeta in H. destruct H as (_ & _ & _ & H & _).
  apply H; reflexivity.
Defined.

(** C9 as stated fails in both modes: the answer " dog" is graded
    correct for the target "dog" although the two differ also when case
    is ignored, and the selection "dog " is graded incorrect for the
    target "dog " although the two are equal. *)
Lemma grade_ignores_surrounding_whitespace :
  ((App.grade "typed" {[ "answer" := " dog" ]} (Some Sample.ask_dog)).2 = true
   /\ lower " dog" <> lower (App.tgt_word Sample.ask_dog))
  /\ ((App.grade "choice" {[ "choice" := "dog " ]}
         (Some Sample.ask_dog_space)).2 = false
      /\ "dog " = App.tgt_word Sample.ask_dog_space).
Proof. repeat split; try reflexivity. discriminate. Qed.

(** * The quiz session *)

Section Session.

Import Database.

(** Without a recency window the statistics query does not read the
    clock. *)
Lemma get_problematic_groups_no_window db now now' set_id threshold user :
  get_problematic_groups db now set_id threshold None user
  = get_problematic_groups db now' set_id threshold None user.
Proof. reflexivity. Qed.

Lemma relax_spec allowed :
  App.relax allowed <> Some []
  /\ (allowed = Some [] -> App.relax allowed = None)
  /\ (allowed <> Some [] -> App.relax allowed = allowed).
Proof.
  destruct allowed as [[|g l]|]; simpl; repeat split;
    try discriminate; try reflexivity; intros H; now destruct H.
Qed.

(** The list the handler computes for a logged-in user holds exactly
    the eligible groups. *)
Lemma combine_filters_eligible db now set_id uid problem_only :
  exists recomputed,
    App.combine_filters problem_only
      (Some (get_due_groups db now set_id uid))
      (get_problematic_groups db now set_id default_threshold None None)
    = Some recomputed
    /\ forall g, In g recomputed <-> eligible db now set_id uid problem_only g.
Proof.
  unfold App.combine_filters, eligible.
  pose proof (get_due_groups_In db now set_id uid) as Hdue.
  destruct problem_only.
  - eexists. split; [reflexivity|]. intros g.
    rewrite filter_In, int_mem_In, Hdue. intuition.
  - eexists. split; [reflexivity|]. intros g.
    rewrite Hdue. intuition discriminate.
Qed.

End Session.

(** C5.  When a logged-in user answers in a session with
    [spaced_repetition] set, the restriction is recomputed on the
    progress as just updated: the groups of the set that are due and,
    under [problem_only], also problematic.  An empty recomputation is
    replaced by [None], never kept as the empty list, and the next
    question is drawn with the new restriction, which is stored in the
    session when a question is found.  After an empty recomputation the
    draw is one from the whole set, so it finds a question, and the
    session goes on, whenever a group of the set has a valid pair. *)
Theorem quiz_question_post_recomputes_allowed :
  forall (db : Database.t) (clk : App.clock) (sess : App.session)
         (set_id : Z) (form : gmap string string) (rnd : tape)
         (st : App.quiz_state) (uid : Z),
    App.quiz sess = Some st ->
    App.qs_set_id st = set_id ->
    App.spaced st = true ->
    App.user_id sess = Some uid ->
    uid <> 0 ->
    let db1 := after_answer db clk sess form st in
    exists (recomputed : list Z) (allowed : option (list Z)),
      (forall g, In g recomputed
                 <-> eligible db1 (App.ts_due clk) set_id uid
                       (App.problem_only st) g)
      /\ allowed = match recomputed with [] => None | _ => Some recomputed end
      /\ allowed <> Some []
      /\ (recomputed = [] ->
          Database.candidate_pool db1 set_id allowed
          = Database.fetch_set_group_ids db1 set_id)
      /\ (recomputed = [] ->
          well_formed (App.selected_langs st) ->
          (exists g, In g (Database.fetch_set_group_ids db1 set_id)
                     /\ has_valid_pair (App.selected_langs st)
                          (Database.fetch_group_words db1 g) = true) ->
          exists q,
            (Quiz.generate_question db1 set_id (App.selected_langs st)
               (App.random_dir st) allowed rnd).1 = Ret (Some q))
      /\ let draw :=
           Quiz.generate_question db1 set_id (App.selected_langs st)
             (App.random_dir st) allowed rnd in
         let '(_, sess', resp, _) :=
           App.quiz_question_post db clk sess set_id form rnd in
         match draw.1 with
         | Ret (Some q) =>
             (exists st', App.quiz sess' = Some st'
                          /\ App.allowed_groups st' = allowed)
             /\ exists cq fb prev m,
                 resp = App.QuestionPage cq fb prev m
                 /\ App.cq_group_id cq = Quiz.group_id q
                 /\ App.tgt_word cq = Quiz.target_word q
         | Ret None =>
             App.quiz sess' = None
             /\ resp = App.ResultPage
                         (if (App.grade (App.mode st) form
                                (App.current_q sess)).2
                          then App.score st + 1 else App.score st)
                         (App.total st + 1)
         | Raise e => resp = App.ServerError e
         end.
Proof.
  intros db clk sess set form rnd st uid Hq Hset Hsp Huid Hnz db1.
  assert (Hlog : App.logged_in (App.user_id sess) = Some uid).
  { rewrite Huid. simpl. destruct (Z.eqb_spec uid 0); [contradiction|reflexivity]. }
  destruct (combine_filters_eligible db1 (App.ts_due clk) set uid
              (App.problem_only st)) as (recomputed & Hcomb & Helig).
  pose (allowed := App.relax (Some recomputed)).
  exists recomputed, allowed.
  split; [exact Helig|]. split; [now destruct recomputed|].
  split; [apply relax_spec|]. split; [intros ->; reflexivity|].
  split.
  { intros -> Hwf Hvalid. unfold allowed, App.relax.
    rewrite generate_question_fetch.
    destruct (fetch_random_some db1 set (App.selected_langs st)
                (App.random_dir st) None rnd Hwf Hvalid)
      as ([[[[g sl] sw] tl] tw] & ->).
    eauto. }
  assert (Hallowed : App.recompute_allowed db1 clk set (App.user_id sess)
                       (App.problem_only st) = allowed).
  { unfold App.recompute_allowed. now rewrite Hlog, Hcomb. }
  clearbody allowed.
  unfold App.quiz_question_post. rewrite Hq, Hset, Z.eqb_refl. simpl negb.
  cbv iota.
  destruct (App.grade (App.mode st) form (App.current_q sess))
    as [user_input correct] eqn:Eg.
  assert (Hdb : match App.current_q sess with
                | Some q =>
                    (App.answers st
                       ++ [{| App.al_group_id := App.cq_group_id q;
                              App.al_from_lang := App.src_lang q;
                              App.al_to_lang := App.tgt_lang q;
                              App.al_correct := correct |}],
                     match App.logged_in (App.user_id sess) with
                     | Some uid0 =>
                         Database.update_user_progress db (App.datetime_now clk)
                           uid0 (App.cq_group_id q) correct
                     | None => db
                     end)
                | None => (App.answers st, db)
                end.2 = db1).
  { unfold db1, after_answer. rewrite Eg. simpl.
    destruct (App.current_q sess); simpl; [|reflexivity].
    now destruct (App.logged_in (App.user_id sess)). }
  destruct (match App.current_q sess with
            | Some q => _
            | None => (App.answers st, db)
            end) as [log db1'].
  simpl in Hdb. subst db1'. rewrite Hsp, Hallowed. simpl App.selected_langs.
  simpl App.random_dir. simpl App.allowed_groups.
  destruct (Quiz.generate_question db1 set (App.selected_langs st)
              (App.random_dir st) allowed rnd)
    as [[[q|]|e] rnd1]; simpl.
  - destruct (String.eqb (App.mode st) "choice");
      [destruct (App.choice_options db1 set q rnd1) as [options rnd2]|];
      (split; [eexists; split; reflexivity|]);
      do 4 eexists; (split; [reflexivity|]); split; reflexivity.
  - split; reflexivity.
  - reflexivity.
Qed.

(** User 7 answers "dog" on the sample lesson: G1 moves two days ahead
    and G2 alone remains eligible. *)
Lemma quiz_question_post_recomputes_allowed_witness :
  exists (recomputed : list Z) (allowed : option (list Z)),
    (forall g, In g recomputed
               <-> eligible
                     (after_answer Sample.pets Sample.noon Sample.session7
                        {[ "answer" := "dog" ]} Sample.spaced_quiz)
                     1000 1 7 false g)
    /\ allowed <> Some []
    /\ (App.quiz_question_post Sample.pets Sample.noon Sample.session7 1
          {[ "answer" := "dog" ]} [1%nat]).1.2
       = App.QuestionPage
           {| App.cq_group_id := 2;
              App.src_lang := "Swedish"; App.src_word := "katt";
              App.tgt_lang := "English"; App.tgt_word := "cat";
              App.choices := None |}
           true (Some "dog") "typed".
Proof.
  destruct (quiz_question_post_recomputes_allowed Sample.pets Sample.noon
              Sample.session7 1 {[ "answer" := "dog" ]} [1%nat]
              Sample.spaced_quiz 7 eq_refl eq_refl eq_refl eq_refl
              ltac:(discriminate))
    as (recomputed & allowed & Helig & _ & Hne & _).
  exists recomputed, allowed.
  split; [exact Helig|]. split; [exact Hne|]. vm_compute. reflexivity.
Defined.

(** * Further properties of the scheduler *)

Section SchedulerMore.

Import Database.

Lemma timedelta_days_pow2_range b :
  0 <= b <= 5 ->
  US_PER_DAY <= timedelta_days_pow2 b <= 32 * US_PER_DAY.
Proof.
  intros Hb. destruct (timedelta_days_pow2_spec b) as [-> _]; [|lia].
  assert (1 <= 2 ^ b <= 2 ^ 5) as H.
  { split; [apply (Z.pow_le_mono_r 2 0 b); lia|apply Z.pow_le_mono_r; lia]. }
  change (2 ^ 5) with 32 in H. unfold US_PER_DAY. lia.
Qed.

Lemma leitner_box_range old correct :
  (forall r, old = Some r -> 0 <= box r <= 5) ->
  0 <= leitner_box old correct <= 5.
Proof.
  intros H. unfold leitner_box. destruct old as [r|], correct; try lia.
  specialize (H r eq_refl). lia.
Qed.

Lemma filter_sublist_impl {A : Type} (f g : A -> bool) (l : list A) :
  (forall a, f a = true -> g a = true) ->
  sublist (List.filter f l) (List.filter g l).
Proof.
  intros H. induction l as [|a l IH]; simpl; [constructor|].
  destruct (f a) eqn:Ef.
  - rewrite (H a Ef). now constructor.
  - destruct (g a); [now constructor|assumption].
Qed.

(** The record written by an answer, when the boxes are in range. *)
Lemma update_user_progress_written db now u g correct :
  boxes_in_range db ->
  exists r,
    user_progress (update_user_progress db now u g correct) !! (u, g) = Some r
    /\ 0 <= box r <= 5
    /\ now + US_PER_DAY <= due_date r <= now + 32 * US_PER_DAY.
Proof.
  intros Hinv.
  pose proof (update_user_progress_lookup db now u g correct) as Hnew.
  simpl in Hnew.
  assert (Hb : 0 <= leitner_box (user_progress db !! (u, g)) correct <= 5).
  { apply leitner_box_range. intros r Hr. exact (Hinv _ _ Hr). }
  eexists. split; [exact Hnew|]. simpl. split; [exact Hb|].
  pose proof (timedelta_days_pow2_range _ Hb). lia.
Qed.

(** Only the progress table is written. *)
Lemma update_user_progress_tables db now u g correct :
  let db' := update_user_progress db now u g correct in
  languages db' = languages db
  /\ vocab_items db' = vocab_items db
  /\ set_groups db' = set_groups db
  /\ quiz_sessions db' = quiz_sessions db
  /\ seq_quiz_sessions db' = seq_quiz_sessions db
  /\ quiz_answers db' = quiz_answers db.
Proof.
  unfold update_user_progress.
  destruct (user_progress db !! (u, g)); repeat split; reflexivity.
Qed.

End SchedulerMore.

(** X1.  [update_user_progress] keeps every stored box within 0..5, and
    the record it writes is due between one and thirty-two days after
    the answer. *)
Theorem update_user_progress_keeps_range :
  forall (db : Database.t) (now u g : Z) (correct : bool),
    boxes_in_range db ->
    boxes_in_range (Database.update_user_progress db now u g correct)
    /\ exists r,
        Database.user_progress
          (Database.update_user_progress db now u g correct) !! (u, g) = Some r
        /\ now + Database.US_PER_DAY <= Database.due_date r
           <= now + 32 * Database.US_PER_DAY.
Proof.
  intros db now u g correct Hinv.
  destruct (update_user_progress_written db now u g correct Hinv)
    as (r & Hr & Hb & Hdue).
  split; [|eauto].
  intros k r' Hk. destruct (decide (k = (u, g))) as [->|Hne].
  - rewrite Hr in Hk. injection Hk as <-. exact Hb.
  - destruct k as [u' g'].
    rewrite update_user_progress_other in Hk by exact Hne.
    exact (Hinv _ _ Hk).
Qed.

Lemma update_user_progress_keeps_range_witness :
  boxes_in_range (Database.update_user_progress Sample.pets 70 7 1 true).
Proof.
  apply (update_user_progress_keeps_range Sample.pets 70 7 1 true).
  intros k r H. simpl in H. rewrite lookup_empty in H. discriminate.
Defined.

(** X2.  [update_user_progress] writes one progress record and nothing
    else: the records of other users and groups and all other tables
    are as before, so the words of every group, the groups of every set
    and the problematic groups are unchanged. *)
Theorem update_user_progress_frame :
  forall (db : Database.t) (now u g : Z) (correct : bool),
    let db' := Database.update_user_progress db now u g correct in
    (forall u' g', (u', g') <> (u, g) ->
                   Database.user_progress db' !! (u', g')
                   = Database.user_progress db !! (u', g'))
    /\ Database.languages db' = Database.languages db
    /\ Database.vocab_items db' = Database.vocab_items db
    /\ Database.set_groups db' = Database.set_groups db
    /\ Database.quiz_sessions db' = Database.quiz_sessions db
    /\ Database.quiz_answers db' = Database.quiz_answers db
    /\ (forall g', Database.fetch_group_words db' g'
                   = Database.fetch_group_words db g')
    /\ (forall s, Database.fetch_set_group_ids db' s
                  = Database.fetch_set_group_ids db s)
    /\ (forall t s th since user,
           Database.get_problematic_groups db' t s th since user
           = Database.get_problematic_groups db t s th since user).
Proof.
  intros db now u g correct db'.
  split; [intros u' g' Hne; now apply update_user_progress_other|].
  destruct (update_user_progress_tables db now u g correct)
    as (Hl & Hv & Hs & Hq & _ & Ha). fold db' in Hl, Hv, Hs, Hq, Ha.
  repeat split; try assumption.
  - intros g'. unfold Database.fetch_group_words, Database.group_rows,
      Database.group_items.
    now rewrite Hl, Hv.
  - intros s. unfold Database.fetch_set_group_ids. now rewrite Hs.
  - intros t s th since user.
    unfold Database.get_problematic_groups, Database.joined_answers.
    now rewrite Hq, Ha.
Qed.

Lemma update_user_progress_frame_witness :
  Database.user_progress
    (Database.update_user_progress Sample.pets 70 7 1 true) !! (8, 1)
  = Database.user_progress Sample.pets !! (8, 1).
Proof.
  apply (update_user_progress_frame Sample.pets 70 7 1 true). discriminate.
Defined.

(** X3.  Once a group is answered it is not due for that user at any
    database time less than a day after the answer, while the due
    status of every other group and user is unchanged. *)
Theorem answered_group_not_due :
  forall (db : Database.t) (now u g : Z) (correct : bool) (ts set_id : Z),
    boxes_in_range db ->
    ts * 1000000 < now + Database.US_PER_DAY ->
    let db' := Database.update_user_progress db now u g correct in
    ~ In g (Database.get_due_groups db' ts set_id u)
    /\ (forall u' g', (u', g') <> (u, g) ->
           (In g' (Database.get_due_groups db' ts set_id u')
            <-> In g' (Database.get_due_groups db ts set_id u'))).
Proof.
  intros db now u g correct ts set Hinv Hts db'.
  destruct (update_user_progress_written db now u g correct Hinv)
    as (r & Hr & _ & Hdue & _).
  split.
  - intros Hin. apply get_due_groups_In in Hin as [_ [Hnone|(r' & Hr' & Hle)]].
    + unfold db' in Hnone. congruence.
    + unfold db' in Hr'. rewrite Hr in Hr'. injection Hr' as <-. lia.
  - intros u' g' Hne. rewrite !get_due_groups_In.
    unfold db', due.
    rewrite (update_user_progress_other db now u g correct u' g' Hne).
    destruct (update_user_progress_tables db now u g correct)
      as (_ & _ & Hs & _).
    unfold Database.fetch_set_group_ids. now rewrite Hs.
Qed.

(** User 7 answers G1 at microsecond 70; at second 60 it is not due. *)
Lemma answered_group_not_due_witness :
  ~ In 1 (Database.get_due_groups
            (Database.update_user_progress Sample.pets 70 7 1 false) 60 1 7).
Proof.
  apply (answered_group_not_due Sample.pets 70 7 1 false 60 1).
  - intros k r H. simpl in H. rewrite lookup_empty in H. discriminate.
  - reflexivity.
Defined.

(** X4.  A group that is due stays due: the due groups at one database
    time are among those at any later time, in the same order. *)
Theorem get_due_groups_monotone :
  forall (db : Database.t) (ts ts' set_id user_id : Z),
    ts <= ts' ->
    sublist (Database.get_due_groups db ts set_id user_id)
            (Database.get_due_groups db ts' set_id user_id).
Proof.
  intros db ts ts' set user Hle. rewrite !get_due_groups_filter.
  apply filter_sublist_impl. intros g.
  destruct (Database.user_progress db !! (user, g)) as [r|]; [|auto].
  rewrite !Z.leb_le. lia.
Qed.

Lemma get_due_groups_monotone_witness :
  sublist (Database.get_due_groups Sample.pets 5 1 7)
          (Database.get_due_groups Sample.pets 9 1 7).
Proof. apply (get_due_groups_monotone Sample.pets 5 9 1 7). lia. Defined.

(** * Further properties of the statistics *)

Section StatisticsMore.

Import Database.

Lemma filter_none {A : Type} (f : A -> bool) (l : list A) :
  (forall a, In a l -> f a = false) -> List.filter f l = [].
Proof.
  induction l as [|a l IH]; simpl; intros H; [reflexivity|].
  rewrite (H a (or_introl eq_refl)). apply IH. auto.
Qed.

Lemma correct_le_total db now set_id since_days user_id g :
  (correct_answers db now set_id since_days user_id g
   <= total_answers db now set_id since_days user_id g)%nat.
Proof.
  unfold correct_answers, total_answers.
  apply sublist_length, filter_sublist.
Qed.

End StatisticsMore.

(** X5.  [get_problematic_groups] grows with the threshold: the groups
    returned for one threshold are among those for any larger one.  No
    group is returned for a threshold of 0 or less, and for a threshold
    above 1 every group with a counted answer is. *)
Theorem get_problematic_groups_threshold :
  forall (db : Database.t) (now set_id : Z) (since_days user_id : option Z)
         (th th' : Q),
    let result t :=
      Database.get_problematic_groups db now set_id t since_days user_id in
    ((th <= th')%Q -> sublist (result th) (result th'))
    /\ ((th <= 0)%Q -> result th = [])
    /\ ((1 < th)%Q ->
        forall g, In g (result th)
                  <-> (0 < total_answers db now set_id since_days user_id g)%nat).
Proof.
  intros db now set since user th th' result.
  assert (Hratio : forall g,
             (0 <= Database.ratio
                     (Database.correct_count
                        (Database.joined_answers db now set since user) g)
                     (Database.total_count
                        (Database.joined_answers db now set since user) g)
              <= 1)%Q).
  { intros g. rewrite correct_count_spec, total_count_spec.
    apply ratio_bounds, correct_le_total. }
  split; [|split].
  - intros Hle. unfold result, Database.get_problematic_groups.
    apply filter_sublist_impl. intros g. rewrite !having_below_spec.
    intros H. eapply Qlt_le_trans; eauto.
  - intros Hle. unfold result, Database.get_problematic_groups.
    apply filter_none. intros g _.
    destruct (Database.having_below _ _ th) eqn:E; [|reflexivity].
    apply having_below_spec in E. exfalso.
    apply (Qlt_irrefl 0). eapply Qle_lt_trans; [apply (Hratio g)|].
    eapply Qlt_le_trans; eauto.
  - intros Hgt g. unfold result, Database.get_problematic_groups.
    rewrite filter_In, having_below_spec, index_order_In.
    rewrite <- list_elem_of_In, elem_of_remove_dups, list_elem_of_In.
    rewrite grouped_iff_answered. split; [tauto|]. intros H. split; [exact H|].
    eapply Qle_lt_trans; [apply (Hratio g)|exact Hgt].
Qed.

(** Raising the threshold from 0.7 to 0.9 on the sample history. *)
Lemma get_problematic_groups_threshold_witness :
  sublist
    (Database.get_problematic_groups Sample.pets_history 1000 1
       Database.default_threshold None None)
    (Database.get_problematic_groups Sample.pets_history 1000 1
       (Database.round_double (9 # 10)) None None).
Proof.
  pose proof (get_problematic_groups_threshold Sample.pets_history 1000 1
                None None Database.default_threshold
                (Database.round_double (9 # 10))) as H.
  cbv zeta in H. destruct H as (H & _). apply H.
  vm_compute. discriminate.
Defined.

(** * Further properties of the selector *)

(** X6.  For a request that is omitted, empty or of two languages the
    selector never raises, and whatever the random choices it returns a
    question exactly when some candidate group has a valid pair, and
    [None] exactly when none has. *)
Theorem select_finds_iff_valid_pair :
  forall (db : Database.t) (set_id : Z) (languages : option (list string))
         (random_direction : bool) (allowed : option (list Z)) (rnd : tape),
    well_formed languages ->
    let result :=
      (Database.fetch_random_group_and_direction db set_id languages
         random_direction allowed rnd).1 in
    let some_valid :=
      exists g, In g (Database.candidate_pool db set_id allowed)
                /\ has_valid_pair languages (Database.fetch_group_words db g)
                   = true in
    (forall e, result <> Raise e)
    /\ ((exists r, result = Ret (Some r)) <-> some_valid)
    /\ (result = Ret None <-> ~ some_valid).
Proof.
  intros db set languages rdir allowed rnd Hwf result some_valid.
  assert (Hraise : forall e, result <> Raise e).
  { intros e H. apply fetch_random_raise in H as (_ & Hbad & _). tauto. }
  assert (Hsome : some_valid -> exists r, result = Ret (Some r))
    by (intros H; now apply fetch_random_some).
  assert (Hnone : ~ some_valid -> result = Ret None).
  { intros H. apply fetch_random_none; [exact Hwf|].
    intros g Hg.
    destruct (has_valid_pair languages (Database.fetch_group_words db g))
      eqn:E; [|reflexivity].
    exfalso. apply H. now exists g. }
  assert (Hdec : some_valid \/ ~ some_valid).
  { unfold some_valid.
    destruct (existsb
                (fun g => has_valid_pair languages
                            (Database.fetch_group_words db g))
                (Database.candidate_pool db set allowed)) eqn:E.
    - left. now apply existsb_exists in E.
    - right. intros H. apply existsb_exists in H. congruence. }
  split; [exact Hraise|]. split.
  - split; [|exact Hsome]. intros [r Hr].
    destruct Hdec as [?|Hno]; [assumption|].
    rewrite (Hnone Hno) in Hr. discriminate.
  - split; [|exact Hnone]. intros Hr Hv.
    destruct (Hsome Hv) as [r Hr']. congruence.
Qed.

(** Swedish to English on the sample lesson always finds a question. *)
Lemma select_finds_iff_valid_pair_witness :
  exists r,
    (Database.fetch_random_group_and_direction Sample.pets 1
       (Some ["Swedish"; "English"]) true None [5%nat; 2%nat; 7%nat]).1
    = Ret (Some r).
Proof.
  pose proof (select_finds_iff_valid_pair Sample.pets 1
                (Some ["Swedish"; "English"]) true None
                [5%nat; 2%nat; 7%nat] eq_refl) as H.
  cbv zeta in H. destruct H as (_ & H & _). apply H.
  exists 1. split; [now left|reflexivity].
Defined.

(** * Further properties of the distractors *)

(** X7.  For [num_choices >= 1], [get_distractors] returns at most
    [num_choices] pairwise distinct words, none taken from the excluded
    group's entry, each the target-language word of another group of the
    set; when fewer than [num_choices] distinct such words exist it
    returns all of them. *)
Theorem get_distractors_bounded :
  forall (db : Database.t) (set_id exclude_group_id : Z)
         (target_language : string) (num_choices : Z) (rnd : tape),
    1 <= num_choices ->
    let ds :=
      (Database.get_distractors db set_id exclude_group_id target_language
         num_choices rnd).1 in
    let available :=
      available_words db set_id exclude_group_id target_language in
    List.NoDup ds
    /\ Z.of_nat (length ds) <= num_choices
    /\ (forall w, In w ds -> In w available)
    /\ (Z.of_nat (length available) < num_choices ->
        forall w, In w ds <-> In w available).
Proof.
  intros db set exclude target num rnd Hnum ds available.
  pose proof (get_distractors_spec db set exclude target num rnd)
    as (Hnd & Hfrom & Hlen & Hall).
  fold ds in Hnd, Hfrom, Hlen, Hall. fold available in Hall.
  split; [exact Hnd|]. split; [lia|]. split.
  - intros w Hw. destruct (Hfrom w Hw) as (g & Hg & Hne & Hgw).
    unfold available, available_words.
    apply list_elem_of_In, elem_of_remove_dups, list_elem_of_omap.
    exists g. split; [|exact Hgw]. apply list_elem_of_In, filter_In.
    split; [exact Hg|]. now apply negb_true_iff, Z.eqb_neq.
  - intros Hfew w. rewrite <- !list_elem_of_In. now rewrite (Hall Hfew).
Qed.

(** Three distractors asked for G1 on the sample lesson: only "cat"
    exists. *)
Lemma get_distractors_bounded_witness :
  1 <= 3
  /\ List.NoDup
       (Database.get_distractors Sample.pets 1 1 "English" 3 [2%nat]).1
  /\ Z.of_nat
       (length (Database.get_distractors Sample.pets 1 1 "English" 3
                  [2%nat]).1) <= 3.
Proof.
  split; [lia|].
  pose proof (get_distractors_bounded Sample.pets 1 1 "English" 3 [2%nat]
                ltac:(lia)) as H.
  cbv zeta in H. destruct H as (Hnd & Hlen & _). split; assumption.
Defined.

(** X8.  The options of a multiple-choice question are a shuffle of the
    distractors followed by the correct word: the correct word is always
    among them, there are between one and four, and every option is the
    correct word or the target-language word of another group of the
    set. *)
Theorem choice_options_contain_answer :
  forall (db : Database.t) (set_id : Z) (q : Quiz.Question) (rnd : tape),
    let options := (App.choice_options db set_id q rnd).1 in
    In (Quiz.target_word q) options
    /\ (1 <= length options <= 4)%nat
    /\ options
       ≡ₚ (Database.get_distractors db set_id (Quiz.group_id q)
             (Quiz.target_language q) 3 rnd).1 ++ [Quiz.target_word q]
    /\ (forall w, In w options ->
          w = Quiz.target_word q
          \/ exists g, In g (Database.fetch_set_group_ids db set_id)
                       /\ g <> Quiz.group_id q
                       /\ dict_get (Database.fetch_group_words db g)
                            (Quiz.target_language q) = Some w).
Proof.
  intros db set q rnd options.
  pose proof (get_distractors_spec db set (Quiz.group_id q)
                (Quiz.target_language q) 3 rnd) as (_ & Hfrom & Hlen & _).
  unfold options, App.choice_options.
  destruct (Database.get_distractors db set (Quiz.group_id q)
              (Quiz.target_language q) 3 rnd) as [ds rnd1].
  simpl in Hfrom, Hlen. simpl fst at 2.
  pose proof (shuffle_Permutation (ds ++ [Quiz.target_word q]) rnd1) as Hp.
  assert (Hin : forall w, In w (shuffle (ds ++ [Quiz.target_word q]) rnd1).1
                          <-> In w ds \/ w = Quiz.target_word q).
  { intros w. rewrite shuffle_In, in_app_iff. simpl. intuition. }
  split; [apply Hin; now right|]. split; [|split; [exact Hp|]].
  - rewrite (Permutation_length Hp), length_app. simpl. lia.
  - intros w Hw. apply Hin in Hw as [Hw | ->]; [right; now apply Hfrom|now left].
Qed.

Lemma choice_options_contain_answer_witness :
  In "dog" (App.choice_options Sample.pets 1 Sample.hund_dog [3%nat]).1.
Proof. apply (choice_options_contain_answer Sample.pets 1 Sample.hund_dog). Defined.

(** * Further properties of the quiz session *)

Section SessionMore.

Import Database.

Lemma persist_answers_fields db sid log :
  let db' := App.persist_answers db sid log in
  quiz_answers db' = quiz_answers db ++ map (logged_row sid) log
  /\ languages db' = languages db
  /\ vocab_items db' = vocab_items db
  /\ set_groups db' = set_groups db
  /\ quiz_sessions db' = quiz_sessions db
  /\ seq_quiz_sessions db' = seq_quiz_sessions db
  /\ user_progress db' = user_progress db.
Proof.
  unfold App.persist_answers. revert db.
  induction log as [|ans log IH]; intros db; simpl.
  - rewrite app_nil_r. repeat split; reflexivity.
  - destruct (IH (record_quiz_answer db sid (App.al_group_id ans)
                    (App.al_from_lang ans) (App.al_to_lang ans)
                    (App.al_correct ans)))
      as (Ha & Hl & Hv & Hs & Hq & Hn & Hp).
    rewrite Ha, Hl, Hv, Hs, Hq, Hn, Hp. simpl.
    rewrite <- app_assoc. simpl.
    repeat split. unfold logged_row. now destruct (App.al_correct ans).
Qed.

Lemma after_answer_tables db clk sess form st :
  let db1 := after_answer db clk sess form st in
  languages db1 = languages db
  /\ vocab_items db1 = vocab_items db
  /\ set_groups db1 = set_groups db
  /\ quiz_sessions db1 = quiz_sessions db
  /\ seq_quiz_sessions db1 = seq_quiz_sessions db
  /\ quiz_answers db1 = quiz_answers db.
Proof.
  unfold after_answer.
  destruct (App.current_q sess); [|repeat split; reflexivity].
  destruct (App.logged_in (App.user_id sess)); [|repeat split; reflexivity].
  apply update_user_progress_tables.
Qed.

(** The three ways a graded request ends. *)
Lemma quiz_question_post_shape db clk sess set_id form rnd st :
  App.quiz sess = Some st ->
  App.qs_set_id st = set_id ->
  let correct := (App.grade (App.mode st) form (App.current_q sess)).2 in
  let db1 := after_answer db clk sess form st in
  let log := log_after sess st correct in
  let allowed := allowed_after db1 clk set_id sess st in
  let st' := App.set_progress_of_answer st correct log allowed in
  let draw :=
    (Quiz.generate_question db1 set_id (App.selected_langs st)
       (App.random_dir st) allowed rnd).1 in
  let out := App.quiz_question_post db clk sess set_id form rnd in
  match draw with
  | Ret None =>
      out.1.1.1
      = App.persist_answers
          (record_quiz_session db1 (App.ts_record clk) set_id (App.total st')
             (App.score st') (App.user_id sess)).1
          (seq_quiz_sessions db1 + 1) log
      /\ out.1.1.2 = {| App.quiz := None; App.current_q := None;
                        App.user_id := App.user_id sess |}
      /\ out.1.2 = App.ResultPage (App.score st') (App.total st')
  | Ret (Some q) =>
      out.1.1.1 = db1
      /\ exists cq,
          out.1.1.2 = {| App.quiz := Some st'; App.current_q := Some cq;
                         App.user_id := App.user_id sess |}
          /\ out.1.2
             = App.QuestionPage cq correct
                 (App.grade (App.mode st) form (App.current_q sess)).1
                 (App.mode st)
          /\ App.cq_group_id cq = Quiz.group_id q
          /\ App.tgt_word cq = Quiz.target_word q
  | Raise e =>
      out.1.1.1 = db1
      /\ out.1.1.2 = {| App.quiz := Some st';
                        App.current_q := App.current_q sess;
                        App.user_id := App.user_id sess |}
      /\ out.1.2 = App.ServerError e
  end.
Proof.
  intros Hq Hset correct db1 log allowed st' draw out.
  unfold out, App.quiz_question_post. rewrite Hq, Hset, Z.eqb_refl.
  simpl negb. cbv iota.
  unfold draw, st', allowed, allowed_after, log, log_after, db1, after_answer,
    correct.
  destruct (App.grade (App.mode st) form (App.current_q sess))
    as [user_input c].
  simpl snd. simpl fst.
  destruct (App.current_q sess) as [q0|];
    [destruct (App.logged_in (App.user_id sess)) as [uid|]|];
    simpl App.selected_langs; simpl App.random_dir; simpl App.allowed_groups;
    (match goal with
     | |- context [Quiz.generate_question ?d ?s ?l ?r ?a ?t] =>
         destruct (Quiz.generate_question d s l r a t) as [[[q|]|e] rnd1]
     end);
    simpl;
    try (split; [reflexivity|split; reflexivity]);
    (split; [now destruct (String.eqb (App.mode st) "choice");
                 [destruct (App.choice_options _ _ _ _)|]|]);
    (destruct (String.eqb (App.mode st) "choice");
     [destruct (App.choice_options _ _ _ _) as [options rnd2]|]);
    eexists; repeat split.
Qed.

End SessionMore.

Section Recorded.

Import Database.

Variables (db : t) (sid : Z) (row : session_row) (log : list App.answer_log).

Hypothesis Hnum : sessions_numbered db.
Hypothesis Hsid : sid = seq_quiz_sessions db + 1.

(** The database once a session summary and its log are written. *)
Let db' : t :=
  {| languages := languages db;
     vocab_items := vocab_items db;
     set_groups := set_groups db;
     quiz_sessions := <[sid := row]> (quiz_sessions db);
     seq_quiz_sessions := sid;
     quiz_answers := quiz_answers db ++ map (logged_row sid) log;
     user_progress := user_progress db |}.

Lemma recorded_numbered : sessions_numbered db'.
Proof.
  destruct Hnum as [Hs Ha]. split; simpl.
  - intros id s. rewrite lookup_insert. case_decide as E.
    + intros _. lia.
    + intros H. pose proof (Hs id s H). lia.
  - intros a Hin. apply in_app_or in Hin as [Hin|Hin].
    + pose proof (Ha a Hin). lia.
    + apply in_map_iff in Hin as (e & <- & _). simpl. lia.
Qed.

Lemma recorded_old_counts now set_id user a :
  In a (quiz_answers db) ->
  (counts_for db' now set_id None user a <-> counts_for db now set_id None user a).
Proof.
  intros Hin. destruct Hnum as [_ Ha]. pose proof (Ha a Hin) as Hle.
  unfold counts_for. simpl.
  rewrite lookup_insert_ne by lia. reflexivity.
Qed.

Lemma recorded_new_counts now e :
  counts_for db' now (s_set_id row) None None (logged_row sid e).
Proof.
  unfold counts_for. simpl. exists row.
  rewrite lookup_insert_eq. repeat split.
Qed.

Lemma filter_app_length {A : Type} (f : A -> bool) (l k : list A) :
  length (List.filter f (l ++ k))
  = (length (List.filter f l) + length (List.filter f k))%nat.
Proof. now rewrite List.filter_app, length_app. Qed.

Lemma filter_map_comm {A B : Type} (f : B -> bool) (h : A -> B) (l : list A) :
  List.filter f (map h l) = map h (List.filter (fun a => f (h a)) l).
Proof.
  induction l as [|a l IH]; simpl; [reflexivity|].
  destruct (f (h a)); simpl; now rewrite IH.
Qed.

Lemma recorded_answers_of now g :
  answers_of db' now (s_set_id row) None None g
  = answers_of db now (s_set_id row) None None g
    ++ map (logged_row sid)
         (List.filter (fun e => App.al_group_id e =? g) log).
Proof.
  unfold answers_of. simpl quiz_answers. rewrite List.filter_app. f_equal.
  - apply filter_ext_in. intros a Hin. apply bool_decide_ext.
    now rewrite recorded_old_counts.
  - rewrite filter_map_comm. f_equal. apply filter_ext. intros e.
    destruct (Z.eqb_spec (App.al_group_id e) g) as [E|E].
    + rewrite bool_decide_eq_true_2; [reflexivity|].
      split; [exact E|apply recorded_new_counts].
    + rewrite bool_decide_eq_false_2; [reflexivity|]. intros [E' _].
      now apply E.
Qed.

Lemma recorded_totals now g :
  total_answers db' now (s_set_id row) None None g
  = (total_answers db now (s_set_id row) None None g
     + length (List.filter (fun e => (App.al_group_id e =? g)%Z) log))%nat
  /\ correct_answers db' now (s_set_id row) None None g
     = (correct_answers db now (s_set_id row) None None g
        + length (List.filter
                    (fun e => (App.al_group_id e =? g)%Z && App.al_correct e)
                    log))%nat.
Proof.
  unfold total_answers, correct_answers. rewrite recorded_answers_of.
  rewrite length_app, length_map. split; [reflexivity|].
  rewrite filter_app_length. f_equal.
  rewrite filter_andb_comm.
  induction (List.filter (fun e => App.al_group_id e =? g) log) as [|e l IH];
    simpl; [reflexivity|].
  destruct (App.al_correct e); simpl; now rewrite IH.
Qed.

End Recorded.

(** X9.  Answering the current question adds one entry to the log, one
    to [total] and, when graded correct, one to [score]; counters that
    agree with the log keep agreeing, and the result page of a finished
    quiz shows them. *)
Theorem quiz_question_post_tallies :
  forall (db : Database.t) (clk : App.clock) (sess : App.session)
         (set_id : Z) (form : gmap string string) (rnd : tape)
         (st : App.quiz_state) (cq : App.current_question),
    App.quiz sess = Some st ->
    App.qs_set_id st = set_id ->
    App.current_q sess = Some cq ->
    tallied st ->
    let out := App.quiz_question_post db clk sess set_id form rnd in
    let correct := (App.grade (App.mode st) form (Some cq)).2 in
    let score' := if correct then App.score st + 1 else App.score st in
    0 <= score' <= App.total st + 1
    /\ match App.quiz out.1.1.2 with
       | Some st' =>
           tallied st'
           /\ App.total st' = App.total st + 1
           /\ App.score st' = score'
           /\ App.answers st' = App.answers st ++ [answer_entry cq correct]
       | None => out.1.2 = App.ResultPage score' (App.total st + 1)
       end.
Proof.
  intros db clk sess set form rnd st cq Hq Hset Hcq [Htot Hsc] out correct
    score'.
  pose proof (quiz_question_post_shape db clk sess set form rnd st Hq Hset)
    as Hshape.
  cbv zeta in Hshape. fold out in Hshape.
  unfold log_after in Hshape. rewrite Hcq in Hshape. fold correct in Hshape.
  assert (Hle : (length (List.filter App.al_correct (App.answers st))
                 <= length (App.answers st))%nat)
    by apply sublist_length, filter_sublist.
  split; [unfold score'; destruct correct; lia|].
  assert (Htally : forall allowed,
             let st' := App.set_progress_of_answer st correct
                          (App.answers st ++ [answer_entry cq correct])
                          allowed in
             tallied st' /\ App.total st' = App.total st + 1
             /\ App.score st' = score'
             /\ App.answers st' = App.answers st ++ [answer_entry cq correct]).
  { intros allowed st'. unfold tallied, st', score'. simpl.
    rewrite length_app, List.filter_app, length_app. simpl.
    destruct correct; simpl; repeat split; lia. }
  destruct (Quiz.generate_question _ _ _ _ _ _).1 as [[q|]|e].
  - destruct Hshape as (_ & cq' & -> & _). apply Htally.
  - destruct Hshape as (_ & -> & ->). reflexivity.
  - destruct Hshape as (_ & -> & _). apply Htally.
Qed.

(** User 7 answers "dog" in the sample session: one of one correct. *)
Lemma quiz_question_post_tallies_witness :
  match App.quiz (App.quiz_question_post Sample.pets Sample.noon
                    Sample.session7 1 {[ "answer" := "dog" ]} [1%nat]).1.1.2
  with
  | Some st' => App.total st' = 1 /\ App.score st' = 1
  | None => False
  end.
Proof.
  pose proof (quiz_question_post_tallies Sample.pets Sample.noon
                Sample.session7 1 {[ "answer" := "dog" ]} [1%nat]
                Sample.spaced_quiz Sample.ask_dog eq_refl eq_refl eq_refl
                (conj eq_refl eq_refl)) as H.
  cbv zeta in H. destruct H as [_ H].
  destruct (App.quiz _) as [st'|] eqn:E; [|vm_compute in E; discriminate E].
  destruct H as (_ & Ht & Hs & _). split; [exact Ht|exact Hs].
Defined.

(** X10.  Answering a question never changes the vocabulary or the
    lessons: the languages, the words of every group and the groups of
    every set are as before, whatever the request; and the only
    progress record that can change is the one of the logged-in user
    for the group of the current question. *)
Theorem quiz_question_post_keeps_vocabulary :
  forall (db : Database.t) (clk : App.clock) (sess : App.session)
         (set_id : Z) (form : gmap string string) (rnd : tape),
    let db' := (App.quiz_question_post db clk sess set_id form rnd).1.1.1 in
    Database.languages db' = Database.languages db
    /\ Database.vocab_items db' = Database.vocab_items db
    /\ Database.set_groups db' = Database.set_groups db
    /\ (forall g, Database.fetch_group_words db' g
                  = Database.fetch_group_words db g)
    /\ (forall s, Database.fetch_set_group_ids db' s
                  = Database.fetch_set_group_ids db s)
    /\ (forall u g,
           Database.user_progress db' !! (u, g)
           <> Database.user_progress db !! (u, g) ->
           App.user_id sess = Some u
           /\ exists q, App.current_q sess = Some q /\ App.cq_group_id q = g).
Proof.
  intros db clk sess set form rnd db'.
  assert (Hkeep : Database.languages db' = Database.languages db
                  /\ Database.vocab_items db' = Database.vocab_items db
                  /\ Database.set_groups db' = Database.set_groups db
                  /\ (forall u g,
                         Database.user_progress db' !! (u, g)
                         <> Database.user_progress db !! (u, g) ->
                         App.user_id sess = Some u
                         /\ exists q, App.current_q sess = Some q
                                      /\ App.cq_group_id q = g)).
  { destruct (App.quiz sess) as [st|] eqn:Hq;
      [|unfold db', App.quiz_question_post; rewrite Hq; simpl;
        split; [reflexivity|split; [reflexivity|split; [reflexivity|]]];
        intros u g H; now destruct H].
    destruct (Z.eqb_spec (App.qs_set_id st) set) as [Hset|Hset];
      [|unfold db', App.quiz_question_post; rewrite Hq;
        apply Z.eqb_neq in Hset; rewrite Hset; simpl;
        split; [reflexivity|split; [reflexivity|split; [reflexivity|]]];
        intros u g H; now destruct H].
    pose proof (quiz_question_post_shape db clk sess set form rnd st Hq Hset)
      as Hshape.
    cbv zeta in Hshape. fold db' in Hshape.
    pose proof (after_answer_tables db clk sess form st)
      as (Hl & Hv & Hs & _).
    assert (Hprog : forall u g,
               Database.user_progress (after_answer db clk sess form st)
                 !! (u, g) <> Database.user_progress db !! (u, g) ->
               App.user_id sess = Some u
               /\ exists q, App.current_q sess = Some q
                            /\ App.cq_group_id q = g).
    { intros u g. unfold after_answer.
      destruct (App.current_q sess) as [q|]; [|intros H; now destruct H].
      destruct (App.user_id sess) as [uid|] eqn:Hu; simpl;
        [|intros H; now destruct H].
      destruct (Z.eqb_spec uid 0); [intros H; now destruct H|].
      intros H. destruct (decide ((u, g) = (uid, App.cq_group_id q)))
        as [[= -> ->]|Hne]; [eauto|].
      exfalso. apply H. now apply update_user_progress_other. }
    destruct (Quiz.generate_question _ _ _ _ _ _).1 as [[q|]|e].
    - destruct Hshape as (-> & _). auto.
    - destruct Hshape as (-> & _).
      destruct (persist_answers_fields
                  (Database.record_quiz_session
                     (after_answer db clk sess form st) (App.ts_record clk) set
                     (App.total
                        (App.set_progress_of_answer st
                           (App.grade (App.mode st) form (App.current_q sess)).2
                           (log_after sess st
                              (App.grade (App.mode st) form
                                 (App.current_q sess)).2)
                           (allowed_after (after_answer db clk sess form st)
                              clk set sess st)))
                     (App.score
                        (App.set_progress_of_answer st
                           (App.grade (App.mode st) form (App.current_q sess)).2
                           (log_after sess st
                              (App.grade (App.mode st) form
                                 (App.current_q sess)).2)
                           (allowed_after (after_answer db clk sess form st)
                              clk set sess st)))
                     (App.user_id sess)).1
                  (Database.seq_quiz_sessions
                     (after_answer db clk sess form st) + 1)
                  (log_after sess st
                     (App.grade (App.mode st) form (App.current_q sess)).2))
        as (_ & Hl' & Hv' & Hs' & _ & _ & Hp').
      rewrite Hl', Hv', Hs', Hp'. simpl. auto.
    - destruct Hshape as (-> & _). auto. }
  destruct Hkeep as (Hl & Hv & Hs & Hp).
  split; [exact Hl|]. split; [exact Hv|]. split; [exact Hs|].
  split; [|split; [|exact Hp]].
  - intros g. unfold Database.fetch_group_words, Database.group_rows,
      Database.group_items.
    now rewrite Hl, Hv.
  - intros s. unfold Database.fetch_set_group_ids. now rewrite Hs.
Qed.

(** A wrong answer leaves the words of G2 as they are. *)
Lemma quiz_question_post_keeps_vocabulary_witness :
  Database.fetch_group_words
    (App.quiz_question_post Sample.pets Sample.noon Sample.session7 1
       {[ "answer" := "katt" ]} [1%nat]).1.1.1 2
  = Database.fetch_group_words Sample.pets 2.
Proof.
  apply (quiz_question_post_keeps_vocabulary Sample.pets Sample.noon
           Sample.session7 1 {[ "answer" := "katt" ]} [1%nat]).
Defined.

(** X11.  When a request ends the quiz, the summary is stored under the
    next session id with the set, the totals shown and the user, every
    log entry is appended to the answers under that id, and earlier
    sessions are untouched; the statistics of the set then count the
    answers of the log: per group, the totals grow by the entries of the
    group and the correct counts by its correct entries. *)
Theorem finished_quiz_is_recorded :
  forall (db : Database.t) (clk : App.clock) (sess : App.session)
         (set_id : Z) (form : gmap string string) (rnd : tape)
         (st : App.quiz_state) (score total : Z),
    App.quiz sess = Some st ->
    App.qs_set_id st = set_id ->
    sessions_numbered db ->
    let out := App.quiz_question_post db clk sess set_id form rnd in
    out.1.2 = App.ResultPage score total ->
    let db' := out.1.1.1 in
    let sid := Database.seq_quiz_sessions db + 1 in
    let log :=
      log_after sess st (App.grade (App.mode st) form (App.current_q sess)).2 in
    Database.quiz_sessions db' !! sid
    = Some {| Database.s_set_id := set_id;
              Database.s_session_time := App.ts_record clk;
              Database.s_total_questions := total;
              Database.s_correct_answers := score;
              Database.s_user_id := App.user_id sess |}
    /\ (forall id, id <> sid ->
                   Database.quiz_sessions db' !! id
                   = Database.quiz_sessions db !! id)
    /\ Database.quiz_answers db'
       = Database.quiz_answers db ++ map (logged_row sid) log
    /\ total = App.total st + 1
    /\ App.quiz out.1.1.2 = None
    /\ sessions_numbered db'
    /\ (forall now g,
           total_answers db' now set_id None None g
           = (total_answers db now set_id None None g
              + length (List.filter
                          (fun e => (App.al_group_id e =? g)%Z) log))%nat
           /\ correct_answers db' now set_id None None g
              = (correct_answers db now set_id None None g
                 + length (List.filter
                             (fun e => (App.al_group_id e =? g)%Z
                                       && App.al_correct e) log))%nat).
Proof.
  intros db clk sess set form rnd st score total Hq Hset Hnum out Hres db' sid
    log.
  pose proof (quiz_question_post_shape db clk sess set form rnd st Hq Hset)
    as Hshape.
  cbv zeta in Hshape. fold out in Hshape. fold log in Hshape.
  destruct (Quiz.generate_question _ _ _ _ _ _).1 as [[q|]|e].
  - destruct Hshape as (_ & cq & _ & Hr & _). congruence.
  - destruct Hshape as (Hdb & Hsess & Hr).
    simpl App.total in Hdb, Hr. simpl App.score in Hdb, Hr.
    rewrite Hr in Hres. injection Hres as Hscore Htotal.
    pose proof (after_answer_tables db clk sess form st)
      as (Hl & Hv & Hs & Hqs & Hseq & Hqa).
    set (db1 := after_answer db clk sess form st) in *.
    set (row := {| Database.s_set_id := set;
                   Database.s_session_time := App.ts_record clk;
                   Database.s_total_questions := total;
                   Database.s_correct_answers := score;
                   Database.s_user_id := App.user_id sess |}).
    assert (Hnum1 : sessions_numbered
                      {| Database.languages := Database.languages db;
                         Database.vocab_items := Database.vocab_items db;
                         Database.set_groups := Database.set_groups db;
                         Database.quiz_sessions := Database.quiz_sessions db;
                         Database.seq_quiz_sessions :=
                           Database.seq_quiz_sessions db;
                         Database.quiz_answers := Database.quiz_answers db;
                         Database.user_progress :=
                           Database.user_progress db1 |})
      by exact Hnum.
    destruct (persist_answers_fields
                (Database.record_quiz_session db1 (App.ts_record clk) set
                   total score (App.user_id sess)).1 sid log)
      as (Ha' & Hl' & Hv' & Hs' & Hq' & Hn' & Hp').
    assert (Edb : db'
                  = {| Database.languages := Database.languages db;
                       Database.vocab_items := Database.vocab_items db;
                       Database.set_groups := Database.set_groups db;
                       Database.quiz_sessions :=
                         <[sid := row]> (Database.quiz_sessions db);
                       Database.seq_quiz_sessions := sid;
                       Database.quiz_answers :=
                         Database.quiz_answers db ++ map (logged_row sid) log;
                       Database.user_progress :=
                         Database.user_progress db1 |}).
    { unfold db'. rewrite Hdb, Htotal, Hscore, Hseq. fold sid.
      destruct (App.persist_answers _ sid log) as [l v s qs n qa up].
      simpl in Ha', Hl', Hv', Hs', Hq', Hn', Hp'.
      rewrite Hl, Hv, Hs, Hqs, Hseq, Hqa in *. fold sid in Hq', Hn'.
      subst. reflexivity. }
    pose proof (recorded_numbered _ sid row log Hnum1 eq_refl) as Hnum'.
    pose proof (recorded_totals _ sid row log Hnum1 eq_refl) as Htot.
    simpl in Hnum', Htot. rewrite <- Edb in Hnum'.
    split; [rewrite Edb; simpl; apply lookup_insert_eq|].
    split; [intros id Hne; rewrite Edb; simpl; now apply lookup_insert_ne|].
    split; [rewrite Edb; reflexivity|].
    split; [rewrite <- Htotal; reflexivity|].
    split; [rewrite Hsess; reflexivity|].
    split; [exact Hnum'|].
    intros now g. rewrite Edb. exact (Htot now g).
  - destruct Hshape as (_ & _ & Hr). congruence.
Qed.

(** The last answer of a restricted quiz of user 7 is stored as
    session 1 of the sample lesson. *)
Lemma finished_quiz_is_recorded_witness :
  Database.quiz_sessions
    (App.quiz_question_post Sample.pets Sample.noon Scenario.last_session 1
       {[ "answer" := "dog" ]} [1%nat]).1.1.1 !! 1
  = Some {| Database.s_set_id := 1;
            Database.s_session_time := 1000;
            Database.s_total_questions := 1;
            Database.s_correct_answers := 1;
            Database.s_user_id := Some 7 |}.
Proof.
  pose proof (finished_quiz_is_recorded Sample.pets Sample.noon
                Scenario.last_session 1 {[ "answer" := "dog" ]} [1%nat]
                Scenario.last_quiz 1 1 eq_refl eq_refl) as H.
  cbv zeta in H. apply H.
  - split; [intros id s Hs; simpl in Hs; rewrite lookup_empty in Hs;
            discriminate Hs|intros a []].
  - reflexivity.
Defined.

(** * Lessons *)

Section LessonsFacts.

Import Database Lessons.

Lemma set_key_present db set_id group_id :
  existsb (fun sg => (sg.1 =? set_id) && (sg.2 =? group_id)) (set_groups db)
  = true
  <-> In group_id (fetch_set_group_ids db set_id).
Proof.
  unfold fetch_set_group_ids. rewrite existsb_exists, in_map_iff. split.
  - intros ([s g] & Hin & H). simpl in H.
    apply andb_true_iff in H as [Hs Hg].
    apply Z.eqb_eq in Hs, Hg. subst. exists (set_id, group_id).
    split; [reflexivity|]. apply filter_In. simpl.
    now rewrite Z.eqb_refl.
  - intros ([s g] & <- & Hin). apply filter_In in Hin as [Hin Hs].
    simpl in Hs. exists (s, g). split; [exact Hin|]. simpl.
    apply Z.eqb_eq in Hs. subst. now rewrite !Z.eqb_refl.
Qed.

Lemma pk_le_spec (a b : Z * Z) :
  pk_le a b = true <-> pk_lt a b \/ a = b.
Proof.
  unfold pk_le, pk_lt. destruct a as [a1 a2], b as [b1 b2]. simpl.
  rewrite orb_true_iff, andb_true_iff, Z.ltb_lt, Z.eqb_eq, Z.leb_le.
  split.
  - intros [H|[-> H]]; [auto|].
    destruct (Z.eq_dec a2 b2) as [->|]; [now right|left; right; lia].
  - intros [[H|[H1 H2]]|[= -> ->]]; [auto|right; lia|right; lia].
Qed.

Lemma pk_insert_Permutation row rows : pk_insert row rows ≡ₚ row :: rows.
Proof.
  induction rows as [|r rows IH]; simpl; [reflexivity|].
  destruct (pk_le row r); [reflexivity|].
  rewrite IH. apply perm_swap.
Qed.

Lemma pk_insert_other row rows set_id :
  row.1 <> set_id ->
  List.filter (fun sg => sg.1 =? set_id) (pk_insert row rows)
  = List.filter (fun sg => sg.1 =? set_id) rows.
Proof.
  intros Hne.
  assert (Hrow : (row.1 =? set_id) = false) by now apply Z.eqb_neq.
  induction rows as [|r rows IH]; simpl; [now rewrite Hrow|].
  destruct (pk_le row r); simpl; [now rewrite Hrow|].
  now rewrite IH.
Qed.

Lemma pk_insert_sorted row rows :
  ~ In row rows ->
  StronglySorted pk_lt rows -> StronglySorted pk_lt (pk_insert row rows).
Proof.
  intros Hnot Hs. induction Hs as [|r rows Hs IH Hr]; simpl.
  - repeat constructor.
  - assert (Hne : row <> r) by (intros ->; apply Hnot; now left).
    destruct (pk_le row r) eqn:E.
    + apply pk_le_spec in E as [Hlt|]; [|contradiction].
      constructor; [now constructor|].
      constructor; [exact Hlt|].
      eapply Forall_impl; [exact Hr|]. simpl. intros b Hb.
      unfold pk_lt in *. lia.
    + constructor; [apply IH; intros H; apply Hnot; now right|].
      rewrite pk_insert_Permutation. constructor; [|exact Hr].
      assert (~ (pk_lt row r \/ row = r)) as Hn
        by (rewrite <- pk_le_spec; congruence).
      unfold pk_lt in *. destruct row as [a1 a2], r as [b1 b2].
      simpl in *.
      destruct (Z.lt_trichotomy b1 a1) as [?|[->|?]]; [auto| |tauto].
      destruct (Z.lt_trichotomy b2 a2) as [?|[->|?]]; [auto|tauto|tauto].
Qed.

(** In a table in the order of its key the groups of a set ascend. *)
Lemma fetch_set_group_ids_sorted db set_id :
  set_groups_indexed db -> StronglySorted Z.lt (fetch_set_group_ids db set_id).
Proof.
  unfold set_groups_indexed, fetch_set_group_ids.
  induction 1 as [|r rows Hs IH Hr]; simpl; [constructor|].
  destruct (Z.eqb_spec r.1 set_id) as [E|]; [|exact IH].
  simpl. constructor; [exact IH|].
  apply Forall_forall. intros g Hg. apply list_elem_of_In in Hg.
  apply in_map_iff in Hg as (r' & <- & Hin).
  apply filter_In in Hin as [Hin E']. apply Z.eqb_eq in E'.
  rewrite Forall_forall in Hr. apply list_elem_of_In in Hin.
  specialize (Hr _ Hin). unfold pk_lt in Hr. lia.
Qed.

(** Membership in the join of a group's rows. *)
Lemma group_rows_In db g name w :
  In (name, w) (group_rows db g)
  <-> exists v l, In v (vocab_items db) /\ In l (languages db)
                  /\ v_group_id v = g /\ l.1 = v_language_id v
                  /\ l.2 = name /\ v_word v = w.
Proof.
  unfold group_rows, group_items. rewrite in_flat_map. split.
  - intros (v & Hv & Hin).
    apply index_order_In, filter_In in Hv as [Hv Hg]. apply Z.eqb_eq in Hg.
    apply in_map_iff in Hin as (l & [= <- <-] & Hl).
    apply filter_In in Hl as [Hl Hid]. apply Z.eqb_eq in Hid.
    exists v, l. auto 7.
  - intros (v & l & Hv & Hl & Hg & Hid & Hname & Hw).
    exists v. split.
    + apply index_order_In, filter_In. split; [exact Hv|now apply Z.eqb_eq].
    + apply in_map_iff. exists l. split; [now rewrite Hname, Hw|].
      apply filter_In. split; [exact Hl|]. now apply Z.eqb_eq.
Qed.

Lemma translation_rows_In db group_ids lang_from lang_to sw tw :
  In (sw, tw) (translation_rows db group_ids lang_from lang_to)
  <-> exists g, In g group_ids
                /\ In (lang_from, sw) (group_rows db g)
                /\ In (lang_to, tw) (group_rows db g).
Proof.
  unfold translation_rows. split.
  - intros H. apply in_flat_map in H as (s & Hs & H).
    apply in_flat_map in H as (t & Ht & H).
    destruct (Z.eqb_spec (v_group_id s) (v_group_id t)) as [Hg|];
      [|destruct H].
    apply in_flat_map in H as (sl & Hsl & H).
    destruct (Z.eqb_spec sl.1 (v_language_id s)) as [Hsid|]; [|destruct H].
    apply in_flat_map in H as (tl & Htl & H).
    destruct ((tl.1 =? v_language_id t) && int_mem (v_group_id s) group_ids
              && String.eqb sl.2 lang_from && String.eqb tl.2 lang_to)
      eqn:E; [|destruct H].
    destruct H as [[= <- <-]|[]].
    apply andb_true_iff in E as [E Eto]. apply andb_true_iff in E as [E Efrom].
    apply andb_true_iff in E as [Etid Emem].
    apply Z.eqb_eq in Etid. apply int_mem_In in Emem.
    apply String.eqb_eq in Efrom, Eto.
    exists (v_group_id s). split; [exact Emem|].
    split; apply group_rows_In.
    + exists s, sl. auto 7.
    + exists t, tl. auto 7.
  - intros (g & Hg & Hfrom & Hto).
    apply group_rows_In in Hfrom as (s & sl & Hs & Hsl & Hsg & Hsid & Hsn & Hsw).
    apply group_rows_In in Hto as (t & tl & Ht & Htl & Htg & Htid & Htn & Htw).
    apply in_flat_map. exists s. split; [exact Hs|].
    apply in_flat_map. exists t. split; [exact Ht|].
    rewrite (proj2 (Z.eqb_eq (v_group_id s) (v_group_id t))) by congruence.
    apply in_flat_map. exists sl. split; [exact Hsl|].
    rewrite (proj2 (Z.eqb_eq _ _) Hsid).
    apply in_flat_map. exists tl. split; [exact Htl|].
    rewrite (proj2 (Z.eqb_eq _ _) Htid), Hsg, (proj2 (int_mem_In _ _) Hg).
    rewrite (proj2 (String.eqb_eq _ _) Hsn), (proj2 (String.eqb_eq _ _) Htn).
    simpl. left. congruence.
Qed.

Lemma fetch_set_translations_shape limit db set_id lang_from lang_to rows :
  fetch_set_translations limit db set_id lang_from lang_to = Some rows ->
  forall sw tw,
    In (sw, tw) rows
    <-> exists g, In g (fetch_set_group_ids db set_id)
                  /\ In (lang_from, sw) (group_rows db g)
                  /\ In (lang_to, tw) (group_rows db g).
Proof.
  unfold fetch_set_translations.
  destruct (fetch_set_group_ids db set_id) as [|g0 gs] eqn:Eg.
  - intros [= <-] sw tw. split; [intros []|intros (g & [] & _)].
  - destruct (_ <? _)%nat; [discriminate|].
    intros [= <-] sw tw. apply translation_rows_In.
Qed.

End LessonsFacts.

(** X12.  [add_group_to_set] makes the group a member of the set, once:
    a group already in the set leaves the database unchanged, a new one
    joins the groups of the set, adding twice equals adding once, no
    other set changes, and the membership table stays free of duplicates
    and in the order of its primary key, so that the groups of the set
    are listed by ascending id. *)
Theorem add_group_to_set_member :
  forall (db : Database.t) (set_id group_id : Z),
    let db' := Lessons.add_group_to_set db set_id group_id in
    In group_id (Database.fetch_set_group_ids db' set_id)
    /\ (In group_id (Database.fetch_set_group_ids db set_id) -> db' = db)
    /\ (~ In group_id (Database.fetch_set_group_ids db set_id) ->
        Database.fetch_set_group_ids db' set_id
        ≡ₚ group_id :: Database.fetch_set_group_ids db set_id)
    /\ Lessons.add_group_to_set db' set_id group_id = db'
    /\ (forall s, s <> set_id ->
                  Database.fetch_set_group_ids db' s
                  = Database.fetch_set_group_ids db s)
    /\ (List.NoDup (Database.set_groups db) ->
        List.NoDup (Database.set_groups db'))
    /\ (set_groups_indexed db ->
        set_groups_indexed db'
        /\ StronglySorted Z.lt (Database.fetch_set_group_ids db' set_id))
    /\ (forall g, Database.fetch_group_words db' g
                  = Database.fetch_group_words db g).
Proof.
  intros db set g db'.
  assert (Hsorted : set_groups_indexed db' ->
            set_groups_indexed db'
            /\ StronglySorted Z.lt (Database.fetch_set_group_ids db' set))
    by (intros H; split; [exact H|now apply fetch_set_group_ids_sorted]).
  revert Hsorted. unfold db', Lessons.add_group_to_set.
  destruct (existsb _ (Database.set_groups db)) eqn:E; intros Hsorted.
  - pose proof (proj1 (set_key_present db set g) E) as Hin.
    rewrite E. repeat split; auto; try (intros H; contradiction);
      now apply Hsorted.
  - assert (Hnot : ~ In g (Database.fetch_set_group_ids db set))
      by (rewrite <- set_key_present; congruence).
    assert (Hrow : ~ In (set, g) (Database.set_groups db)).
    { intros H. apply Hnot. unfold Database.fetch_set_group_ids.
      apply in_map_iff. exists (set, g). split; [reflexivity|].
      apply filter_In. split; [exact H|]. simpl. apply Z.eqb_refl. }
    set (db1 := {| Database.languages := Database.languages db;
                   Database.vocab_items := Database.vocab_items db;
                   Database.set_groups :=
                     Lessons.pk_insert (set, g) (Database.set_groups db);
                   Database.quiz_sessions := Database.quiz_sessions db;
                   Database.seq_quiz_sessions := Database.seq_quiz_sessions db;
                   Database.quiz_answers := Database.quiz_answers db;
                   Database.user_progress := Database.user_progress db |})
      in *.
    assert (Hperm : Database.fetch_set_group_ids db1 set
                    ≡ₚ g :: Database.fetch_set_group_ids db set).
    { unfold Database.fetch_set_group_ids, db1. simpl.
      rewrite (List_filter_Permutation _ _ _
                 (pk_insert_Permutation (set, g) (Database.set_groups db))).
      simpl. now rewrite Z.eqb_refl. }
    assert (Hmem : In g (Database.fetch_set_group_ids db1 set)).
    { apply list_elem_of_In. rewrite Hperm. now left. }
    split; [exact Hmem|].
    split; [intros H; contradiction|].
    split; [intros _; exact Hperm|].
    split.
    { assert (existsb (fun sg => (sg.1 =? set) && (sg.2 =? g))
                (Database.set_groups db1) = true) as ->; [|reflexivity].
      now apply set_key_present. }
    split.
    { intros s Hs. unfold Database.fetch_set_group_ids, db1. simpl.
      rewrite pk_insert_other; [reflexivity|simpl; congruence]. }
    split.
    { intros Hnd. simpl. apply NoDup_ListNoDup.
      rewrite pk_insert_Permutation. apply NoDup_cons.
      split; [now rewrite list_elem_of_In|now apply NoDup_ListNoDup]. }
    split; [|reflexivity].
    intros Hidx. apply Hsorted. unfold set_groups_indexed, db1. simpl.
    now apply pk_insert_sorted.
Qed.

(** Group 3 joins a lesson that holds group 5: it is listed first. *)
Lemma add_group_to_set_member_witness :
  Database.fetch_set_group_ids
    (Lessons.add_group_to_set (Lessons.add_group_to_set Sample.empty 1 5) 1 3)
    1 = [3; 5]
  /\ StronglySorted Z.lt
       (Database.fetch_set_group_ids
          (Lessons.add_group_to_set
             (Lessons.add_group_to_set Sample.empty 1 5) 1 3) 1).
Proof.
  split; [reflexivity|].
  apply (add_group_to_set_member (Lessons.add_group_to_set Sample.empty 1 5)
           1 3).
  repeat constructor.
Defined.

(** X13.  [fetch_set_translations] returns exactly the pairs
    (source word, target word) of the groups of the set that have a
    word in both languages; an empty set gives the empty list without a
    query, and the query fails only when the set has more groups than the
    statement can bind. *)
Theorem fetch_set_translations_pairs :
  forall (max_variables : nat) (db : Database.t) (set_id : Z)
         (lang_from lang_to : string),
    let result :=
      Lessons.fetch_set_translations max_variables db set_id lang_from
        lang_to in
    let groups := Database.fetch_set_group_ids db set_id in
    (forall rows, result = Some rows ->
       forall sw tw,
         In (sw, tw) rows
         <-> exists g, In g groups
                       /\ In (lang_from, sw) (Database.group_rows db g)
                       /\ In (lang_to, tw) (Database.group_rows db g))
    /\ (groups = [] -> result = Some [])
    /\ (result = None
        <-> groups <> [] /\ (max_variables < length groups + 2)%nat).
Proof.
  intros limit db set from to result groups.
  unfold result, Lessons.fetch_set_translations. fold groups.
  destruct groups as [|g0 gs] eqn:Eg.
  - split; [|split; [reflexivity|]].
    + intros rows [= <-] sw tw. split; [intros []|intros (g & [] & _)].
    + split; [discriminate|intros [H _]; now destruct H].
  - destruct (Nat.ltb_spec limit (length (g0 :: gs) + 2)) as [Hlim|Hlim].
    + split; [discriminate|]. split; [discriminate|].
      split; [intros _; split; [discriminate|exact Hlim]|reflexivity].
    + split; [|split; [discriminate|]].
      * intros rows [= <-] sw tw. apply translation_rows_In.
      * split; [discriminate|]. intros [_ H]. lia.
Qed.

(** Swedish to English on the sample lesson. *)
Lemma fetch_set_translations_pairs_witness :
  In ("hund", "dog")
    (default [] (Lessons.fetch_set_translations 999 Sample.pets 1
                   "Swedish" "English")).
Proof.
  pose proof (fetch_set_translations_pairs 999 Sample.pets 1
                "Swedish" "English") as H.
  cbv zeta in H. destruct H as (H & _).
  apply (H [("hund", "dog"); ("katt", "cat")] eq_refl).
  exists 1. split; [now left|]. split; [now left|right; now left].
Defined.

(** X14.  A question drawn for two requested languages is one of the
    translations of the set: its words are a pair of
    [fetch_set_translations] for the requested direction or, under
    [random_direction], for the opposite one. *)
Theorem generate_question_is_translation :
  forall (max_variables : nat) (db : Database.t) (set_id : Z)
         (a b : string) (random_direction : bool) (allowed : option (list Z))
         (rnd : tape) (q : Quiz.Question) (forth back : list (string * string)),
    (Quiz.generate_question db set_id (Some [a; b]) random_direction allowed
       rnd).1 = Ret (Some q) ->
    Lessons.fetch_set_translations max_variables db set_id a b = Some forth ->
    Lessons.fetch_set_translations max_variables db set_id b a = Some back ->
    (Quiz.source_language q = a /\ Quiz.target_language q = b
     /\ In (Quiz.source_word q, Quiz.target_word q) forth)
    \/ (random_direction = true
        /\ Quiz.source_language q = b /\ Quiz.target_language q = a
        /\ In (Quiz.source_word q, Quiz.target_word q) back).
Proof.
  intros limit db set a b rdir allowed rnd q forth back Hq Hforth Hback.
  rewrite generate_question_fetch in Hq.
  destruct (Database.fetch_random_group_and_direction db set (Some [a; b])
              rdir allowed rnd).1 as [[[[[[g sl] sw] tl] tw]|]|e] eqn:Ef;
    try discriminate.
  injection Hq as <-. simpl.
  apply fetch_random_sound in Ef as (Hpool & Hs & Ht & options & Hc & Hopt).
  apply candidate_pool_In in Hpool as [Hset _].
  apply dict_of_rows_In in Hs, Ht.
  unfold Database.candidate_pairs in Hc.
  destruct (negb _ || negb _); [discriminate|]. injection Hc as <-.
  pose proof (fetch_set_translations_shape limit db set) as Hshape.
  destruct Hopt as [[[= <- <-]|[]]|(Hr & _ & [[= <- <-]|[]])].
  - left. split; [reflexivity|]. split; [reflexivity|].
    apply (Hshape a b forth Hforth). eauto.
  - right. split; [exact Hr|]. split; [reflexivity|]. split; [reflexivity|].
    apply (Hshape b a back Hback). eauto.
Qed.

(** The sample lesson asked between Swedish and English. *)
Lemma generate_question_is_translation_witness :
  In ("hund", "dog")
    [("hund", "dog"); ("katt", "cat")]
  \/ (false = true /\ In ("hund", "dog") [("dog", "hund"); ("cat", "katt")]).
Proof.
  destruct (generate_question_is_translation 999 Sample.pets 1
              "Swedish" "English" false None [1%nat] Sample.hund_dog
              [("hund", "dog"); ("katt", "cat")]
              [("dog", "hund"); ("cat", "katt")]
              eq_refl eq_refl eq_refl)
    as [(_ & _ & H)|(Hr & _ & _ & H)]; [left|right]; auto.
Defined.

(** * Session statistics *)

Section StatsFacts.

Import Database Lessons.

Lemma sum_unit_interval (l : list Q) :
  (forall x, In x l -> 0 <= x <= 1)%Q ->
  (0 <= fold_right Qplus 0 l <= inject_Z (Z.of_nat (length l)))%Q.
Proof.
  induction l as [|x l IH]; intros H.
  - simpl. split; apply Qle_refl.
  - destruct (IH (fun y Hy => H y (or_intror Hy))) as [IH0 IH1].
    destruct (H x (or_introl eq_refl)) as [Hx0 Hx1].
    simpl fold_right. split.
    + change 0%Q with (0 + 0)%Q. now apply Qplus_le_compat.
    + simpl length. rewrite Nat2Z.inj_succ, <- Z.add_1_l, inject_Z_plus.
      now apply Qplus_le_compat.
Qed.

Lemma sum_nonneg (l : list Q) :
  (forall x, In x l -> 0 <= x)%Q -> (0 <= fold_right Qplus 0 l)%Q.
Proof.
  induction l as [|x l IH]; intros H; simpl; [apply Qle_refl|].
  change 0%Q with (0 + 0)%Q. apply Qplus_le_compat; [apply H; now left|].
  apply IH. intros y Hy. apply H. now right.
Qed.

Lemma length_pos_Q {A : Type} (x : A) (l : list A) :
  (0 < inject_Z (Z.of_nat (length (x :: l))))%Q.
Proof. change 0%Q with (inject_Z 0). rewrite <- Zlt_Qlt. simpl length. lia. Qed.

Lemma sql_avg_unit_interval (l : list Q) :
  (forall x, In x l -> 0 <= x <= 1)%Q ->
  (0 <= or_zero (sql_avg l) <= 1)%Q.
Proof.
  intros H. destruct l as [|x l]; simpl or_zero; [split; [apply Qle_refl|discriminate]|].
  destruct (sum_unit_interval (x :: l) H) as [H0 H1].
  pose proof (length_pos_Q x l) as Hpos.
  split.
  - apply Qle_shift_div_l; [exact Hpos|]. now rewrite Qmult_0_l.
  - apply Qle_shift_div_r; [exact Hpos|]. now rewrite Qmult_1_l.
Qed.

Lemma sql_avg_nonneg (l : list Q) :
  (forall x, In x l -> 0 <= x)%Q -> (0 <= or_zero (sql_avg l))%Q.
Proof.
  intros H. destruct l as [|x l]; simpl or_zero; [apply Qle_refl|].
  apply Qle_shift_div_l; [exact (length_pos_Q x l)|]. rewrite Qmult_0_l.
  now apply (sum_nonneg (x :: l)).
Qed.

Lemma session_ratio_unit_interval s r :
  0 <= s_correct_answers s <= s_total_questions s ->
  session_ratio s = Some r -> (0 <= r <= 1)%Q.
Proof.
  intros Hs. unfold session_ratio.
  destruct (Z.eqb_spec (s_total_questions s) 0); [discriminate|].
  intros [= <-].
  assert (0 < inject_Z (s_total_questions s))%Q as Hpos
    by (change 0%Q with (inject_Z 0); rewrite <- Zlt_Qlt; lia).
  split.
  - apply Qle_shift_div_l; [exact Hpos|]. rewrite Qmult_0_l.
    change 0%Q with (inject_Z 0). rewrite <- Zle_Qle. lia.
  - apply Qle_shift_div_r; [exact Hpos|]. rewrite Qmult_1_l.
    rewrite <- Zle_Qle. lia.
Qed.

Lemma matching_sessions_In db now set_id since_days user_id s :
  In s (matching_sessions db now set_id since_days user_id)
  <-> (exists id, quiz_sessions db !! id = Some s)
      /\ session_where now set_id since_days user_id s = true.
Proof.
  unfold matching_sessions. rewrite filter_In, in_map_iff.
  apply and_iff_compat_r. split.
  - intros ([id s'] & <- & Hin). exists id.
    now apply elem_of_map_to_list, list_elem_of_In.
  - intros (id & Hid). exists (id, s). split; [reflexivity|].
    now apply list_elem_of_In, elem_of_map_to_list.
Qed.

End StatsFacts.

(** X15.  [get_stats] never divides by zero: for a set without
    recorded sessions it reports zero sessions and zero averages, and
    when every session has between 0 and [total_questions] correct
    answers the average score is not negative and the average ratio
    lies between 0 and 1. *)
Theorem get_stats_bounds :
  forall (db : Database.t) (now set_id : Z) (since_days user_id : option Z),
    let st := Lessons.get_stats db now set_id since_days user_id in
    0 <= Lessons.total_sessions st
    /\ ((forall id s, Database.quiz_sessions db !! id = Some s ->
                      Database.s_set_id s <> set_id) ->
        st = {| Lessons.total_sessions := 0;
                Lessons.avg_correct := 0;
                Lessons.avg_ratio := 0 |})
    /\ ((forall id s, Database.quiz_sessions db !! id = Some s ->
                      0 <= Database.s_correct_answers s
                        <= Database.s_total_questions s) ->
        (0 <= Lessons.avg_correct st)%Q
        /\ (0 <= Lessons.avg_ratio st <= 1)%Q).
Proof.
  intros db now set since user st. unfold st, Lessons.get_stats.
  split; [simpl; lia|]. split.
  - intros Hnone.
    assert (Lessons.matching_sessions db now set since user = []) as ->;
      [|reflexivity].
    destruct (Lessons.matching_sessions db now set since user) as [|s l] eqn:E;
      [reflexivity|].
    assert (In s (Lessons.matching_sessions db now set since user)) as Hin
      by (rewrite E; now left).
    apply matching_sessions_In in Hin as [[id Hid] Hw].
    unfold Database.session_where in Hw.
    apply andb_true_iff in Hw as [Hw _]. apply andb_true_iff in Hw as [Hw _].
    apply Z.eqb_eq in Hw. destruct (Hnone id s Hid Hw).
  - intros Hrange.
    assert (Hrows : forall s,
               In s (Lessons.matching_sessions db now set since user) ->
               0 <= Database.s_correct_answers s
                 <= Database.s_total_questions s).
    { intros s Hin. apply matching_sessions_In in Hin as [[id Hid] _].
      exact (Hrange id s Hid). }
    simpl. split.
    + apply sql_avg_nonneg. intros x Hx.
      apply in_map_iff in Hx as (s & <- & Hs).
      change 0%Q with (inject_Z 0). rewrite <- Zle_Qle.
      apply (Hrows s Hs).
    + apply sql_avg_unit_interval. intros x Hx.
      apply list_elem_of_In, list_elem_of_omap in Hx as (s & Hs & Hr).
      apply list_elem_of_In in Hs.
      exact (session_ratio_unit_interval s x (Hrows s Hs) Hr).
Qed.

(** The sample history: one session with 5 of 6 correct. *)
Lemma get_stats_bounds_witness :
  (0 <= Lessons.avg_ratio
          (Lessons.get_stats Sample.pets_history 1000 1 None None) <= 1)%Q
  /\ Lessons.get_stats Sample.pets 1000 1 None None
     = {| Lessons.total_sessions := 0;
          Lessons.avg_correct := 0;
          Lessons.avg_ratio := 0 |}.
Proof.
  split.
  - pose proof (get_stats_bounds Sample.pets_history 1000 1 None None) as H.
    cbv zeta in H. destruct H as (_ & _ & H). apply H.
    intros id s Hs. simpl in Hs.
    apply lookup_singleton_Some in Hs as [_ <-]. simpl. lia.
  - pose proof (get_stats_bounds Sample.pets 1000 1 None None) as H.
    cbv zeta in H. destruct H as (_ & H & _). apply H.
    intros id s Hs. simpl in Hs. rewrite lookup_empty in Hs. discriminate.
Defined.

(** * Languages and vocabulary items *)

Section CatalogFacts.

Import Database Catalog.

Lemma dict_set_fresh d k v : dict_mem d k = false -> dict_set d k v = d ++ [(k, v)].
Proof.
  unfold dict_mem. induction d as [|[k' v'] d IH]; simpl; [reflexivity|].
  destruct (String.eqb k' k); [discriminate|].
  intros H. now rewrite IH.
Qed.

Lemma dict_get_app d d' k :
  dict_get (d ++ d') k
  = match dict_get d k with Some v => Some v | None => dict_get d' k end.
Proof.
  induction d as [|[k' v'] d IH]; simpl; [reflexivity|].
  now destruct (String.eqb k' k).
Qed.

Lemma dict_get_None d k : dict_get d k = None <-> ~ In k (dict_keys d).
Proof.
  rewrite <- dict_mem_keys. unfold dict_mem.
  destruct (dict_get d k); split; try congruence; intros H; now destruct H.
Qed.

(** A list of rows with distinct keys is its own dict. *)
Lemma dict_of_rows_distinct rows :
  List.NoDup (map fst rows) -> dict_of_rows rows = rows.
Proof.
  unfold dict_of_rows.
  assert (H : forall d, List.NoDup (map fst (d ++ rows)) ->
                        fold_left (fun d kv => dict_set d kv.1 kv.2) rows d
                        = d ++ rows).
  { induction rows as [|[k v] rows IH]; intros d Hnd; simpl.
    - now rewrite app_nil_r.
    - rewrite dict_set_fresh.
      + rewrite IH; [now rewrite <- app_assoc|].
        now rewrite <- app_assoc.
      + destruct (dict_mem d k) eqn:E; [|reflexivity]. exfalso.
        apply dict_mem_keys in E. rewrite map_app in Hnd. simpl in Hnd.
        apply NoDup_remove_2 in Hnd. apply Hnd, in_or_app. now left. }
  intros Hnd. now apply (H []).
Qed.

Lemma NoDup_map_eq {A B : Type} (f : A -> B) (l : list A) (x y : A) :
  List.NoDup (map f l) -> In x l -> In y l -> f x = f y -> x = y.
Proof.
  induction l as [|a l IH]; simpl; [intros _ []|].
  intros Hnd Hx Hy E. inversion Hnd as [|? ? Hnotin Hnd']; subst.
  destruct Hx as [<-|Hx], Hy as [<-|Hy]; auto.
  - exfalso. apply Hnotin. rewrite E. now apply in_map.
  - exfalso. apply Hnotin. rewrite <- E. now apply in_map.
Qed.

Lemma NoDup_map_filter {A B : Type} (f : A -> B) (p : A -> bool) (l : list A) :
  List.NoDup (map f l) -> List.NoDup (map f (List.filter p l)).
Proof.
  induction l as [|a l IH]; simpl; [auto|].
  intros Hnd. inversion Hnd as [|? ? Hnotin Hnd']; subst.
  destruct (p a); simpl; [|auto]. constructor; [|auto].
  intros Hin. apply Hnotin. apply in_map_iff in Hin as (x & E & Hx).
  apply filter_In in Hx as [Hx _]. apply in_map_iff. eauto.
Qed.

Lemma flat_map_ext_in {A B : Type} (f g : A -> list B) (l : list A) :
  (forall a, In a l -> f a = g a) -> flat_map f l = flat_map g l.
Proof.
  induction l as [|a l IH]; simpl; intros H; [reflexivity|].
  rewrite (H a (or_introl eq_refl)), IH; auto.
Qed.

Lemma group_items_In db g v :
  In v (group_items db g) <-> In v (vocab_items db) /\ v_group_id v = g.
Proof.
  unfold group_items. rewrite index_order_In, filter_In.
  now rewrite Z.eqb_eq.
Qed.

Lemma group_rows_items db g :
  group_rows db g = flat_map (item_rows (languages db) g) (group_items db g).
Proof.
  unfold group_rows. apply flat_map_ext_in. intros v Hv.
  apply group_items_In in Hv as [_ Hg]. unfold item_rows.
  now rewrite (proj2 (Z.eqb_eq _ _) Hg).
Qed.

Lemma item_rows_filter ls g vs :
  flat_map (item_rows ls g) (List.filter (fun v => v_group_id v =? g) vs)
  = flat_map (item_rows ls g) vs.
Proof.
  induction vs as [|v vs IH]; simpl; [reflexivity|].
  destruct (v_group_id v =? g) eqn:E; simpl; [now rewrite IH|].
  unfold item_rows at 2. now rewrite E.
Qed.

(** The rows of a group are those of its items, whatever the order. *)
Lemma group_rows_storage db g :
  group_rows db g ≡ₚ flat_map (item_rows (languages db) g) (vocab_items db).
Proof.
  rewrite group_rows_items. unfold group_items.
  rewrite <- (item_rows_filter (languages db) g (vocab_items db)).
  apply Permutation_flat_map, index_order_Permutation.
Qed.

Lemma item_rows_In ls g v name w :
  In (name, w) (item_rows ls g v)
  <-> v_group_id v = g /\ v_word v = w /\ In (v_language_id v, name) ls.
Proof.
  unfold item_rows. destruct (Z.eqb_spec (v_group_id v) g) as [Hg|Hg].
  - rewrite in_map_iff. split.
    + intros ([i n] & [= <- <-] & Hin). apply filter_In in Hin as [Hin Hi].
      simpl in Hi. apply Z.eqb_eq in Hi. subst i. auto.
    + intros (_ & <- & Hin). exists (v_language_id v, name).
      split; [reflexivity|]. apply filter_In. split; [exact Hin|].
      simpl. apply Z.eqb_refl.
  - split; [intros []|intros [? _]; contradiction].
Qed.

Lemma items_rows_NoDup ls g vs :
  List.NoDup (map fst ls) -> List.NoDup (map snd ls) ->
  List.NoDup (map (fun v => (v_group_id v, v_language_id v)) vs) ->
  List.NoDup (map fst (flat_map (item_rows ls g) vs)).
Proof.
  intros Hids Hnames. induction vs as [|v vs IH]; simpl; [constructor|].
  intros Hkeys. inversion Hkeys as [|? ? Hnotin Hkeys']; subst.
  rewrite map_app. apply NoDup_ListNoDup, NoDup_app. repeat split.
  - apply NoDup_ListNoDup. unfold item_rows.
    destruct (v_group_id v =? g); [|constructor].
    rewrite map_map. simpl. now apply NoDup_map_filter.
  - intros name Hin Hin'. apply list_elem_of_In in Hin, Hin'.
    apply in_map_iff in Hin as ([n w] & <- & Hin).
    apply in_map_iff in Hin' as ([n' w'] & E & Hin'). simpl in E. subst n'.
    apply item_rows_In in Hin as (Hg & _ & Hl).
    apply in_flat_map in Hin' as (v' & Hv' & Hin').
    apply item_rows_In in Hin' as (Hg' & _ & Hl').
    assert ((v_language_id v, n) = (v_language_id v', n)) as E
      by (apply (NoDup_map_eq snd ls); auto).
    apply Hnotin. apply in_map_iff. exists v'. split; [|exact Hv'].
    injection E as E. now rewrite Hg, Hg', E.
  - apply NoDup_ListNoDup. now apply IH.
Qed.

Lemma group_rows_NoDup db g :
  catalog_wf db -> List.NoDup (map fst (group_rows db g)).
Proof.
  intros (Hids & Hnames & Hkeys & _).
  apply NoDup_ListNoDup. rewrite group_rows_storage.
  apply NoDup_ListNoDup. now apply items_rows_NoDup.
Qed.

Lemma fetch_group_words_rows db g :
  catalog_wf db -> fetch_group_words db g = group_rows db g.
Proof.
  intros Hwf. unfold fetch_group_words.
  apply dict_of_rows_distinct. now apply group_rows_NoDup.
Qed.

(** Rows with distinct keys are looked up by membership. *)
Lemma dict_get_distinct rows k v :
  List.NoDup (map fst rows) -> (dict_get rows k = Some v <-> In (k, v) rows).
Proof.
  intros Hnd. split; [apply dict_get_In|].
  induction rows as [|[k' v'] rows IH]; simpl; [intros []|].
  inversion Hnd as [|? ? Hnotin Hnd']; subst.
  intros [[= -> ->]|Hin]; [now rewrite String.eqb_refl|].
  destruct (String.eqb_spec k' k) as [->|]; [|auto].
  exfalso. apply Hnotin. apply in_map_iff. now exists (k, v).
Qed.

Lemma max_id_ge ids i : In i ids -> i <= max_id ids.
Proof.
  unfold max_id. induction ids as [|j ids IH]; simpl; [intros []|].
  intros [->|H]; [lia|]. specialize (IH H). lia.
Qed.

Lemma next_language_id_fresh st :
  ~ In (next_language_id st) (map fst (languages (base st))).
Proof.
  intros H. apply max_id_ge in H. unfold next_language_id in H. lia.
Qed.

Lemma find_name_Some ls name row :
  List.find (fun l : Z * string => String.eqb l.2 name) ls = Some row ->
  In row ls /\ row.2 = name.
Proof.
  intros H. apply find_some in H as [Hin E].
  split; [exact Hin|now apply String.eqb_eq].
Qed.

Lemma find_name_None ls name :
  List.find (fun l : Z * string => String.eqb l.2 name) ls = None
  <-> ~ In name (map snd ls).
Proof.
  split.
  - intros H Hin. apply in_map_iff in Hin as (l & E & Hl).
    pose proof (find_none _ _ H l Hl) as Hn. simpl in Hn.
    rewrite E, String.eqb_refl in Hn. discriminate.
  - intros H. destruct (List.find _ ls) as [row|] eqn:E; [|reflexivity].
    apply find_name_Some in E as [Hin <-]. exfalso. apply H. now apply in_map.
Qed.

(** Items that refer to known languages do not see a new language. *)
Lemma item_rows_new_language ls g v id name :
  In (v_language_id v) (map fst ls) -> ~ In id (map fst ls) ->
  item_rows (ls ++ [(id, name)]) g v = item_rows ls g v.
Proof.
  intros Hin Hfresh. unfold item_rows.
  destruct (v_group_id v =? g); [|reflexivity].
  rewrite List.filter_app. simpl.
  destruct (Z.eqb_spec id (v_language_id v)) as [->|]; [contradiction|].
  now rewrite app_nil_r.
Qed.

(** What [get_language_id] does to a well-formed catalog. *)
Lemma get_language_id_facts st name code :
  catalog_wf (base st) ->
  let st' := (get_language_id st name code).1 in
  let id := (get_language_id st name code).2 in
  In (id, name) (languages (base st'))
  /\ catalog_wf (base st')
  /\ (In name (map snd (languages (base st))) -> st' = st)
  /\ (forall l, In l (languages (base st)) -> In l (languages (base st')))
  /\ vocab_items (base st') = vocab_items (base st)
  /\ (forall g, group_rows (base st') g = group_rows (base st) g)
  /\ (~ In name (map snd (languages (base st))) ->
      ~ In id (map fst (languages (base st)))).
Proof.
  intros (Hids & Hnames & Hkeys & Href). unfold get_language_id.
  destruct (List.find _ (languages (base st))) as [row|] eqn:E; simpl.
  - apply find_name_Some in E as [Hin <-].
    split; [now destruct row|].
    repeat split; auto. intros Hn. exfalso. apply Hn. now apply in_map.
  - pose proof (proj1 (find_name_None _ _) E) as Hnew.
    pose proof (next_language_id_fresh st) as Hfresh.
    split; [apply in_or_app; right; now left|].
    split.
    { repeat split; simpl.
      - rewrite map_app. apply NoDup_ListNoDup, NoDup_app. repeat split.
        + now apply NoDup_ListNoDup.
        + intros i Hi Hi'. apply list_elem_of_singleton in Hi'. subst i.
          now apply list_elem_of_In in Hi.
        + apply NoDup_singleton.
      - rewrite map_app. apply NoDup_ListNoDup, NoDup_app. repeat split.
        + now apply NoDup_ListNoDup.
        + intros n Hn Hn'. apply list_elem_of_singleton in Hn'. subst n.
          now apply list_elem_of_In in Hn.
        + apply NoDup_singleton.
      - exact Hkeys.
      - intros v Hv. rewrite map_app. apply in_or_app. left. now apply Href. }
    split; [intros H; contradiction|].
    split; [intros l Hl; apply in_or_app; now left|].
    split; [reflexivity|].
    split; [|intros _; exact Hfresh].
    intros g. rewrite !group_rows_items. unfold group_items. simpl.
    apply flat_map_ext_in. intros v Hv.
    apply index_order_In, filter_In in Hv as [Hv _].
    apply item_rows_new_language; [now apply Href|exact Hfresh].
Qed.

End CatalogFacts.

Section VocabFacts.

Import Database Catalog.

Lemma filter_id_single (ls : list (Z * string)) i n :
  List.NoDup (map fst ls) -> In (i, n) ls ->
  List.filter (fun l => l.1 =? i) ls = [(i, n)].
Proof.
  induction ls as [|[j m] ls IH]; simpl; [intros _ []|].
  intros Hnd Hin. inversion Hnd as [|? ? Hnotin Hnd']; subst.
  destruct Hin as [[= -> ->]|Hin].
  - rewrite Z.eqb_refl. f_equal. apply filter_none. intros [j m] Hl. simpl.
    apply Z.eqb_neq. intros ->. apply Hnotin. apply in_map_iff.
    now exists (i, m).
  - destruct (Z.eqb_spec j i) as [->|]; [|auto].
    exfalso. apply Hnotin. apply in_map_iff. now exists (i, n).
Qed.

Lemma find_name_unique (ls : list (Z * string)) i n :
  List.NoDup (map snd ls) -> In (i, n) ls ->
  List.find (fun l => String.eqb l.2 n) ls = Some (i, n).
Proof.
  intros Hnd Hin.
  destruct (List.find _ ls) as [row|] eqn:E.
  - apply find_name_Some in E as [Hrow Hn]. f_equal.
    apply (NoDup_map_eq snd ls); auto.
  - apply find_name_None in E. exfalso. apply E.
    apply in_map_iff. now exists (i, n).
Qed.

Lemma item_rows_known ls g v n :
  List.NoDup (map fst ls) -> In (v_language_id v, n) ls ->
  item_rows ls g v = if v_group_id v =? g then [(n, v_word v)] else [].
Proof.
  intros Hnd Hin. unfold item_rows.
  destruct (v_group_id v =? g); [|reflexivity].
  now rewrite (filter_id_single ls _ n Hnd Hin).
Qed.

Lemma key_present vs g i :
  existsb (fun v => (v_group_id v =? g) && (v_language_id v =? i)) vs = true
  <-> exists v, In v vs /\ v_group_id v = g /\ v_language_id v = i.
Proof.
  rewrite existsb_exists. split; intros (v & Hv & H); exists v.
  - apply andb_true_iff in H as [Hg Hi]. apply Z.eqb_eq in Hg, Hi. auto.
  - destruct H as [-> ->]. now rewrite !Z.eqb_refl.
Qed.

(** The word a well-formed catalog holds for a group and a language. *)
Lemma group_word db g name w :
  catalog_wf db ->
  (dict_get (fetch_group_words db g) name = Some w
   <-> exists v, In v (vocab_items db) /\ v_group_id v = g /\ v_word v = w
                 /\ In (v_language_id v, name) (languages db)).
Proof.
  intros Hwf. rewrite (fetch_group_words_rows db g Hwf).
  rewrite (dict_get_distinct _ _ _ (group_rows_NoDup db g Hwf)).
  rewrite <- list_elem_of_In, group_rows_storage, list_elem_of_In.
  rewrite in_flat_map.
  split; intros (v & Hv & H); exists v.
  - apply item_rows_In in H. tauto.
  - split; [exact Hv|]. apply item_rows_In. tauto.
Qed.

Lemma option_eq_iff {A : Type} (a b : option A) :
  (forall x, a = Some x <-> b = Some x) -> a = b.
Proof.
  intros H. destruct a as [x|], b as [y|]; auto.
  - symmetry. now apply (H x).
  - symmetry. now apply (H x).
  - now apply (H y).
Qed.

(** What [add_vocab_item] does to a well-formed catalog. *)
Lemma add_vocab_item_facts st g name word :
  catalog_wf (base st) ->
  let st' := add_vocab_item st g name word in
  catalog_wf (base st')
  /\ (forall g' n w,
         dict_get (fetch_group_words (base st') g') n = Some w
         <-> dict_get (fetch_group_words (base st) g') n = Some w
             \/ (g' = g /\ n = name /\ w = word
                 /\ dict_get (fetch_group_words (base st) g) name = None))
  /\ (forall g', g' <> g ->
                 group_rows (base st') g' = group_rows (base st) g')
  /\ (dict_mem (group_rows (base st) g) name = true ->
      forall g', group_rows (base st') g' = group_rows (base st) g')
  /\ set_groups (base st') = set_groups (base st)
  /\ user_progress (base st') = user_progress (base st)
  /\ quiz_sessions (base st') = quiz_sessions (base st)
  /\ quiz_answers (base st') = quiz_answers (base st).
Proof.
  intros Hwf. unfold add_vocab_item.
  pose proof (get_language_id_facts st name None Hwf)
    as (Hin & Hwf1 & _ & _ & Hvoc & Hrows & _).
  assert (Htab : set_groups (base (get_language_id st name None).1)
                 = set_groups (base st)
                 /\ user_progress (base (get_language_id st name None).1)
                    = user_progress (base st)
                 /\ quiz_sessions (base (get_language_id st name None).1)
                    = quiz_sessions (base st)
                 /\ quiz_answers (base (get_language_id st name None).1)
                    = quiz_answers (base st)).
  { unfold get_language_id.
    destruct (List.find _ (languages (base st))); repeat split. }
  destruct (get_language_id st name None) as [st1 id]. simpl in *.
  assert (Hwords : forall g', fetch_group_words (base st1) g'
                              = fetch_group_words (base st) g')
    by (intros g'; unfold fetch_group_words; now rewrite Hrows).
  pose proof Hwf1 as (Hids & Hnames & Hkeys & Href).
  assert (Hmem : dict_mem (group_rows (base st) g) name = true
                 <-> exists v, In v (vocab_items (base st1))
                               /\ v_group_id v = g /\ v_language_id v = id).
  { rewrite <- Hrows, dict_mem_keys. unfold dict_keys.
    rewrite in_map_iff. split.
    - intros ([n w] & E & Hr). simpl in E. subst n.
      apply group_rows_In in Hr as (v & [i n] & Hv & Hl & Hg & Hi & Hn & _).
      simpl in Hi, Hn. subst i n. exists v. split; [exact Hv|].
      split; [exact Hg|].
      assert ((v_language_id v, name) = (id, name)) as E
        by (apply (NoDup_map_eq snd (languages (base st1))); auto).
      now injection E.
    - intros (v & Hv & Hg & Hi). exists (name, v_word v).
      split; [reflexivity|]. apply group_rows_In.
      exists v, (id, name). auto 7. }
  assert (Hnone : dict_get (fetch_group_words (base st) g) name = None
                  <-> dict_mem (group_rows (base st) g) name = false).
  { rewrite (fetch_group_words_rows _ g Hwf). unfold dict_mem.
    destruct (dict_get _ name); split; congruence. }
  destruct (existsb _ (vocab_items (base st1))) eqn:Ex.
  - apply key_present in Ex. apply Hmem in Ex.
    split; [exact Hwf1|].
    split; [|split; [intros g' _; apply Hrows|split; [intros _; exact Hrows|]]];
      [|exact Htab].
    intros g' n w. rewrite Hwords. split; [now left|].
    intros [H|(_ & _ & _ & H)]; [exact H|].
    apply Hnone in H. congruence.
  - assert (Hnot : dict_mem (group_rows (base st) g) name = false).
    { apply not_true_is_false. intros E.
      apply Hmem, key_present in E. congruence. }
    set (item := {| v_group_id := g; v_language_id := id; v_word := word |}).
    assert (Hwf2 : catalog_wf
                     (with_vocab_items (base st1)
                        (vocab_items (base st1) ++ [item]))).
    { repeat split; simpl; try assumption.
      - rewrite map_app. apply NoDup_ListNoDup, NoDup_app. repeat split.
        + now apply NoDup_ListNoDup.
        + intros k Hk Hk'. apply list_elem_of_singleton in Hk'. subst k.
          apply list_elem_of_In, in_map_iff in Hk as (v & [= Hg Hi] & Hv).
          assert (existsb (fun v => (v_group_id v =? g)
                                    && (v_language_id v =? id))
                    (vocab_items (base st1)) = true) as E
            by (apply key_present; eauto).
          congruence.
        + apply NoDup_singleton.
      - intros v Hv. apply in_app_or in Hv as [Hv|[<-|[]]]; [now apply Href|].
        simpl. apply in_map_iff. now exists (id, name). }
    split; [exact Hwf2|].
    split; [|split; [|split; [intros E; congruence|exact Htab]]].
    + intros g' n w. rewrite <- Hwords.
      rewrite (group_word _ g' n w Hwf2), (group_word _ g' n w Hwf1). simpl.
      split.
      * intros (v & Hv & Hg & Hw & Hl).
        apply in_app_or in Hv as [Hv|[<-|[]]]; [left; eauto|].
        simpl in Hg, Hw, Hl. right.
        assert ((id, n) = (id, name)) as E
          by (apply (NoDup_map_eq fst (languages (base st1))); auto).
        injection E as ->. repeat split; auto. now apply Hnone.
      * intros [(v & Hv & H)|(-> & -> & -> & _)].
        -- exists v. split; [apply in_or_app; now left|exact H].
        -- exists item. split; [apply in_or_app; right; now left|].
           simpl. auto.
    + intros g' Hne. rewrite <- (Hrows g').
      unfold group_rows, group_items. simpl.
      rewrite List.filter_app. simpl.
      destruct (Z.eqb_spec g g'); [congruence|]. now rewrite app_nil_r.
Qed.

End VocabFacts.

(** X16.  [get_language_id] gets or creates: the id it returns names the
    language, a second call returns the same id and changes nothing
    whatever code is passed, a known name leaves the catalog as it is,
    existing languages keep their ids, no two languages share an id or a
    name afterwards, and the words of every group are unchanged. *)
Theorem get_language_id_get_or_create :
  forall (st : Catalog.t) (name : string) (code code' : option string),
    catalog_wf (Catalog.base st) ->
    let st' := (Catalog.get_language_id st name code).1 in
    let id := (Catalog.get_language_id st name code).2 in
    In (id, name) (Database.languages (Catalog.base st'))
    /\ Catalog.get_language_id st' name code' = (st', id)
    /\ (In name (map snd (Database.languages (Catalog.base st))) -> st' = st)
    /\ (forall l, In l (Database.languages (Catalog.base st)) ->
                  In l (Database.languages (Catalog.base st')))
    /\ catalog_wf (Catalog.base st')
    /\ (forall g, Database.fetch_group_words (Catalog.base st') g
                  = Database.fetch_group_words (Catalog.base st) g).
Proof.
  intros st name code code' Hwf st' id.
  pose proof (get_language_id_facts st name code Hwf)
    as (Hin & Hwf' & Hknown & Hkeep & _ & Hrows & _).
  fold st' in Hin, Hwf', Hknown, Hkeep, Hrows. fold id in Hin.
  split; [exact Hin|]. split.
  - unfold Catalog.get_language_id at 1.
    destruct Hwf' as (_ & Hnames & _).
    now rewrite (find_name_unique _ id name Hnames Hin).
  - split; [exact Hknown|]. split; [exact Hkeep|]. split; [exact Hwf'|].
    intros g. unfold Database.fetch_group_words. now rewrite Hrows.
Qed.

Section VocabMore.

Import Database Catalog.

Lemma sample_wf : catalog_wf Sample.pets.
Proof.
  unfold catalog_wf. simpl. split; [|split; [|split]].
  - repeat constructor; simpl; intuition discriminate.
  - repeat constructor; simpl; intuition discriminate.
  - repeat constructor; simpl; intuition discriminate.
  - intros v [<-|[<-|[<-|[<-|[]]]]]; simpl; auto.
Qed.

End VocabMore.

(** A fourth language joins the sample catalog with id 4. *)
Lemma get_language_id_get_or_create_witness :
  (Catalog.get_language_id Scenario.pets_catalog "German" (Some "de")).2 = 4
  /\ In (4, "German")
       (Database.languages
          (Catalog.base
             (Catalog.get_language_id Scenario.pets_catalog "German"
                (Some "de")).1)).
Proof.
  split; [reflexivity|].
  pose proof (get_language_id_get_or_create Scenario.pets_catalog "German"
                (Some "de") None sample_wf) as H.
  cbv zeta in H. destruct H as (H & _). exact H.
Defined.

(** X17.  [add_vocab_item] stores the word for the group and language
    unless the group already has a word in that language, in which case
    the old word stays (first write wins) ; the other languages of the
    group, the other groups and the lessons are unchanged, a second
    call with any word changes nothing more, and the uniqueness
    constraints hold afterwards. *)
Theorem add_vocab_item_first_write_wins :
  forall (st : Catalog.t) (g : Z) (name word word2 : string),
    catalog_wf (Catalog.base st) ->
    let st' := Catalog.add_vocab_item st g name word in
    let words := Database.fetch_group_words (Catalog.base st) g in
    let words' := Database.fetch_group_words (Catalog.base st') g in
    dict_get words' name = Some (default word (dict_get words name))
    /\ (forall name', name' <> name ->
                      dict_get words' name' = dict_get words name')
    /\ (forall g', g' <> g ->
                   Database.fetch_group_words (Catalog.base st') g'
                   = Database.fetch_group_words (Catalog.base st) g')
    /\ (forall g',
           Database.fetch_group_words
             (Catalog.base (Catalog.add_vocab_item st' g name word2)) g'
           = Database.fetch_group_words (Catalog.base st') g')
    /\ (forall s, Database.fetch_set_group_ids (Catalog.base st') s
                  = Database.fetch_set_group_ids (Catalog.base st) s)
    /\ catalog_wf (Catalog.base st').
Proof.
  intros st g name word word2 Hwf st' words words'.
  pose proof (add_vocab_item_facts st g name word Hwf)
    as (Hwf' & Hget & Hother & _ & Hsets & _).
  fold st' in Hwf', Hget, Hother, Hsets.
  pose proof (add_vocab_item_facts st' g name word2 Hwf')
    as (_ & _ & _ & Hagain & _).
  assert (Hname : dict_get words' name
                  = Some (default word (dict_get words name))).
  { apply Hget. fold words. destruct (dict_get words name); simpl; auto 6. }
  split; [exact Hname|]. split; [|split; [|split; [|split]]].
  - intros name' Hne. apply option_eq_iff. intros w.
    unfold words'. rewrite Hget. fold words. split; [|now left].
    intros [H|(_ & -> & _)]; [exact H|congruence].
  - intros g' Hne. unfold Database.fetch_group_words.
    now rewrite (Hother g' Hne).
  - intros g'. unfold Database.fetch_group_words. rewrite Hagain; [reflexivity|].
    rewrite <- (fetch_group_words_rows _ g Hwf'). fold words'.
    unfold dict_mem. now rewrite Hname.
  - intros s. unfold Database.fetch_set_group_ids. now rewrite Hsets.
  - exact Hwf'.
Qed.

(** "perro" becomes the Spanish word of G1; a later "can" is ignored. *)
Lemma add_vocab_item_first_write_wins_witness :
  dict_get
    (Database.fetch_group_words
       (Catalog.base
          (Catalog.add_vocab_item Scenario.pets_catalog 1 "Spanish" "perro"))
       1) "Spanish" = Some "perro"
  /\ dict_get
       (Database.fetch_group_words
          (Catalog.base
             (Catalog.add_vocab_item Scenario.pets_catalog 1 "English" "hound"))
          1) "English" = Some "dog".
Proof.
  split.
  - pose proof (add_vocab_item_first_write_wins Scenario.pets_catalog 1
                  "Spanish" "perro" "can" sample_wf) as H.
    cbv zeta in H. destruct H as (H & _). exact H.
  - pose proof (add_vocab_item_first_write_wins Scenario.pets_catalog 1
                  "English" "hound" "can" sample_wf) as H.
    cbv zeta in H. destruct H as (H & _). exact H.
Defined.

Section WordOrder.

Import Database.

Lemma sorted_strict {A : Type} (key : A -> Z) (l : list A) :
  StronglySorted (fun a b => key a <= key b) l ->
  List.NoDup (map key l) ->
  StronglySorted (fun a b => key a < key b) l.
Proof.
  induction 1 as [|x l Hl IH Hx]; simpl; intros Hnd; [constructor|].
  inversion Hnd as [|? ? Hnotin Hnd']; subst.
  constructor; [now apply IH|].
  apply Forall_forall. intros y Hy.
  rewrite Forall_forall in Hx. specialize (Hx y Hy).
  assert (key x <> key y); [|lia].
  intros E. apply Hnotin. rewrite E. apply in_map. now apply list_elem_of_In.
Qed.

(** The items of a group have distinct languages. *)
Lemma group_items_languages db g :
  catalog_wf db -> List.NoDup (map v_language_id (group_items db g)).
Proof.
  intros (_ & _ & Hkeys & _).
  apply (NoDup_map_inv (pair g)). rewrite map_map.
  assert (E : map (fun v => (g, v_language_id v)) (group_items db g)
              = map (fun v => (v_group_id v, v_language_id v))
                  (group_items db g)).
  { apply map_ext_in. intros v Hv.
    apply group_items_In in Hv as [_ ->]. reflexivity. }
  rewrite E. apply NoDup_ListNoDup. unfold group_items.
  rewrite index_order_Permutation. apply NoDup_ListNoDup.
  now apply NoDup_map_filter.
Qed.

(** One row per item, in the order of the items. *)
Lemma item_rows_Forall2 ls g vs :
  List.NoDup (map fst ls) ->
  (forall v, In v vs ->
             v_group_id v = g /\ In (v_language_id v) (map fst ls)) ->
  Forall2 (fun entry v => entry.2 = v_word v
                          /\ In (v_language_id v, entry.1) ls)
    (flat_map (item_rows ls g) vs) vs.
Proof.
  intros Hids. induction vs as [|v vs IH]; simpl; intros Hall; [constructor|].
  destruct (Hall v (or_introl eq_refl)) as [Hg Hl].
  apply in_map_iff in Hl as ([i n] & E & Hl). simpl in E. subst i.
  rewrite (item_rows_known ls g v n Hids Hl).
  rewrite (proj2 (Z.eqb_eq _ _) Hg). simpl.
  constructor; [now split|]. apply IH. auto.
Qed.

End WordOrder.

(** X18.  In a catalog that satisfies the uniqueness constraints the
    words of a group are its vocabulary items, one entry per item and by
    ascending language id: a language maps to a word exactly when an
    item of the group holds that word in that language, and no language
    occurs twice. *)
Theorem fetch_group_words_one_per_item :
  forall (db : Database.t) (g : Z),
    catalog_wf db ->
    let words := Database.fetch_group_words db g in
    let items := Database.group_items db g in
    Forall2 (fun entry v =>
               entry.2 = Database.v_word v
               /\ In (Database.v_language_id v, entry.1)
                    (Database.languages db))
      words items
    /\ items ≡ₚ List.filter (fun v => Database.v_group_id v =? g)
                 (Database.vocab_items db)
    /\ StronglySorted
         (fun a b => Database.v_language_id a < Database.v_language_id b)
         items
    /\ List.NoDup (dict_keys words)
    /\ length words
       = length (List.filter (fun v => Database.v_group_id v =? g)
                   (Database.vocab_items db))
    /\ (forall name w,
           dict_get words name = Some w
           <-> exists v, In v (Database.vocab_items db)
                         /\ Database.v_group_id v = g
                         /\ Database.v_word v = w
                         /\ In (Database.v_language_id v, name)
                              (Database.languages db)).
Proof.
  intros db g Hwf words items.
  pose proof (fetch_group_words_rows db g Hwf) as E. fold words in E.
  assert (Hperm : items ≡ₚ List.filter (fun v => Database.v_group_id v =? g)
                            (Database.vocab_items db))
    by apply index_order_Permutation.
  assert (Hrows : Forall2 (fun entry v =>
                             entry.2 = Database.v_word v
                             /\ In (Database.v_language_id v, entry.1)
                                  (Database.languages db))
                    words items).
  { rewrite E, group_rows_items. fold items.
    destruct Hwf as (Hids & _ & _ & Href).
    apply item_rows_Forall2; [exact Hids|].
    intros v Hv. apply group_items_In in Hv as [Hv Hg]. auto. }
  split; [exact Hrows|]. split; [exact Hperm|].
  split; [|split; [|split]].
  - apply sorted_strict; [apply index_order_sorted|].
    now apply group_items_languages.
  - unfold words, Database.fetch_group_words. apply dict_of_rows_NoDup.
  - rewrite (Forall2_length _ _ _ Hrows). now rewrite Hperm.
  - intros name w. now apply group_word.
Qed.

(** The Swedish word comes first although it was entered last. *)
Lemma fetch_group_words_one_per_item_witness :
  Database.fetch_group_words Scenario.english_first 1
  = [("Swedish", "hund"); ("English", "dog")]
  /\ StronglySorted
       (fun a b => Database.v_language_id a < Database.v_language_id b)
       (Database.group_items Scenario.english_first 1).
Proof.
  split; [reflexivity|].
  pose proof (fetch_group_words_one_per_item Scenario.english_first 1) as H.
  cbv zeta in H. apply H.
  unfold catalog_wf. simpl. split; [|split; [|split]].
  - repeat constructor; simpl; intuition discriminate.
  - repeat constructor; simpl; intuition discriminate.
  - repeat constructor; simpl; intuition discriminate.
  - intros v [<-|[<-|[]]]; simpl; auto.
Defined.

Section DefaultLanguages.

Import Database Catalog.

Let ensure (ncs : list (string * string)) (st : t) : t :=
  fold_left (fun st nc => (get_language_id st nc.1 (Some nc.2)).1) ncs st.

Lemma ensure_known ncs st :
  (forall nc, In nc ncs -> In nc.1 (map snd (languages (base st)))) ->
  catalog_wf (base st) ->
  ensure ncs st = st.
Proof.
  unfold ensure.
  induction ncs as [|nc ncs IH]; simpl; intros Hall Hwf; [reflexivity|].
  destruct (get_language_id_facts st nc.1 (Some nc.2) Hwf)
    as (_ & _ & Hknown & _).
  rewrite (Hknown (Hall nc (or_introl eq_refl))).
  apply IH; auto.
Qed.

Lemma ensure_facts ncs st :
  catalog_wf (base st) ->
  catalog_wf (base (ensure ncs st))
  /\ (forall nc, In nc ncs ->
                 In nc.1 (map snd (languages (base (ensure ncs st)))))
  /\ (forall l, In l (languages (base st)) ->
                In l (languages (base (ensure ncs st))))
  /\ (forall g, group_rows (base (ensure ncs st)) g = group_rows (base st) g).
Proof.
  unfold ensure. revert st.
  induction ncs as [|nc ncs IH]; simpl; intros st Hwf.
  - split; [exact Hwf|]. split; [intros nc []|]. split; auto.
  - destruct (get_language_id_facts st nc.1 (Some nc.2) Hwf)
      as (Hin & Hwf1 & _ & Hkeep & _ & Hrows & _).
    destruct (IH _ Hwf1) as (Hwf' & Hall & Hkeep' & Hrows').
    split; [exact Hwf'|]. split; [|split].
    + intros nc' [<-|Hnc]; [|now apply Hall].
      apply in_map_iff. eexists. split; [|apply Hkeep', Hin]. reflexivity.
    + intros l Hl. now apply Hkeep', Hkeep.
    + intros g. now rewrite Hrows', Hrows.
Qed.

End DefaultLanguages.

(** X19.  [_ensure_default_languages] makes Swedish, English and
    Spanish known and is safe to repeat: running it again changes
    nothing, so opening the database a second time adds no language;
    languages already present keep their ids and the words of every
    group are unchanged. *)
Theorem ensure_default_languages_idempotent :
  forall (st : Catalog.t),
    catalog_wf (Catalog.base st) ->
    let st' := Catalog._ensure_default_languages st in
    (forall name, In name ["Swedish"; "English"; "Spanish"] ->
                  In name (map snd (Database.languages (Catalog.base st'))))
    /\ Catalog._ensure_default_languages st' = st'
    /\ (forall l, In l (Database.languages (Catalog.base st)) ->
                  In l (Database.languages (Catalog.base st')))
    /\ catalog_wf (Catalog.base st')
    /\ (forall g, Database.fetch_group_words (Catalog.base st') g
                  = Database.fetch_group_words (Catalog.base st) g).
Proof.
  intros st Hwf st'.
  destruct (ensure_facts Catalog.default_langs st Hwf)
    as (Hwf' & Hall & Hkeep & Hrows).
  fold (Catalog._ensure_default_languages st) in Hwf', Hall, Hkeep, Hrows.
  fold st' in Hwf', Hall, Hkeep, Hrows.
  split; [|split; [|split; [|split]]].
  - intros name [<-|[<-|[<-|[]]]].
    + apply (Hall ("Swedish", "sv")). now left.
    + apply (Hall ("English", "en")). right. now left.
    + apply (Hall ("Spanish", "es")). right. right. now left.
  - now apply (ensure_known Catalog.default_langs st').
  - exact Hkeep.
  - exact Hwf'.
  - intros g. unfold Database.fetch_group_words. now rewrite Hrows.
Qed.

(** The sample catalog already has the three languages. *)
Lemma ensure_default_languages_idempotent_witness :
  Catalog._ensure_default_languages
    (Catalog._ensure_default_languages Scenario.pets_catalog)
  = Catalog._ensure_default_languages Scenario.pets_catalog.
Proof.
  pose proof (ensure_default_languages_idempotent Scenario.pets_catalog
                sample_wf) as H.
  cbv zeta in H. destruct H as (_ & H & _). exact H.
Defined.

(** * The command-line session *)

Section CliFacts.

Import Database.

Variables (db : t) (set_id : Z) (languages : option (list string))
          (random_direction : bool).

Hypothesis Hwf : well_formed languages.

Let some_valid : Prop :=
  exists g, In g (fetch_set_group_ids db set_id)
            /\ has_valid_pair languages (fetch_group_words db g) = true.

(** An unrestricted draw finds a question of the set when a group has a
    valid pair and nothing otherwise. *)
Lemma draw_cases rnd :
  (some_valid
   /\ exists q rnd',
       Quiz.generate_question db set_id languages random_direction None rnd
       = (Ret (Some q), rnd')
       /\ In (Quiz.group_id q) (fetch_set_group_ids db set_id))
  \/ (~ some_valid
      /\ exists rnd',
          Quiz.generate_question db set_id languages random_direction None rnd
          = (Ret None, rnd')).
Proof.
  pose proof (generate_question_fetch db set_id languages random_direction
                None rnd) as Hg.
  destruct (existsb (fun g => has_valid_pair languages (fetch_group_words db g))
              (fetch_set_group_ids db set_id)) eqn:E.
  - left. apply existsb_exists in E. split; [exact E|].
    destruct (fetch_random_some db set_id languages random_direction None rnd
                Hwf E) as ([[[[g sl] sw] tl] tw] & Hr).
    rewrite Hr in Hg.
    destruct (Quiz.generate_question db set_id languages random_direction
                None rnd) as [out rnd'].
    simpl in Hg. subst out. eexists _, rnd'. split; [reflexivity|]. simpl.
    apply fetch_random_sound in Hr as (Hpool & _). exact Hpool.
  - right.
    assert (Hno : ~ some_valid)
      by (intros H; apply existsb_exists in H; congruence).
    split; [exact Hno|].
    assert ((fetch_random_group_and_direction db set_id languages
               random_direction None rnd).1 = Ret None) as Hr.
    { apply fetch_random_none; [exact Hwf|]. intros g Hg'.
      destruct (has_valid_pair languages (fetch_group_words db g)) eqn:Ev;
        [|reflexivity].
      exfalso. apply Hno. now exists g. }
    rewrite Hr in Hg.
    destruct (Quiz.generate_question db set_id languages random_direction
                None rnd) as [out rnd'].
    simpl in Hg. subst out. now exists rnd'.
Qed.

Lemma quiz_rounds_spec n results c rnd :
  exists new c' rnd',
    Cli.quiz_rounds db set_id languages random_direction n results c rnd
    = (Ret (results ++ new), c', rnd')
    /\ (some_valid -> length new = n)
    /\ (~ some_valid -> new = [] /\ c' = c)
    /\ length (Cli.stdout c') = (length (Cli.stdout c) + 2 * length new)%nat
    /\ Cli.stdin c' = drop (length new) (Cli.stdin c)
    /\ (forall i q correct,
           new !! i = Some (q, correct) ->
           correct = Quiz.check_answer q (strip (nth i (Cli.stdin c) ""))
           /\ In (Quiz.group_id q) (fetch_set_group_ids db set_id)).
Proof.
  revert results c rnd. induction n as [|n IH]; intros results c rnd.
  - exists [], c, rnd. simpl. rewrite app_nil_r.
    repeat split; auto; try lia; intros; discriminate.
  - simpl.
    destruct (draw_cases rnd) as [(Hv & q & rnd1 & -> & Hq)|(Hno & rnd1 & ->)].
    + destruct (Cli.read_answer
                  (Cli.print ("Translate '" ++ Quiz.source_word q ++ "' from "
                              ++ Quiz.source_language q ++ " to "
                              ++ Quiz.target_language q ++ ":")%string c))
        as [answer c1] eqn:Er.
      assert (Hans : answer = strip (nth 0 (Cli.stdin c) "")
                     /\ Cli.stdin c1 = drop 1 (Cli.stdin c)
                     /\ length (Cli.stdout c1) = S (length (Cli.stdout c))).
      { unfold Cli.read_answer, Cli.print in Er. simpl in Er.
        destruct (Cli.stdin c) as [|line rest]; injection Er as <- <-; simpl;
          rewrite length_app; simpl; repeat split; lia. }
      destruct Hans as (Hans & Hin1 & Hout1).
      set (correct := Quiz.check_answer q answer).
      destruct (IH (results ++ [(q, correct)])
                  (Cli.print (if correct then "Correct!"
                              else ("Wrong. Correct answer: "
                                    ++ Quiz.target_word q))%string c1) rnd1)
        as (new & c' & rnd' & -> & Hlen & _ & Hout & Hin & Hall).
      exists ((q, correct) :: new), c', rnd'.
      split; [now rewrite <- app_assoc|].
      split; [intros _; simpl; now rewrite (Hlen Hv)|].
      split; [intros H; contradiction|].
      split.
      { rewrite Hout. unfold Cli.print. simpl. rewrite length_app. simpl.
        lia. }
      split.
      { rewrite Hin. unfold Cli.print. simpl. rewrite Hin1.
        now rewrite drop_drop. }
      intros [|i] q' correct' Hi; simpl in Hi.
      * injection Hi as <- <-. split; [|exact Hq].
        unfold correct. now rewrite Hans.
      * destruct (Hall i q' correct' Hi) as [Hc Hg]. split; [|exact Hg].
        rewrite Hc. unfold Cli.print. simpl. rewrite Hin1.
        destruct (Cli.stdin c) as [|line rest]; simpl; [|reflexivity].
        now destruct i.
    + exists [], c, rnd1. rewrite app_nil_r. simpl.
      repeat split; auto; try lia; try contradiction; intros; discriminate.
Qed.

End CliFacts.

(** X20.  For a request that is omitted, empty or of two languages,
    [Quiz.quiz_session] never raises: it asks exactly [num_questions]
    questions of the set when some group has a valid pair and none
    otherwise, prints two lines per question, and grades the i-th
    question against the i-th input line, a missing line counting as
    the empty answer. *)
Theorem quiz_session_all_or_nothing :
  forall (db : Database.t) (set_id num_questions : Z)
         (languages : option (list string)) (random_direction : bool)
         (c : Cli.console) (rnd : tape),
    well_formed languages ->
    let some_valid :=
      exists g, In g (Database.fetch_set_group_ids db set_id)
                /\ has_valid_pair languages (Database.fetch_group_words db g)
                   = true in
    exists results c' rnd',
      Cli.quiz_session db set_id num_questions languages random_direction c rnd
      = (Ret results, c', rnd')
      /\ (some_valid -> length results = Z.to_nat num_questions)
      /\ (~ some_valid -> results = [] /\ c' = c)
      /\ length (Cli.stdout c')
         = (length (Cli.stdout c) + 2 * length results)%nat
      /\ Cli.stdin c' = drop (length results) (Cli.stdin c)
      /\ (forall i q correct,
             results !! i = Some (q, correct) ->
             correct = Quiz.check_answer q (strip (nth i (Cli.stdin c) ""))
             /\ In (Quiz.group_id q) (Database.fetch_set_group_ids db set_id)).
Proof.
  intros db set n languages rdir c rnd Hwf some_valid.
  destruct (quiz_rounds_spec db set languages rdir Hwf (Z.to_nat n) [] c rnd)
    as (new & c' & rnd' & Hrun & H).
  exists new, c', rnd'. split; [exact Hrun|exact H].
Qed.

(** Two questions on the sample lesson with one line of input. *)
Lemma quiz_session_all_or_nothing_witness :
  exists results c' rnd',
    Cli.quiz_session Sample.pets 1 2 (Some ["Swedish"; "English"]) false
      {| Cli.stdin := ["Dog "]; Cli.stdout := [] |} [1%nat; 1%nat]
    = (Ret results, c', rnd')
    /\ length results = 2%nat.
Proof.
  destruct (quiz_session_all_or_nothing Sample.pets 1 2
              (Some ["Swedish"; "English"]) false
              {| Cli.stdin := ["Dog "]; Cli.stdout := [] |} [1%nat; 1%nat]
              eq_refl)
    as (results & c' & rnd' & Hrun & Hlen & _).
  exists results, c', rnd'. split; [exact Hrun|].
  apply Hlen. exists 1. split; [now left|reflexivity].
Defined.

(** * Starting a quiz *)

Section StartFacts.

Import Database Start.

Lemma insert_by_date_In row rows s :
  In s (insert_by_date row rows) <-> s = row \/ In s rows.
Proof.
  induction rows as [|r rest IH]; simpl; [intuition|].
  destruct (import_date r <=? import_date row); simpl; [intuition|].
  rewrite IH. intuition.
Qed.

Lemma fetch_sets_In lib s : In s (fetch_sets lib) <-> In s (sets lib).
Proof.
  unfold fetch_sets. induction (sets lib) as [|r rows IH]; simpl; [tauto|].
  rewrite insert_by_date_In, IH. intuition.
Qed.

Lemma set_found lib set_id :
  List.filter (fun s => id s =? set_id) (fetch_sets lib) <> []
  <-> exists s, In s (sets lib) /\ id s = set_id.
Proof.
  split.
  - destruct (List.filter _ _) as [|s l] eqn:E; [intros H; now destruct H|].
    intros _. assert (In s (s :: l)) as Hin by now left.
    rewrite <- E in Hin. apply filter_In in Hin as [Hin Hid].
    exists s. split; [now apply fetch_sets_In|now apply Z.eqb_eq].
  - intros (s & Hs & Hid) E.
    assert (In s (List.filter (fun s => id s =? set_id) (fetch_sets lib)))
      as Hin.
    { apply filter_In. split; [now apply fetch_sets_In|now apply Z.eqb_eq]. }
    rewrite E in Hin. destruct Hin.
Qed.

(** The handler in terms of its first draw. *)
Lemma quiz_start_post_shape lib clk sess set_id form rnd :
  let allowed :=
    initial_allowed (db lib) clk set_id (App.user_id sess)
      (is_on form "spaced_repetition") (is_on form "problem_only") in
  let draw :=
    (Quiz.generate_question (db lib) set_id (selection form)
       (is_on form "random_direction") allowed rnd).1 in
  let out := quiz_start_post lib clk sess set_id form rnd in
  (List.filter (fun s => id s =? set_id) (fetch_sets lib) = [] ->
   out.1 = (sess, RedirectIndex))
  /\ (List.filter (fun s => id s =? set_id) (fetch_sets lib) <> [] ->
      match draw with
      | Raise e => out.1 = (sess, ServerError e)
      | Ret None => out.1 = (sess, RedirectIndex)
      | Ret (Some q) =>
          out.1.2 = RedirectQuestion
          /\ App.user_id out.1.1 = App.user_id sess
          /\ App.quiz out.1.1
             = Some {| App.qs_set_id := set_id;
                       App.selected_langs := selection form;
                       App.random_dir := is_on form "random_direction";
                       App.mode := match get form "mode" with
                                   | Some m => m
                                   | None => "typed"
                                   end;
                       App.spaced := is_on form "spaced_repetition";
                       App.problem_only := is_on form "problem_only";
                       App.allowed_groups := allowed;
                       App.score := 0;
                       App.total := 0;
                       App.answers := [] |}
          /\ exists cq,
              App.current_q out.1.1 = Some cq
              /\ App.cq_group_id cq = Quiz.group_id q
              /\ App.tgt_lang cq = Quiz.target_language q
              /\ App.tgt_word cq = Quiz.target_word q
      end).
Proof.
  intros allowed draw out. unfold out, quiz_start_post.
  fold (selection form). fold allowed.
  destruct (List.filter (fun s => id s =? set_id) (fetch_sets lib))
    as [|s0 l]; [split; [reflexivity|intros H; now destruct H]|].
  split; [discriminate|]. intros _. unfold draw.
  destruct (Quiz.generate_question (db lib) set_id (selection form)
              (is_on form "random_direction") allowed rnd)
    as [[[q|]|e] rnd1]; simpl; try reflexivity.
  destruct (String.eqb _ "choice");
    [destruct (App.choice_options (db lib) set_id q rnd1) as [options rnd2]|];
    simpl; repeat split; eexists; repeat split.
Qed.

End StartFacts.

(** X21.  [quiz_start] either starts a quiz or leaves the session as it
    is.  A started quiz belongs to a set that exists, has score 0, total
    0 and an empty log, asks about a group of the set that lies within
    the computed restriction, and its language selection is absent or
    the first two submitted languages. *)
Theorem quiz_start_post_begins :
  forall (lib : Start.library) (clk : App.clock) (sess : App.session)
         (set_id : Z) (form : Start.multidict) (rnd : tape),
    let out := Start.quiz_start_post lib clk sess set_id form rnd in
    match out.1.2 with
    | Start.RedirectQuestion =>
        exists st cq,
          App.quiz out.1.1 = Some st
          /\ App.current_q out.1.1 = Some cq
          /\ App.user_id out.1.1 = App.user_id sess
          /\ App.qs_set_id st = set_id
          /\ App.score st = 0 /\ App.total st = 0 /\ App.answers st = []
          /\ tallied st
          /\ (exists s, In s (Start.sets lib) /\ Start.id s = set_id)
          /\ In (App.cq_group_id cq)
               (Database.fetch_set_group_ids (Start.db lib) set_id)
          /\ (forall a, App.allowed_groups st = Some a ->
                        In (App.cq_group_id cq) a)
          /\ (App.selected_langs st = None
              \/ exists a b rest,
                  Start.getlist form "languages" = a :: b :: rest
                  /\ App.selected_langs st = Some [a; b])
    | _ => out.1.1 = sess
    end.
Proof.
  intros lib clk sess set form rnd out.
  pose proof (quiz_start_post_shape lib clk sess set form rnd) as [Hno Hyes].
  fold out in Hno, Hyes.
  destruct (List.filter (fun s => Start.id s =? set) (Start.fetch_sets lib))
    as [|s0 l] eqn:Eset.
  { rewrite (Hno eq_refl). reflexivity. }
  assert (Hfound : List.filter (fun s => Start.id s =? set)
                     (Start.fetch_sets lib) <> [])
    by (rewrite Eset; discriminate).
  specialize (Hyes ltac:(discriminate)).
  destruct (Quiz.generate_question (Start.db lib) set (selection form)
              (Start.is_on form "random_direction")
              (Start.initial_allowed (Start.db lib) clk set (App.user_id sess)
                 (Start.is_on form "spaced_repetition")
                 (Start.is_on form "problem_only")) rnd).1
    as [[q|]|e] eqn:Edraw.
  - destruct Hyes as (-> & Huid & Hquiz & cq & Hcq & Hg & _).
    rewrite generate_question_fetch in Edraw.
    destruct (Database.fetch_random_group_and_direction _ _ _ _ _ _).1
      as [[[[[[g sl] sw] tl] tw]|]|e] eqn:Ef; try discriminate.
    injection Edraw as <-. simpl in Hg.
    apply fetch_random_sound in Ef as (Hpool & _ & _ & options & Hc & _).
    apply candidate_pool_In in Hpool as [Hin Hallowed].
    eexists _, cq. split; [exact Hquiz|]. split; [exact Hcq|].
    split; [exact Huid|]. simpl.
    do 4 (split; [reflexivity|]). split; [split; reflexivity|].
    split; [now apply set_found|].
    rewrite Hg. split; [exact Hin|]. split; [exact Hallowed|].
    unfold selection in *.
    destruct (Start.getlist form "languages") as [|a [|b rest]];
      [now left| |right; now exists a, b, rest].
    simpl in Hc. discriminate.
  - now rewrite Hyes.
  - now rewrite Hyes.
Qed.

(** Swedish, English and a third language submitted for the sample
    lesson. *)
Lemma quiz_start_post_begins_witness :
  let out :=
    Start.quiz_start_post Scenario.pets_library Sample.noon
      Scenario.fresh_session 1
      {[ "languages" := ["Swedish"; "English"; "Spanish"] ]} [1%nat] in
  out.1.2 = Start.RedirectQuestion
  /\ exists st, App.quiz out.1.1 = Some st
                /\ App.selected_langs st = Some ["Swedish"; "English"].
Proof.
  intros out. split; [reflexivity|].
  pose proof (quiz_start_post_begins Scenario.pets_library Sample.noon
                Scenario.fresh_session 1
                {[ "languages" := ["Swedish"; "English"; "Spanish"] ]}
                [1%nat]) as H.
  cbv zeta in H. fold out in H.
  assert (out.1.2 = Start.RedirectQuestion) as E by reflexivity.
  rewrite E in H. destruct H as (st & cq & Hst & _).
  exists st. split; [exact Hst|].
  assert (App.quiz out.1.1
          = Some {| App.qs_set_id := 1;
                    App.selected_langs := Some ["Swedish"; "English"];
                    App.random_dir := false; App.mode := "typed";
                    App.spaced := false; App.problem_only := false;
                    App.allowed_groups := None; App.score := 0;
                    App.total := 0; App.answers := [] |}) as E'
    by reflexivity.
  rewrite E' in Hst. now injection Hst as <-.
Defined.

(** X22.  At the start an empty restriction is kept, not relaxed: with
    [problem_only] set and no problematic group, or with
    [spaced_repetition] set and no group due for the logged-in user, no
    quiz is started (the user is sent back to the index and the session
    is unchanged), whatever the set contains. *)
Theorem quiz_start_post_empty_restriction :
  forall (lib : Start.library) (clk : App.clock) (sess : App.session)
         (set_id : Z) (form : Start.multidict) (rnd : tape),
    ((Start.is_on form "problem_only" = true
      /\ Database.get_problematic_groups (Start.db lib) (App.ts_due clk)
           set_id Database.default_threshold None None = [])
     \/ (Start.is_on form "spaced_repetition" = true
         /\ exists uid, App.user_id sess = Some uid /\ uid <> 0
                        /\ Database.get_due_groups (Start.db lib)
                             (App.ts_due clk) set_id uid = [])) ->
    (Start.quiz_start_post lib clk sess set_id form rnd).1
    = (sess, Start.RedirectIndex).
Proof.
  intros lib clk sess set form rnd Hempty.
  pose proof (quiz_start_post_shape lib clk sess set form rnd) as [Hno Hyes].
  destruct (List.filter (fun s => Start.id s =? set) (Start.fetch_sets lib))
    as [|s0 l] eqn:Eset; [now apply Hno|].
  specialize (Hyes ltac:(discriminate)).
  assert (Hallowed : exists a,
             Start.initial_allowed (Start.db lib) clk set (App.user_id sess)
               (Start.is_on form "spaced_repetition")
               (Start.is_on form "problem_only") = Some a
             /\ forall g, In g (Database.fetch_set_group_ids (Start.db lib) set)
                          -> ~ In g a).
  { unfold Start.initial_allowed.
    destruct Hempty as [[-> ->]|(-> & uid & -> & Hnz & Hdue)].
    - destruct (Start.is_on form "spaced_repetition");
        [destruct (App.logged_in (App.user_id sess))|];
        eexists; (split; [reflexivity|]); intros g _ Hg;
        try (apply filter_In in Hg as [_ Hg]; discriminate Hg);
        destruct Hg.
    - simpl. destruct (Z.eqb_spec uid 0); [contradiction|]. rewrite Hdue.
      destruct (Start.is_on form "problem_only"); eexists;
        (split; [reflexivity|]); intros g _ Hg; destruct Hg. }
  destruct Hallowed as (a & Ea & Hdisjoint).
  rewrite Ea in Hyes.
  assert ((Database.fetch_random_group_and_direction (Start.db lib) set
             (selection form) (Start.is_on form "random_direction") (Some a)
             rnd).1 = Ret None) as Hnone.
  { unfold Database.fetch_random_group_and_direction.
    destruct (Database.candidate_pool (Start.db lib) set (Some a))
      as [|g pool] eqn:E; [reflexivity|].
    assert (In g (Database.candidate_pool (Start.db lib) set (Some a))) as Hin
      by (rewrite E; now left).
    apply candidate_pool_In in Hin as [Hset Ha].
    destruct (Hdisjoint g Hset (Ha a eq_refl)). }
  rewrite generate_question_fetch, Hnone in Hyes. exact Hyes.
Qed.

(** Problem-only on the sample lesson, which has no history. *)
Lemma quiz_start_post_empty_restriction_witness :
  (Start.quiz_start_post Scenario.pets_library Sample.noon
     Scenario.fresh_session 1 {[ "problem_only" := ["on"] ]} [1%nat]).1
  = (Scenario.fresh_session, Start.RedirectIndex).
Proof.
  apply (quiz_start_post_empty_restriction Scenario.pets_library Sample.noon
           Scenario.fresh_session 1 {[ "problem_only" := ["on"] ]} [1%nat]).
  left. split; reflexivity.
Defined.

(** X23.  Submitting exactly one language makes [quiz_start] fail with
    [ValueError] as soon as the restricted pool holds a group with a
    word; the session is unchanged. *)
Theorem quiz_start_post_one_language :
  forall (lib : Start.library) (clk : App.clock) (sess : App.session)
         (set_id : Z) (form : Start.multidict) (rnd : tape) (lang : string)
         (g : Z),
    (exists s, In s (Start.sets lib) /\ Start.id s = set_id) ->
    Start.getlist form "languages" = [lang] ->
    In g (Database.candidate_pool (Start.db lib) set_id
            (Start.initial_allowed (Start.db lib) clk set_id
               (App.user_id sess) (Start.is_on form "spaced_repetition")
               (Start.is_on form "problem_only"))) ->
    Database.fetch_group_words (Start.db lib) g <> [] ->
    (Start.quiz_start_post lib clk sess set_id form rnd).1
    = (sess, Start.ServerError ValueError).
Proof.
  intros lib clk sess set form rnd lang g Hset Hlang Hg Hwords.
  pose proof (quiz_start_post_shape lib clk sess set form rnd) as [_ Hyes].
  specialize (Hyes (proj2 (set_found lib set) Hset)).
  assert (Hsel : selection form = Some [lang])
    by (unfold selection; now rewrite Hlang).
  rewrite Hsel in Hyes.
  rewrite generate_question_fetch in Hyes.
  rewrite (fetch_random_malformed (Start.db lib) set (Some [lang]) _ _ rnd g)
    in Hyes; auto.
  simpl. lia.
Qed.

(** Only Swedish submitted for the sample lesson. *)
Lemma quiz_start_post_one_language_witness :
  (Start.quiz_start_post Scenario.pets_library Sample.noon
     Scenario.fresh_session 1 {[ "languages" := ["Swedish"] ]} [1%nat]).1
  = (Scenario.fresh_session, Start.ServerError ValueError).
Proof.
  apply (quiz_start_post_one_language Scenario.pets_library Sample.noon
           Scenario.fresh_session 1 {[ "languages" := ["Swedish"] ]} [1%nat]
           "Swedish" 1).
  - eexists. split; [now left|reflexivity].
  - reflexivity.
  - now left.
  - discriminate.
Defined.

(** * Finished quizzes in the statistics *)

Section FinishedStats.

Import Database Lessons.

Lemma filter_length_Permutation {A : Type} (f : A -> bool) (l k : list A) :
  l ≡ₚ k -> length (List.filter f l) = length (List.filter f k).
Proof.
  induction 1 as [|x l k _ IH|x y l|l k m _ IH1 _ IH2]; simpl.
  - reflexivity.
  - destruct (f x); simpl; now rewrite IH.
  - destruct (f x), (f y); reflexivity.
  - now rewrite IH1.
Qed.

Lemma matching_sessions_insert db db' sid row now set_id since_days user_id :
  quiz_sessions db !! sid = None ->
  quiz_sessions db' = <[sid := row]> (quiz_sessions db) ->
  length (matching_sessions db' now set_id since_days user_id)
  = ((if session_where now set_id since_days user_id row then 1 else 0)
     + length (matching_sessions db now set_id since_days user_id))%nat.
Proof.
  intros Hfresh E. unfold matching_sessions. rewrite E.
  pose proof (map_to_list_insert (quiz_sessions db) sid row Hfresh) as Hp.
  rewrite (filter_length_Permutation _ _ _ (fmap_Permutation snd _ _ Hp)).
  simpl. now destruct (session_where now set_id since_days user_id row).
Qed.

(** The sessions table after a request that ends the quiz. *)
Lemma finished_sessions db clk sess set_id form rnd st score total :
  App.quiz sess = Some st ->
  App.qs_set_id st = set_id ->
  (App.quiz_question_post db clk sess set_id form rnd).1.2
  = App.ResultPage score total ->
  quiz_sessions (App.quiz_question_post db clk sess set_id form rnd).1.1.1
  = <[seq_quiz_sessions db + 1 :=
        {| s_set_id := set_id;
           s_session_time := App.ts_record clk;
           s_total_questions := total;
           s_correct_answers := score;
           s_user_id := App.user_id sess |}]> (quiz_sessions db).
Proof.
  intros Hq Hset Hres.
  pose proof (quiz_question_post_shape db clk sess set_id form rnd st Hq Hset)
    as Hshape.
  cbv zeta in Hshape.
  destruct (Quiz.generate_question _ _ _ _ _ _).1 as [[q|]|e].
  - destruct Hshape as (_ & cq & _ & Hr & _). congruence.
  - destruct Hshape as (Hdb & _ & Hr).
    simpl App.total in Hdb, Hr. simpl App.score in Hdb, Hr.
    rewrite Hr in Hres. injection Hres as Hscore Htotal.
    rewrite Hdb.
    match goal with
    | |- context [App.persist_answers ?d ?i ?l] =>
        destruct (persist_answers_fields d i l) as (_ & _ & _ & _ & -> & _)
    end.
    simpl.
    destruct (after_answer_tables db clk sess form st)
      as (_ & _ & _ & -> & -> & _).
    now rewrite Hscore, Htotal.
  - destruct Hshape as (_ & _ & Hr). congruence.
Qed.

End FinishedStats.

(** X24.  A request that ends the quiz adds one session to the
    statistics of its set and none to those of any other set:
    [get_stats] without filters counts one session more for the set and
    the same number for every other set. *)
Theorem finished_quiz_in_stats :
  forall (db : Database.t) (clk : App.clock) (sess : App.session)
         (set_id : Z) (form : gmap string string) (rnd : tape)
         (st : App.quiz_state) (score total now other : Z),
    App.quiz sess = Some st ->
    App.qs_set_id st = set_id ->
    sessions_numbered db ->
    other <> set_id ->
    let out := App.quiz_question_post db clk sess set_id form rnd in
    out.1.2 = App.ResultPage score total ->
    Lessons.total_sessions (Lessons.get_stats out.1.1.1 now set_id None None)
    = Lessons.total_sessions (Lessons.get_stats db now set_id None None) + 1
    /\ Lessons.total_sessions (Lessons.get_stats out.1.1.1 now other None None)
       = Lessons.total_sessions (Lessons.get_stats db now other None None).
Proof.
  intros db clk sess set form rnd st score total now other Hq Hset [Hnum _]
    Hother out Hres.
  pose proof (finished_sessions db clk sess set form rnd st score total
                Hq Hset Hres) as Hsessions. fold out in Hsessions.
  assert (Hfresh : Database.quiz_sessions db
                     !! (Database.seq_quiz_sessions db + 1) = None).
  { destruct (Database.quiz_sessions db !! _) as [s|] eqn:E; [|reflexivity].
    pose proof (Hnum _ _ E). lia. }
  unfold Lessons.get_stats. simpl Lessons.total_sessions.
  rewrite !(matching_sessions_insert db out.1.1.1 _ _ _ _ _ _ Hfresh Hsessions).
  unfold Database.session_where. simpl.
  rewrite Z.eqb_refl. simpl.
  destruct (Z.eqb_spec set other) as [E|_]; [congruence|]. simpl. lia.
Qed.

(** The last answer of the restricted sample quiz makes the first
    session of set 1. *)
Lemma finished_quiz_in_stats_witness :
  Lessons.total_sessions
    (Lessons.get_stats
       (App.quiz_question_post Sample.pets Sample.noon Scenario.last_session 1
          {[ "answer" := "dog" ]} [1%nat]).1.1.1 2000 1 None None)
  = Lessons.total_sessions (Lessons.get_stats Sample.pets 2000 1 None None) + 1.
Proof.
  pose proof (finished_quiz_in_stats Sample.pets Sample.noon
                Scenario.last_session 1 {[ "answer" := "dog" ]} [1%nat]
                Scenario.last_quiz 1 1 2000 2 eq_refl eq_refl) as H.
  cbv zeta in H. apply H.
  - split; [intros id s Hs; simpl in Hs; rewrite lookup_empty in Hs;
            discriminate Hs|intros a []].
  - discriminate.
  - reflexivity.
Defined.

(** * Case and padding of a typed answer *)

Section Typed.

Lemma isspace_lower_char c : isspace (lower_char c) = isspace c.
Proof.
  destruct c as [[] [] [] [] [] [] [] []]; vm_compute; reflexivity.
Qed.

Lemma lower_lstrip s : lower (lstrip s) = lstrip (lower s).
Proof.
  induction s as [|c s IH]; simpl; [reflexivity|].
  rewrite isspace_lower_char. now destruct (isspace c).
Qed.

Lemma lower_rstrip s : lower (rstrip s) = rstrip (lower s).
Proof.
  induction s as [|c s IH]; simpl; [reflexivity|].
  rewrite <- IH, isspace_lower_char.
  destruct (rstrip s); simpl; [now destruct (isspace c)|reflexivity].
Qed.

Lemma lower_strip s : lower (strip s) = strip (lower s).
Proof. unfold strip. now rewrite lower_rstrip, lower_lstrip. Qed.

Lemma rstrip_nil_lstrip s : rstrip s = EmptyString -> lstrip s = EmptyString.
Proof.
  induction s as [|c s IH]; simpl; [reflexivity|].
  destruct (rstrip s); [|discriminate].
  destruct (isspace c); [auto|discriminate].
Qed.

Lemma lstrip_nil_rstrip s : lstrip s = EmptyString -> rstrip s = EmptyString.
Proof.
  induction s as [|c s IH]; simpl; [reflexivity|].
  destruct (isspace c); [|discriminate].
  intros E. now rewrite (IH E).
Qed.

Lemma lstrip_fixed s : lstrip (lstrip s) = lstrip s.
Proof.
  induction s as [|c s IH]; simpl; [reflexivity|].
  destruct (isspace c) eqn:E; [exact IH|]. simpl. now rewrite E.
Qed.

Lemma strip_nil s : strip s = EmptyString -> lstrip s = EmptyString.
Proof.
  unfold strip. intros E. apply rstrip_nil_lstrip in E.
  now rewrite lstrip_fixed in E.
Qed.

Lemma lstrip_pad p s : lstrip p = EmptyString -> lstrip (p +:+ s) = lstrip s.
Proof.
  induction p as [|c p IH]; simpl; [reflexivity|].
  destruct (isspace c); [exact IH|discriminate].
Qed.

Lemma rstrip_pad s p : lstrip p = EmptyString -> rstrip (s +:+ p) = rstrip s.
Proof.
  intros Hp. induction s as [|c s IH]; simpl.
  - now apply lstrip_nil_rstrip.
  - now rewrite IH.
Qed.

Lemma strip_right_pad s p :
  lstrip p = EmptyString -> strip (s +:+ p) = strip s.
Proof.
  intros Hp. unfold strip. induction s as [|c s IH].
  - change (rstrip (lstrip p) = rstrip (lstrip EmptyString)).
    rewrite Hp. reflexivity.
  - change (lstrip (String c s +:+ p))
      with (if isspace c then lstrip (s +:+ p) else String c s +:+ p).
    change (lstrip (String c s))
      with (if isspace c then lstrip s else String c s).
    destruct (isspace c); [exact IH|].
    now apply rstrip_pad.
Qed.

Lemma strip_pad p s p' :
  strip p = EmptyString -> strip p' = EmptyString ->
  strip (p +:+ s +:+ p') = strip s.
Proof.
  intros Hp Hp'. apply strip_nil in Hp, Hp'.
  unfold strip at 1. rewrite (lstrip_pad _ _ Hp).
  now apply strip_right_pad.
Qed.

End Typed.

(** X25.  A typed answer is judged without regard to letter case and
    to surrounding whitespace: a submission that differs from another
    only in the case of its letters and in whitespace put before and
    after it gets the same verdict, from the typed grading of the web
    quiz and from [Question.check_answer] alike. *)
Theorem typed_answer_case_and_padding :
  forall (form : gmap string string) (q : App.current_question)
         (cli : Quiz.Question) (a a' pad pad' : string),
    strip pad = "" ->
    strip pad' = "" ->
    lower a' = lower a ->
    (App.grade "typed" (<[ "answer" := pad +:+ a' +:+ pad' ]> form) (Some q)).2
    = (App.grade "typed" (<[ "answer" := a ]> form) (Some q)).2
    /\ Quiz.check_answer cli (pad +:+ a' +:+ pad') = Quiz.check_answer cli a.
Proof.
  intros form q cli a a' pad pad' Hp Hp' Hcase.
  assert (E : lower (strip (pad +:+ a' +:+ pad')) = lower (strip a)).
  { rewrite (strip_pad _ _ _ Hp Hp'). now rewrite !lower_strip, Hcase. }
  split.
  - unfold App.grade, App.form_get. simpl.
    rewrite !lookup_insert. simpl. now rewrite E.
  - unfold Quiz.check_answer. now rewrite E.
Qed.

(** " DOG " and "dog" get the same verdict. *)
Lemma typed_answer_case_and_padding_witness :
  (App.grade "typed" (<[ "answer" := " DOG " ]> ∅) (Some Sample.ask_dog)).2
  = (App.grade "typed" (<[ "answer" := "dog" ]> ∅) (Some Sample.ask_dog)).2.
Proof.
  exact (proj1 (typed_answer_case_and_padding ∅ Sample.ask_dog Sample.hund_dog
                  "dog" "DOG" " " " " eq_refl eq_refl eq_refl)).
Defined.
